(** * grimoire: task graph, router, engine bookkeeping and combat strategy

    A shallow embedding of the task-orchestration core of grimoire (the
    functions [getTasks] and [orderByRoute], the class [Engine] of engine.js
    and the classes of combat.js) together with the properties established
    about it.

    Conventions of the embedding.
    - JavaScript objects that the code mutates in place (tasks, combat
      strategies, their Maps and arrays) live in explicit stores indexed by
      references; two references are the same object iff they are equal.
    - A thrown value is the thrown string itself.
    - Predicates supplied by the caller ([completed], [ready]) read a world
      state [W] and return a boolean.
    - Router priorities are exact decimals counted in hundredths, so that
      [1000] is [100000], routing index [i] is [100 * i] and [p - 0.01] is
      [p - 1]; the rounding of floating-point subtraction is left out.
    - A recursion or loop that may go on for ever takes a bound [fuel] and
      answers [OutOfFuel] when the bound is reached. *)

From Stdlib Require Import ZArith Lia Ascii String.
From stdpp Require Import base strings gmap list pretty.

Local Open Scope string_scope.
Local Open Scope list_scope.
Local Open Scope Z_scope.

(** ** Results of calls that may throw or fail to return *)

Inductive Outcome (A : Type) : Type :=
| Returned (a : A)
| Thrown (message : string)
| OutOfFuel.
Arguments Returned {A} a.
Arguments Thrown {A} message.
Arguments OutOfFuel {A}.

(** ** Tasks (task.d.ts) *)

(** References to objects. *)
Abbreviation Ref := nat (only parsing).

Record Location := { location_name : string }.

Record Limit := {
  tries : option Z;
  turns : option Z;
  soft : option Z;
  message : option string;
}.

Record AcquireItem (W : Type) := {
  item : string;
  num : option Z;
  price : option Z;
  useful : option (W -> bool);
  optional : option bool;
  get : option (W -> Outcome W);
}.

Record OutfitSpec := {
  equip : option (list string);
  modifier : option string;
  familiar : option string;
  avoid : option (list string);
  skipDefaults : option bool;
}.

Record Task (W : Type) := {
  name : string;
  after : option (list string);
  ready : option (W -> bool);
  completed : W -> bool;
  prepare : option (W -> Outcome W);
  do_ : Location + (W -> Outcome W);
  post : option (W -> Outcome W);
  acquire : option (list (AcquireItem W));
  choices : list (Z * (Z + (W -> Z)));
  limit : option Limit;
  outfit : option (OutfitSpec + (W -> OutfitSpec));
  combat : option Ref;
}.
Arguments name {W} _.
Arguments after {W} _.
Arguments ready {W} _.
Arguments completed {W} _.
Arguments prepare {W} _.
Arguments do_ {W} _.
Arguments post {W} _.
Arguments acquire {W} _.
Arguments choices {W} _.
Arguments limit {W} _.
Arguments outfit {W} _.
Arguments combat {W} _.

(** [task.name = v] and [task.after = v]: every other field is kept. *)
Definition set_name {W} (t : Task W) (v : string) : Task W :=
  {| name := v; after := after t; ready := ready t; completed := completed t;
     prepare := prepare t; do_ := do_ t; post := post t; acquire := acquire t;
     choices := choices t; limit := limit t; outfit := outfit t;
     combat := combat t |}.

Definition set_after {W} (t : Task W) (v : option (list string)) : Task W :=
  {| name := name t; after := v; ready := ready t; completed := completed t;
     prepare := prepare t; do_ := do_ t; post := post t; acquire := acquire t;
     choices := choices t; limit := limit t; outfit := outfit t;
     combat := combat t |}.

(** [task.after ?? []] *)
Definition after_list {W} (t : Task W) : list string :=
  match after t with Some l => l | None => [] end.

(** A quest holds its name and its task objects. *)
Record Quest := { quest_name : string; tasks : list Ref }.

(** The task objects, by reference. *)
Definition Store (W : Type) := Ref -> Task W.

Definition store_set {W} (σ : Store W) (r : Ref) (t : Task W) : Store W :=
  fun r' => if decide (r' = r) then t else σ r'.
Arguments store_set : simpl never.

(** ** getTasks *)

(** [s.includes("/")] *)
Fixpoint includes_slash (s : string) : bool :=
  match s with
  | EmptyString => false
  | String c s' => if Ascii.eqb c "/"%char then true else includes_slash s'
  end.

(** [`${quest.name}/${x}`] *)
Definition in_quest (quest : string) (x : string) : string :=
  quest +:+ "/" +:+ x.

(** [after.includes("/") ? after : `${quest.name}/${after}`] *)
Definition namespace_after (quest : string) (a : string) : string :=
  if includes_slash a then a else in_quest quest a.

(** The body of the inner loop of [getTasks] on the task object [r]. *)
Definition visit_task {W} (implicitAfter : bool) (quest : string)
    (st : Store W * list Ref) (r : Ref) : Store W * list Ref :=
  let '(σ, result) := st in
  let σ1 := store_set σ r (set_name (σ r) (in_quest quest (name (σ r)))) in
  let σ2 := store_set σ1 r
              (set_after (σ1 r) (fmap (M := list) (namespace_after quest) <$> after (σ1 r))) in
  let σ3 :=
    match last result with
    | Some prev =>
        if implicitAfter && bool_decide (after (σ2 r) = None)
        then store_set σ2 r (set_after (σ2 r) (Some [name (σ2 prev)]))
        else σ2
    | None => σ2
    end in
  (σ3, result ++ [r]).
Arguments visit_task : simpl never.

Definition visit_quest {W} (implicitAfter : bool)
    (st : Store W * list Ref) (q : Quest) : Store W * list Ref :=
  fold_left (visit_task implicitAfter (quest_name q)) (tasks q) st.

(** The first loop of [getTasks]: namespacing. *)
Definition namespace_all {W} (quests : list Quest) (implicitAfter : bool)
    (σ : Store W) : Store W * list Ref :=
  fold_left (visit_quest implicitAfter) quests (σ, []).

(** [names]: the Set of all task names of [result]. *)
Definition collect_names {W} (σ : Store W) (result : list Ref) : gset string :=
  fold_left (fun names r => names ∪ {[ name (σ r) ]}) result ∅.

Definition unknown_dependency (dep task : string) : string :=
  "Unknown task dependency " +:+ dep +:+ " of " +:+ task.

(** The inner verification loop: the first entry of [afters] outside [names]. *)
Fixpoint check_after (names : gset string) (task : string) (afters : list string)
    : option string :=
  match afters with
  | [] => None
  | a :: rest =>
      if bool_decide (a ∈ names) then check_after names task rest
      else Some (unknown_dependency a task)
  end.

(** The outer verification loop. *)
Fixpoint check_tasks {W} (σ : Store W) (names : gset string) (result : list Ref)
    : option string :=
  match result with
  | [] => None
  | r :: rest =>
      match check_after names (name (σ r)) (after_list (σ r)) with
      | Some e => Some e
      | None => check_tasks σ names rest
      end
  end.

(** [getTasks(quests, implicitAfter)]: the store after the call, and the
    returned list or the thrown message. *)
Definition getTasks {W} (quests : list Quest) (implicitAfter : bool)
    (σ : Store W) : Store W * Outcome (list Ref) :=
  let '(σ', result) := namespace_all quests implicitAfter σ in
  match check_tasks σ' (collect_names σ' result) result with
  | Some e => (σ', Thrown e)
  | None => (σ', Returned result)
  end.

(** ** orderByRoute *)

(** Sequencing of a loop body that may throw or fail to return. *)
Fixpoint for_each {A S : Type} (body : A -> S -> Outcome S) (l : list A) (s : S)
    : Outcome S :=
  match l with
  | [] => Returned s
  | x :: rest =>
      match body x s with
      | Returned s' => for_each body rest s'
      | Thrown e => Thrown e
      | OutOfFuel => OutOfFuel
      end
  end.

(** The priority [1000] given to every task at the start. *)
Definition sentinel : Z := 100000.

(** Routing index [i] as a priority. *)
Definition index_priority (i : nat) : Z := 100 * Z.of_nat i.

(** [priorities]: each task name with its priority and its task object. *)
Definition initial_priorities {W} (σ : Store W) (tasks : list Ref)
    : gmap string (Z * Ref) :=
  fold_left (fun pr r => <[ name (σ r) := (sentinel, r) ]> pr) tasks ∅.

Definition unknown_routing (task : string) : string :=
  "Unknown routing task " +:+ task.

(** [setPriorityRecursive(task, priority)]; [fuel] bounds the depth of the
    recursion. *)
Fixpoint setPriorityRecursive {W} (σ : Store W) (ignore_missing_tasks : bool)
    (fuel : nat) (task : string) (priority : Z) (priorities : gmap string (Z * Ref))
    : Outcome (gmap string (Z * Ref)) :=
  match fuel with
  | O => OutOfFuel
  | S fuel' =>
      match priorities !! task with
      | None =>
          if ignore_missing_tasks then Returned priorities
          else Thrown (unknown_routing task)
      | Some (old_priority, t) =>
          if old_priority <=? priority then Returned priorities
          else
            for_each
              (fun requirement pr =>
                 setPriorityRecursive σ ignore_missing_tasks fuel' requirement
                   (priority - 1) pr)
              (after_list (σ t))
              (<[ task := (priority, t) ]> priorities)
      end
  end.

(** The loop over [routing], from index [i] on. *)
Fixpoint route_from {W} (σ : Store W) (ignore_missing_tasks : bool) (fuel : nat)
    (i : nat) (routing : list string) (priorities : gmap string (Z * Ref))
    : Outcome (gmap string (Z * Ref)) :=
  match routing with
  | [] => Returned priorities
  | r :: rest =>
      match setPriorityRecursive σ ignore_missing_tasks fuel r (index_priority i)
              priorities with
      | Returned pr => route_from σ ignore_missing_tasks fuel (S i) rest pr
      | Thrown e => Thrown e
      | OutOfFuel => OutOfFuel
      end
  end.

(** [(priorities.get(a.name) || [1000])[0]] *)
Definition priority_of {W} (σ : Store W) (priorities : gmap string (Z * Ref))
    (r : Ref) : Z :=
  match priorities !! name (σ r) with
  | Some (p, _) => p
  | None => sentinel
  end.

(** [Array.prototype.sort] with the comparator [key a - key b]: the stable
    sort by ascending key. *)
Fixpoint insert_by {A} (key : A -> Z) (x : A) (l : list A) : list A :=
  match l with
  | [] => [x]
  | y :: rest => if key x <=? key y then x :: y :: rest else y :: insert_by key x rest
  end.

Fixpoint stable_sort {A} (key : A -> Z) (l : list A) : list A :=
  match l with
  | [] => []
  | x :: rest => insert_by key x (stable_sort key rest)
  end.

Definition orderByRoute {W} (σ : Store W) (tasks : list Ref) (routing : list string)
    (ignore_missing_tasks : bool) (fuel : nat) : Outcome (list Ref) :=
  match route_from σ ignore_missing_tasks fuel 0 routing (initial_priorities σ tasks) with
  | Returned priorities => Returned (stable_sort (priority_of σ priorities) tasks)
  | Thrown e => Thrown e
  | OutOfFuel => OutOfFuel
  end.

(** The dependency graph that the router follows: the task registered under
    the name [n] lists [m] in its [after], and [m] is a registered name. *)
Definition registered {W} (σ : Store W) (tasks : list Ref) (n : string) : option Ref :=
  snd <$> initial_priorities σ tasks !! n.

Definition requires {W} (σ : Store W) (tasks : list Ref) (n m : string) : Prop :=
  ∃ r, registered σ tasks n = Some r ∧ m ∈ after_list (σ r) ∧
       is_Some (registered σ tasks m).

(** No dependency cycle can be reached from a routing entry. *)
Definition acyclic_from {W} (σ : Store W) (tasks : list Ref) (routing : list string)
    : Prop :=
  ∀ r n, r ∈ routing → rtc (requires σ tasks) r n → ¬ tc (requires σ tasks) n n.

(** The dependency graph has no cycle at all. *)
Definition acyclic {W} (σ : Store W) (tasks : list Ref) : Prop :=
  ∀ n, ¬ tc (requires σ tasks) n n.

(** Every occurrence of [d] in [l] is at a smaller index than every
    occurrence of [t], and both occur. *)
Definition strictly_before (d t : Ref) (l : list Ref) : Prop :=
  d ∈ l ∧ t ∈ l ∧
  ∀ i j, l !! i = Some d → l !! j = Some t → (i < j)%nat.

(** ** engine.js: the attempts object *)

(** The value held under a key of [attempts], seen as a number. *)
Inductive JSNumber := Num (z : Z) | NaN.

(** [attempts] is the plain object [{}]: its own properties are kept in a
    map, and the properties of [Object.prototype] (those of the language
    standard) are inherited. *)
Definition object_prototype_keys : list string :=
  ["constructor"; "hasOwnProperty"; "isPrototypeOf"; "propertyIsEnumerable";
   "toLocaleString"; "toString"; "valueOf"; "__proto__"; "__defineGetter__";
   "__defineSetter__"; "__lookupGetter__"; "__lookupSetter__"].

(** [key in object]: own or inherited. *)
Definition js_in (key : string) (object : gmap string JSNumber) : bool :=
  bool_decide (is_Some (object !! key)) || bool_decide (key ∈ object_prototype_keys).

(** [object[key]] used as a number: an own property gives its value, an
    inherited function or object (or no property at all) gives NaN. *)
Definition js_get_number (key : string) (object : gmap string JSNumber) : JSNumber :=
  match object !! key with
  | Some v => v
  | None => NaN
  end.

(** [object[key] = v] for a number [v]: creates or overwrites the own
    property, except that assigning a number to [__proto__] does nothing. *)
Definition js_set (key : string) (v : JSNumber) (object : gmap string JSNumber)
    : gmap string JSNumber :=
  if bool_decide (key = "__proto__") then object else <[ key := v ]> object.

(** [x + 1] *)
Definition js_succ (x : JSNumber) : JSNumber :=
  match x with Num z => Num (z + 1) | NaN => NaN end.

(** [x >= y] for a number [y] *)
Definition js_ge (x : JSNumber) (y : Z) : bool :=
  match x with Num z => y <=? z | NaN => false end.

(** ** engine.js: Engine *)

Record Engine := {
  engine_tasks : list Ref;
  tasks_by_name : gmap string Ref;
  attempts : gmap string JSNumber;
}.

(** [new Engine(tasks)] *)
Definition new_Engine {W} (σ : Store W) (tasks : list Ref) : Engine :=
  {| engine_tasks := tasks;
     tasks_by_name := fold_left (fun m r => <[ name (σ r) := r ]> m) tasks ∅;
     attempts := ∅ |}.

Definition unknown_dependency_on (dep task : string) : string :=
  "Unknown task dependency " +:+ dep +:+ " on " +:+ task.

(** The loop over [task.after] in [available]: [Returned true] when the loop
    runs to its end. *)
Fixpoint dependencies_complete {W} (σ : Store W) (e : Engine) (task : string)
    (afters : list string) (w : W) : Outcome bool :=
  match afters with
  | [] => Returned true
  | a :: rest =>
      match tasks_by_name e !! a with
      | None => Thrown (unknown_dependency_on a task)
      | Some after_task =>
          if negb (completed (σ after_task) w) then Returned false
          else dependencies_complete σ e task rest w
      end
  end.

(** [task.ready && !task.ready()] *)
Definition not_ready {W} (t : Task W) (w : W) : bool :=
  match ready t with
  | Some f => negb (f w)
  | None => false
  end.

(** [engine.available(task)] *)
Definition available {W} (σ : Store W) (e : Engine) (task : Ref) (w : W)
    : Outcome bool :=
  match dependencies_complete σ e (name (σ task)) (after_list (σ task)) w with
  | Returned true =>
      if not_ready (σ task) w then Returned false
      else if completed (σ task) w then Returned false
      else Returned true
  | other => other
  end.

(** What [execute] needs from kolmafia, libram and the outfit module:
    [acquireItems] and the set-up of outfit, combat macro and choices, which
    only call these libraries, the adventure primitive [adv1], the handling
    of the encounter that follows ([runCombat], [runChoice]), the test on the
    last encounter, and the turns spent at a location. *)
Record Host (W : Type) := {
  acquireItems : Task W -> W -> Outcome W;
  arm : Task W -> W -> Outcome W;
  adv1 : Location -> W -> Outcome W;
  resolve_encounter : W -> Outcome W;
  lastEncounterWasWanderingNC : W -> bool;
  turnsSpent : Location -> W -> Z;
}.
Arguments acquireItems {W} _.
Arguments arm {W} _.
Arguments adv1 {W} _.
Arguments resolve_encounter {W} _.
Arguments lastEncounterWasWanderingNC {W} _.
Arguments turnsSpent {W} _.

Definition and_then {A B} (x : Outcome A) (k : A -> Outcome B) : Outcome B :=
  match x with
  | Returned a => k a
  | Thrown e => Thrown e
  | OutOfFuel => OutOfFuel
  end.

(** [task.prepare?.call(task)] and [task.post?.call(task)] *)
Definition call_hook {W} (hook : option (W -> Outcome W)) (w : W) : Outcome W :=
  match hook with
  | Some f => f w
  | None => Returned w
  end.

(** [engine.do(task)] *)
Definition do_task {W} (h : Host W) (t : Task W) (w : W) : Outcome W :=
  and_then (match do_ t with
            | inr f => f w
            | inl location => adv1 h location w
            end)
           (resolve_encounter h).

(** [engine.shouldRepeatAdv(task)] *)
Definition shouldRepeatAdv {W} (h : Host W) (t : Task W) (w : W) : bool :=
  match do_ t with
  | inl _ => lastEncounterWasWanderingNC h w
  | inr _ => false
  end.

(** [while (this.shouldRepeatAdv(task)) this.do(task);] *)
Fixpoint repeat_do {W} (h : Host W) (fuel : nat) (t : Task W) (w : W) : Outcome W :=
  if shouldRepeatAdv h t w then
    match fuel with
    | O => OutOfFuel
    | S fuel' => and_then (do_task h t w) (repeat_do h fuel' t)
    end
  else Returned w.

(** [execute] up to and including [this.post(task)]. *)
Definition perform {W} (h : Host W) (fuel : nat) (t : Task W) (w : W) : Outcome W :=
  and_then (acquireItems h t w) (fun w =>
  and_then (arm h t w) (fun w =>
  and_then (call_hook (prepare t) w) (fun w =>
  and_then (do_task h t w) (fun w =>
  and_then (repeat_do h fuel t w) (fun w =>
  call_hook (post t) w))))).

(** [markAttempt(task)] *)
Definition markAttempt {W} (t : Task W) (e : Engine) : Engine :=
  let a0 := attempts e in
  let a1 := if negb (js_in (name t) a0) then js_set (name t) (Num 0) a0 else a0 in
  let a2 := js_set (name t) (js_succ (js_get_number (name t) a1)) a1 in
  {| engine_tasks := engine_tasks e; tasks_by_name := tasks_by_name e; attempts := a2 |}.

(** [task.limit.message ? ` ${task.limit.message}` : ""] *)
Definition failureMessage (l : Limit) : string :=
  match message l with
  | Some m => if bool_decide (m = "") then "" else " " +:+ m
  | None => ""
  end.

Definition tries_exceeded (task : string) (n : Z) (l : Limit) : string :=
  "Task " +:+ task +:+ " did not complete within " +:+ pretty n +:+
  " attempts. Please check what went wrong." +:+ failureMessage l.

Definition soft_exceeded (task : string) (n : Z) (l : Limit) : string :=
  "Task " +:+ task +:+ " did not complete within " +:+ pretty n +:+
  " attempts. Please check what went wrong (you may just be unlucky)." +:+
  failureMessage l.

Definition turns_exceeded (task : string) (n : Z) (l : Limit) : string :=
  "Task " +:+ task +:+ " did not complete within " +:+ pretty n +:+
  " turns. Please check what went wrong." +:+ failureMessage l.

(** [limit.x && current >= limit.x] for a counter read from [attempts] *)
Definition over (bound : option Z) (current : JSNumber) : option Z :=
  match bound with
  | Some n => if negb (n =? 0) && js_ge current n then Some n else None
  | None => None
  end.

(** [checkLimits(task)] *)
Definition checkLimits {W} (h : Host W) (t : Task W) (e : Engine) (w : W)
    : Outcome unit :=
  match limit t with
  | None => Returned tt
  | Some l =>
      let count := js_get_number (name t) (attempts e) in
      match over (tries l) count with
      | Some n => Thrown (tries_exceeded (name t) n l)
      | None =>
          match over (soft l) count with
          | Some n => Thrown (soft_exceeded (name t) n l)
          | None =>
              match do_ t with
              | inl location =>
                  match over (turns l) (Num (turnsSpent h location w)) with
                  | Some n => Thrown (turns_exceeded (name t) n l)
                  | None => Returned tt
                  end
              | inr _ => Returned tt
              end
          end
      end
  end.

(** [execute(task)]: the engine after the call, and the world after it or
    the thrown message. *)
Definition execute {W} (h : Host W) (fuel : nat) (σ : Store W) (task : Ref)
    (e : Engine) (w : W) : Engine * Outcome W :=
  match perform h fuel (σ task) w with
  | Returned w' =>
      let e' := markAttempt (σ task) e in
      if negb (completed (σ task) w') then
        match checkLimits h (σ task) e' w' with
        | Returned _ => (e', Returned w')
        | Thrown m => (e', Thrown m)
        | OutOfFuel => (e', OutOfFuel)
        end
      else (e', Returned w')
  | other => (e, other)
  end.

(** [n] successive calls of [execute] on the same task, stopping at the
    first one that does not return. *)
Fixpoint execute_times {W} (h : Host W) (fuel : nat) (σ : Store W) (task : Ref)
    (n : nat) (e : Engine) (w : W) : Engine * Outcome W :=
  match n with
  | O => (e, Returned w)
  | S n' =>
      match execute_times h fuel σ task n' e w with
      | (e', Returned w') => execute h fuel σ task e' w'
      | stopped => stopped
      end
  end.

(** The functions of kolmafia that [acquireItems] calls: two queries, and
    two calls that change the world and may throw or not return. *)
Record Inventory (W : Type) := {
  itemAmount : string -> W -> Z;
  equippedAmount : string -> W -> Z;
  buy : string -> Z -> Z -> W -> Outcome W;
  retrieveItem : string -> Z -> W -> Outcome W;
}.
Arguments itemAmount {W} _.
Arguments equippedAmount {W} _.
Arguments buy {W} _.
Arguments retrieveItem {W} _.


(** [itemAmount(item) + equippedAmount(item)] *)
Definition num_have {W} (inv : Inventory W) (to_get : AcquireItem W) (w : W) : Z :=
  itemAmount inv (item _ to_get) w + equippedAmount inv (item _ to_get) w.

(** [to_get.num ?? 1] *)
Definition num_needed {W} (to_get : AcquireItem W) : Z :=
  match num _ to_get with Some n => n | None => 1 end.




(** ** combat.js *)

Record Monster := { monster_name : string; id : Z }.

#[global] Instance Monster_eq_dec : EqDecision Monster.
Proof. solve_decision. Defined.

(** libram's [Macro] class, as far as combat.js uses it. *)
Record MacroLib (Macro : Type) := {
  new_Macro : Macro;
  step : Macro -> list Macro -> Macro;
  if_ : Macro -> string -> string -> Macro;
  toString : Macro -> string;
  item_macro : string -> Macro;
  skill_macro : string -> Macro;
}.
Arguments new_Macro {Macro} _.
Arguments step {Macro} _ _ _.
Arguments if_ {Macro} _ _ _ _.
Arguments toString {Macro} _ _.
Arguments item_macro {Macro} _ _.
Arguments skill_macro {Macro} _ _.

(** [DelayedMacro]: a macro, or a callback that gives one. *)
Definition DelayedMacro (W Macro : Type) : Type := Macro + (W -> Macro).

Definition undelay {W Macro} (w : W) (macro : DelayedMacro W Macro) : Macro :=
  match macro with
  | inl m => m
  | inr f => f w
  end.

(** A JavaScript [Map]: its entries in insertion order, one per key. *)
Fixpoint map_get {K V} `{EqDecision K} (k : K) (m : list (K * V)) : option V :=
  match m with
  | [] => None
  | (k', v) :: rest => if decide (k' = k) then Some v else map_get k rest
  end.

Definition map_has {K V} `{EqDecision K} (k : K) (m : list (K * V)) : bool :=
  bool_decide (is_Some (map_get k m)).

Fixpoint map_replace {K V} `{EqDecision K} (k : K) (v : V) (m : list (K * V))
    : list (K * V) :=
  match m with
  | [] => []
  | (k', v') :: rest =>
      if decide (k' = k) then (k', v) :: rest else (k', v') :: map_replace k v rest
  end.

Definition map_set {K V} `{EqDecision K} (k : K) (v : V) (m : list (K * V))
    : list (K * V) :=
  if map_has k m then map_replace k v m else m ++ [(k, v)].

(** The fields of a [CombatStrategy] object. The two Maps and the array of
    default macros are objects of their own, held by reference. *)
Record CombatStrategy (W Macro : Type) := {
  starting_macro : option (DelayedMacro W Macro);
  default_macro : option Ref;
  macros : Ref;
  default_action : option string;
  actions : Ref;
}.
Arguments starting_macro {W Macro} _.
Arguments default_macro {W Macro} _.
Arguments macros {W Macro} _.
Arguments default_action {W Macro} _.
Arguments actions {W Macro} _.

(** The objects of combat.js: arrays of macros, Maps from monsters to such
    arrays, Maps from monsters to actions, and strategies. [next] is the
    first reference not in use. *)
Record Heap (W Macro : Type) := {
  arrays : Ref -> list (DelayedMacro W Macro);
  macro_maps : Ref -> list (Monster * Ref);
  action_maps : Ref -> list (Monster * string);
  strategies : Ref -> CombatStrategy W Macro;
  next : Ref;
}.
Arguments arrays {W Macro} _.
Arguments macro_maps {W Macro} _.
Arguments action_maps {W Macro} _.
Arguments strategies {W Macro} _.
Arguments next {W Macro} _.

Definition update {V} (f : Ref -> V) (r : Ref) (v : V) : Ref -> V :=
  fun r' => if decide (r' = r) then v else f r'.

Definition set_array {W Macro} (h : Heap W Macro) (r : Ref)
    (v : list (DelayedMacro W Macro)) : Heap W Macro :=
  {| arrays := update (arrays h) r v; macro_maps := macro_maps h;
     action_maps := action_maps h; strategies := strategies h; next := next h |}.

Definition set_macro_map {W Macro} (h : Heap W Macro) (r : Ref)
    (v : list (Monster * Ref)) : Heap W Macro :=
  {| arrays := arrays h; macro_maps := update (macro_maps h) r v;
     action_maps := action_maps h; strategies := strategies h; next := next h |}.

Definition set_action_map {W Macro} (h : Heap W Macro) (r : Ref)
    (v : list (Monster * string)) : Heap W Macro :=
  {| arrays := arrays h; macro_maps := macro_maps h;
     action_maps := update (action_maps h) r v; strategies := strategies h;
     next := next h |}.

Definition set_strategy {W Macro} (h : Heap W Macro) (r : Ref)
    (v : CombatStrategy W Macro) : Heap W Macro :=
  {| arrays := arrays h; macro_maps := macro_maps h;
     action_maps := action_maps h; strategies := update (strategies h) r v;
     next := next h |}.

(** A new object: its reference, and the heap in which it is in use. *)
Definition fresh {W Macro} (h : Heap W Macro) : Ref * Heap W Macro :=
  (next h,
   {| arrays := arrays h; macro_maps := macro_maps h;
      action_maps := action_maps h; strategies := strategies h;
      next := S (next h) |}).

(** [new Array(...v)], [new Map()] *)
Definition new_array {W Macro} (h : Heap W Macro) (v : list (DelayedMacro W Macro))
    : Ref * Heap W Macro :=
  let '(r, h) := fresh h in (r, set_array h r v).

(** [new CombatStrategy()] *)
Definition new_CombatStrategy {W Macro} (h : Heap W Macro) : Ref * Heap W Macro :=
  let '(this, h) := fresh h in
  let '(m, h) := fresh h in
  let h := set_macro_map h m [] in
  let '(a, h) := fresh h in
  let h := set_action_map h a [] in
  (this,
   set_strategy h this
     {| starting_macro := None; default_macro := None; macros := m;
        default_action := None; actions := a |}).

(** [array.unshift(macro)] or [array.push(macro)] *)
Definition add_to_array {W Macro} (h : Heap W Macro) (r : Ref)
    (macro : DelayedMacro W Macro) (prepend : bool) : Heap W Macro :=
  set_array h r (if prepend then macro :: arrays h r else arrays h r ++ [macro]).

(** The body of the loop over [monsters] in [CombatStrategy.macro]. *)
Definition macro_for {W Macro} (this : Ref) (macro : DelayedMacro W Macro)
    (prepend : bool) (h : Heap W Macro) (monster : Monster) : Heap W Macro :=
  let m := macros (strategies h this) in
  let h :=
    if negb (map_has monster (macro_maps h m)) then
      let '(r, h) := new_array h [] in
      set_macro_map h m (map_set monster r (macro_maps h m))
    else h in
  match map_get monster (macro_maps h m) with
  | Some r => add_to_array h r macro prepend
  | None => h
  end.

(** [this.macro(macro, monsters, prepend)] *)
Definition macro {W Macro} (this : Ref) (macro : DelayedMacro W Macro)
    (monsters : option (list Monster)) (prepend : bool) (h : Heap W Macro)
    : Heap W Macro :=
  match monsters with
  | None =>
      let h :=
        match default_macro (strategies h this) with
        | None =>
            let '(r, h) := new_array h [] in
            let s := strategies h this in
            set_strategy h this
              {| starting_macro := starting_macro s; default_macro := Some r;
                 macros := macros s; default_action := default_action s;
                 actions := actions s |}
        | Some _ => h
        end in
      match default_macro (strategies h this) with
      | Some r => add_to_array h r macro prepend
      | None => h
      end
  | Some monsters => fold_left (macro_for this macro prepend) monsters h
  end.

(** [this.action(action, monsters)] *)
Definition action {W Macro} (this : Ref) (action : string)
    (monsters : option (list Monster)) (h : Heap W Macro) : Heap W Macro :=
  match monsters with
  | None =>
      let s := strategies h this in
      set_strategy h this
        {| starting_macro := starting_macro s; default_macro := default_macro s;
           macros := macros s; default_action := Some action;
           actions := actions s |}
  | Some monsters =>
      fold_left
        (fun h monster =>
           let a := actions (strategies h this) in
           set_action_map h a (map_set monster action (action_maps h a)))
        monsters h
  end.

(** [result.macros.set(pair[0], [...pair[1]])] *)
Definition copy_macro_entry {W Macro} (result : Ref) (h : Heap W Macro)
    (pair : Monster * Ref) : Heap W Macro :=
  let '(r, h) := new_array h (arrays h pair.2) in
  let m := macros (strategies h result) in
  set_macro_map h m (map_set pair.1 r (macro_maps h m)).

(** [result.actions.set(pair[0], pair[1])] *)
Definition copy_action_entry {W Macro} (result : Ref) (h : Heap W Macro)
    (pair : Monster * string) : Heap W Macro :=
  let a := actions (strategies h result) in
  set_action_map h a (map_set pair.1 pair.2 (action_maps h a)).

(** [if (result.default_macro) result.default_macro = [...result.default_macro]] *)
Definition copy_default_macro {W Macro} (result : Ref) (h : Heap W Macro)
    : Heap W Macro :=
  match default_macro (strategies h result) with
  | Some d =>
      let '(r, h) := new_array h (arrays h d) in
      let s := strategies h result in
      set_strategy h result
        {| starting_macro := starting_macro s; default_macro := Some r;
           macros := macros s; default_action := default_action s;
           actions := actions s |}
  | None => h
  end.

(** [this.clone()]. [{ ...this }] is a new object with the same field
    values, so its [macros] and [actions] are the Maps of [this]. *)
Definition clone {W Macro} (this : Ref) (h : Heap W Macro) : Ref * Heap W Macro :=
  let '(result, h) := fresh h in
  let h := set_strategy h result (strategies h this) in
  let h := copy_default_macro result h in
  let h := fold_left (copy_macro_entry result)
             (macro_maps h (macros (strategies h this))) h in
  let h := fold_left (copy_action_entry result)
             (action_maps h (actions (strategies h this))) h in
  (result, h).

(** The macros listed for [monster] by the strategy [this]. *)
Definition macros_of {W Macro} (h : Heap W Macro) (this : Ref) (monster : Monster)
    : option (list (DelayedMacro W Macro)) :=
  arrays h <$> map_get monster (macro_maps h (macros (strategies h this))).

(** The action set for [monster] by the strategy [this]. *)
Definition action_of {W Macro} (h : Heap W Macro) (this : Ref) (monster : Monster)
    : option string :=
  map_get monster (action_maps h (actions (strategies h this))).

(** The default macros of the strategy [this]. *)
Definition default_macros_of {W Macro} (h : Heap W Macro) (this : Ref)
    : option (list (DelayedMacro W Macro)) :=
  arrays h <$> default_macro (strategies h this).

(** [CompressedMacro.components]: macro text to the monsters that share it,
    in insertion order. *)
Definition CompressedMacro := list (string * list Monster).

(** [CompressedMacro.add(monster, macro)] *)
Definition compressed_add {Macro} (lib : MacroLib Macro) (monster : Monster)
    (macro : Macro) (components : CompressedMacro) : CompressedMacro :=
  let macro_text := toString lib macro in
  if bool_decide (String.length macro_text = 0%nat) then components
  else
    match map_get macro_text components with
    | None => map_set macro_text [monster] components
    | Some monsters => map_set macro_text (monsters ++ [monster]) components
    end.

(** [array.join(sep)] *)
Fixpoint join (sep : string) (l : list string) : string :=
  match l with
  | [] => ""
  | [x] => x
  | x :: rest => x +:+ sep +:+ join sep rest
  end.

(** [`monsterid ${mon.id}`] *)
Definition monsterid (mon : Monster) : string := "monsterid " +:+ pretty (id mon).

(** [monsters.map((mon) => `monsterid ${mon.id}`).join(" || ")] *)
Definition condition (monsters : list Monster) : string :=
  join " || " (map monsterid monsters).

(** The clauses issued by [CompressedMacro.compile]: guard and body. *)
Definition clauses (components : CompressedMacro) : list (string * string) :=
  map (fun '(macro, monsters) => (condition monsters, macro)) components.

(** [CompressedMacro.compile()] *)
Definition compressed_compile {Macro} (lib : MacroLib Macro)
    (components : CompressedMacro) : Macro :=
  fold_left
    (fun result '(macro, monsters) => if_ lib result (condition monsters) macro)
    components (new_Macro lib).

(** A [CombatResource]: what it does, and whether it has a [prepare]. *)
Inductive ResourceDo (Macro : Type) :=
| DoItem (i : string)
| DoSkill (s : string)
| DoMacro (m : Macro).
Arguments DoItem {Macro} i.
Arguments DoSkill {Macro} s.
Arguments DoMacro {Macro} m.

(** [CombatResources.getMacro(action)] *)
Definition getMacro {Macro} (lib : MacroLib Macro)
    (resources : list (string * ResourceDo Macro)) (action : string) : option Macro :=
  match map_get action resources with
  | None => None
  | Some (DoItem i) => Some (item_macro lib i)
  | Some (DoSkill s) => Some (skill_macro lib s)
  | Some (DoMacro m) => Some m
  end.

(** The argument of a default macro of an action. *)
Inductive Target :=
| TargetMonster (m : Monster)
| TargetLocation (l : Location)
| TargetUndefined.

(** [resources.getMacro(action) ?? defaults?.[action]?.call(defaults, target)] *)
Definition resolve_action {Macro} (lib : MacroLib Macro)
    (resources : list (string * ResourceDo Macro))
    (defaults : option (string -> option (Target -> Macro)))
    (action : string) (target : Target) : option Macro :=
  match getMacro lib resources action with
  | Some m => Some m
  | None =>
      match defaults with
      | Some d => match d action with Some f => Some (f target) | None => None end
      | None => None
      end
  end.

(** The macro that [compile] hands to [monster_macros.add] for one entry of
    [this.macros]. *)
Definition entry_macro {W Macro} (lib : MacroLib Macro) (h : Heap W Macro) (w : W)
    (value : Ref) : Macro :=
  step lib (new_Macro lib) (map (undelay w) (arrays h value)).

(** [monster_macros], after the loop over [this.macros]. *)
Definition monster_macros {W Macro} (lib : MacroLib Macro) (h : Heap W Macro)
    (this : Ref) (w : W) : CompressedMacro :=
  fold_left
    (fun c (entry : Monster * Ref) =>
       compressed_add lib entry.1 (entry_macro lib h w entry.2) c)
    (macro_maps h (macros (strategies h this))) [].

(** [monster_actions], after the loop over [this.actions]. *)
Definition monster_actions {W Macro} (lib : MacroLib Macro) (h : Heap W Macro)
    (this : Ref) (resources : list (string * ResourceDo Macro))
    (defaults : option (string -> option (Target -> Macro))) : CompressedMacro :=
  fold_left
    (fun c (entry : Monster * string) =>
       match resolve_action lib resources defaults entry.2 (TargetMonster entry.1) with
       | Some m => compressed_add lib entry.1 (step lib (new_Macro lib) [m]) c
       | None => c
       end)
    (action_maps h (actions (strategies h this))) [].

(** [this.compile(resources, defaults, location)] *)
Definition compile {W Macro} (lib : MacroLib Macro) (h : Heap W Macro) (this : Ref)
    (resources : list (string * ResourceDo Macro))
    (defaults : option (string -> option (Target -> Macro)))
    (location : option Location) (w : W) : Macro :=
  let s := strategies h this in
  let result := new_Macro lib in
  let result :=
    match starting_macro s with
    | Some m => step lib result [undelay w m]
    | None => result
    end in
  let result := step lib result [compressed_compile lib (monster_macros lib h this w)] in
  let result :=
    step lib result
      [compressed_compile lib (monster_actions lib h this resources defaults)] in
  let result :=
    match default_macro s with
    | Some d => step lib result (map (undelay w) (arrays h d))
    | None => result
    end in
  match default_action s with
  | Some a =>
      if bool_decide (a = "") then result
      else
        match resolve_action lib resources defaults a
                (match location with
                 | Some l => TargetLocation l
                 | None => TargetUndefined
                 end) with
        | Some m => step lib result [m]
        | None => result
        end
  | None => result
  end.

(** [this.startingMacro(macro)] *)
Definition startingMacro {W Macro} (this : Ref) (macro : DelayedMacro W Macro)
    (h : Heap W Macro) : Heap W Macro :=
  let s := strategies h this in
  set_strategy h this
    {| starting_macro := Some macro; default_macro := default_macro s;
       macros := macros s; default_action := default_action s;
       actions := actions s |}.

(** [this.can(action)] *)
Definition can {W Macro} (this : Ref) (action : string) (h : Heap W Macro) : bool :=
  let s := strategies h this in
  if bool_decide (Some action = default_action s) then true
  else bool_decide (action ∈ map snd (action_maps h (actions s))).

(** [this.getDefaultAction()] *)
Definition getDefaultAction {W Macro} (this : Ref) (h : Heap W Macro) : option string :=
  default_action (strategies h this).

(** [this.where(action)] *)
Definition where_ {W Macro} (this : Ref) (action : string) (h : Heap W Macro)
    : list Monster :=
  let a := action_maps h (actions (strategies h this)) in
  filter (fun key => map_get key a = Some action) (map fst a).

(** [this.currentStrategy(monster)] *)
Definition currentStrategy {W Macro} (this : Ref) (monster : Monster)
    (h : Heap W Macro) : option string :=
  match map_get monster (action_maps h (actions (strategies h this))) with
  | Some a => Some a
  | None => default_action (strategies h this)
  end.

(** [CombatResources.provide(action, resource)] *)
Definition provide {Macro} (action : string) (resource : option (ResourceDo Macro))
    (resources : list (string * ResourceDo Macro)) : list (string * ResourceDo Macro) :=
  match resource with
  | None => resources
  | Some r => map_set action r resources
  end.

(** [CombatResources.has(action)] *)
Definition has {Macro} (action : string) (resources : list (string * ResourceDo Macro))
    : bool :=
  map_has action resources.

(** [CombatResources.all()] *)
Definition all {Macro} (resources : list (string * ResourceDo Macro))
    : list (ResourceDo Macro) :=
  map snd resources.

(** ** args.js: CommandParser *)

(** Strings are sequences of code units: [s.length], [s.charAt(i)],
    [s.substring(a, b)] (which exchanges [a] and [b] when [a > b]) and
    [s.indexOf(c, from)] for a one-character [c]. *)
Definition charAt (s : string) (i : nat) : option ascii :=
  list_ascii_of_string s !! i.

Definition substring (s : string) (a b : nat) : string :=
  string_of_list_ascii
    (take (Nat.max a b - Nat.min a b) (drop (Nat.min a b) (list_ascii_of_string s))).

Definition indexOf (s : string) (c : ascii) (from : nat) : option nat :=
  (fun found : nat * ascii => (from + found.1)%nat) <$>
  list_find (fun x => x = c) (drop from (list_ascii_of_string s)).

(** A one-character string. *)
Definition char_string (c : ascii) : string := String c EmptyString.

Definition single_quote : ascii := "'"%char.
Definition double_quote : ascii := "034"%char.

(** The fields of a [CommandParser] that never change. *)
Record CommandParser := {
  command : string;
  keys : gset string;
  flags : gset string;
}.

(** A method of the parser: it reads and moves [this.index], and returns
    or throws. *)
Definition Parser (A : Type) : Type := nat -> Outcome (A * nat).

Definition ret {A} (a : A) : Parser A := fun i => Returned (a, i).

Definition bind {A B} (m : Parser A) (k : A -> Parser B) : Parser B :=
  fun i =>
    match m i with
    | Returned (a, i') => k a i'
    | Thrown e => Thrown e
    | OutOfFuel => OutOfFuel
    end.

Notation "'let*' x ':=' m 'in' k" := (bind m (fun x => k))
  (at level 10, x name, m at level 100, k at level 200).

Definition throw {A} (e : string) : Parser A := fun _ => Thrown e.
Definition get_index : Parser nat := fun i => Returned (i, i).
Definition set_index (j : nat) : Parser unit := fun _ => Returned (tt, j).

(** [this.finished()] *)
Definition finished (this : CommandParser) : Parser bool :=
  let* i := get_index in
  ret (bool_decide (String.length (command this) ≤ i)%nat).

(** [this.peek()] *)
Definition peek (this : CommandParser) : Parser (option ascii) :=
  let* i := get_index in
  if bool_decide (String.length (command this) ≤ i)%nat then ret None
  else ret (charAt (command this) i).

(** [this.consume(allowed)] *)
Definition consume (this : CommandParser) (allowed : list ascii) : Parser unit :=
  let* f := finished this in
  if f : bool then throw ("Expected " +:+ join "," (map char_string allowed))
  else
    let* c := peek this in
    match c with
    | Some c =>
        if bool_decide (c ∈ allowed) then let* i := get_index in set_index (S i)
        else ret tt
    | None => ret tt
    end.

(** [this.findNext(searchValue)] *)
Definition findNext (this : CommandParser) (searchValue : list ascii) : Parser nat :=
  let* i := get_index in
  ret (fold_left
          (fun result value =>
             match indexOf (command this) value i with
             | Some index => if (index <? result)%nat then index else result
             | None => result
             end)
          searchValue (String.length (command this))).

Definition unknown_key (key : string) : string := "Unknown key: " +:+ key.

(** [this.parseKey()] *)
Definition parseKey (this : CommandParser) : Parser string :=
  let* keyEnd := findNext this ["="%char; " "%char] in
  let* i := get_index in
  let key := substring (command this) i keyEnd in
  let* _ := set_index keyEnd in
  if negb (bool_decide (key ∈ keys this)) && negb (bool_decide (key ∈ flags this))
  then throw (unknown_key key)
  else ret key.

Definition no_closing (valueEnder : ascii) (value : string) : string :=
  "No closing " +:+ char_string valueEnder +:+ " found for " +:+
  char_string valueEnder +:+ value.

(** [this.parseValue()] *)
Definition parseValue (this : CommandParser) : Parser string :=
  let* c := peek this in
  let* valueEnder :=
    match c with
    | Some q =>
        if bool_decide (q ∈ [single_quote; double_quote])
        then let* _ := consume this [q] in ret q
        else ret " "%char
    | None => ret " "%char
    end in
  let* valueEnd := findNext this [valueEnder] in
  let* i := get_index in
  let value := substring (command this) i valueEnd in
  if negb (bool_decide (valueEnder = " "%char)) &&
     bool_decide (valueEnd = String.length (command this))
  then throw (no_closing valueEnder value)
  else
    let* _ := set_index valueEnd in
    let* _ := if negb (bool_decide (valueEnder = " "%char))
              then consume this [valueEnder] else ret tt in
    ret value.

Definition duplicate_key (key : string) : string := "Duplicate key: " +:+ key.

Definition flag_assigned (key : string) : string :=
  "Flag " +:+ key +:+ " cannot be assigned a value".

(** One round of the loop of [parse]. *)
Definition parse_round (this : CommandParser) (result : list (string * string))
    : Parser (list (string * string)) :=
  let* c := peek this in
  let* parsing_negative_flag :=
    if bool_decide (c = Some "!"%char)
    then let* _ := consume this ["!"%char] in ret true
    else ret false in
  let* key := parseKey this in
  if map_has key result then throw (duplicate_key key)
  else if bool_decide (key ∈ flags this) then
    let result :=
      map_set key (if parsing_negative_flag : bool then "false" else "true") result in
    let* c := peek this in
    if bool_decide (c = Some "="%char) then throw (flag_assigned key)
    else
      let* f := finished this in
      let* _ := if negb f then consume this [" "%char] else ret tt in
      ret result
  else
    let* _ := consume this ["="%char; " "%char] in
    let* value := parseValue this in
    let* f := finished this in
    let* _ := if negb f then consume this [" "%char] else ret tt in
    ret (map_set key value result).

(** [while (!this.finished()) { ... }]; [fuel] bounds the number of
    rounds. *)
Fixpoint parse_loop (this : CommandParser) (fuel : nat)
    (result : list (string * string)) : Parser (list (string * string)) :=
  let* f := finished this in
  if f : bool then ret result
  else
    match fuel with
    | O => fun _ => OutOfFuel
    | S fuel' => let* result := parse_round this result in parse_loop this fuel' result
    end.

(** [new CommandParser(command, keys, flags).parse()] *)
Definition parse (this : CommandParser) (fuel : nat)
    : Outcome (list (string * string)) :=
  match parse_loop this fuel [] 0%nat with
  | Returned (result, _) => Returned result
  | Thrown e => Thrown e
  | OutOfFuel => OutOfFuel
  end.

(** ** args.js: Args *)

(** The values of the arguments of [Args.string], [Args.boolean] and
    [Args.flag]: strings and booleans. *)
Inductive Value :=
| VString (s : string)
| VBool (b : bool).

#[global] Instance Value_eq_dec : EqDecision Value.
Proof. solve_decision. Defined.

(** [`${value}`] *)
Definition value_text (v : Value) : string :=
  match v with
  | VString s => s
  | VBool true => "true"
  | VBool false => "false"
  end.

(** An [ArgSpec], and the [Arg] that [Args.custom] makes of it:
    [{ ...spec, valueHelpName, parser }]. A property that is [None] is
    absent from the object. *)
Record ArgSpec := {
  spec_key : option string;
  spec_help : option string;
  spec_options : option (list (Value * option string));
  spec_setting : option string;
  spec_hidden : option bool;
  spec_default : option Value;
}.

Record Arg := {
  arg_spec : ArgSpec;
  valueHelpName : string;
  parser : string -> option Value;
}.

Definition invalid_default (v : Value) : string :=
  "Invalid default value " +:+ value_text v.

(** [Args.custom(spec, parser, valueHelpName)] *)
Definition Args_custom (spec : ArgSpec) (parser : string -> option Value)
    (valueHelpName : string) : Outcome Arg :=
  let arg := {| arg_spec := spec; valueHelpName := valueHelpName; parser := parser |} in
  match spec_default spec, spec_options spec with
  | Some d, Some options =>
      if negb (bool_decide (d ∈ map fst options)) then Thrown (invalid_default d)
      else Returned arg
  | _, _ => Returned arg
  end.

(** [Args.string(spec)] *)
Definition Args_string (spec : ArgSpec) : Outcome Arg :=
  Args_custom spec (fun value => Some (VString value)) "TEXT".

(** [s.toLowerCase()], as far as the comparisons with ["true"] and
    ["false"] see it: the letters A to Z change, and no other character
    becomes a letter of these two words. *)
Definition lower_char (c : ascii) : ascii :=
  let n := nat_of_ascii c in
  if (65 <=? n)%nat && (n <=? 90)%nat then ascii_of_nat (n + 32) else c.

Fixpoint toLowerCase (s : string) : string :=
  match s with
  | EmptyString => EmptyString
  | String c s' => String (lower_char c) (toLowerCase s')
  end.

(** The parser of [Args.boolean] and [Args.flag]. *)
Definition boolean_parser (value : string) : option Value :=
  if bool_decide (toLowerCase value = "true") then Some (VBool true)
  else if bool_decide (toLowerCase value = "false") then Some (VBool false)
  else None.

(** [Args.boolean(spec)] *)
Definition Args_boolean (spec : ArgSpec) : Outcome Arg :=
  Args_custom spec boolean_parser "BOOLEAN".

(** [Args.flag(spec)] *)
Definition Args_flag (spec : ArgSpec) : Outcome Arg :=
  Args_custom spec boolean_parser "FLAG".

Definition could_not_parse (source value : string) : string :=
  source +:+ " could not parse value: " +:+ value.

Definition received_invalid (source value : string) : string :=
  source +:+ " received invalid value: " +:+ value.

(** [parseAndValidate(arg, source, value)] *)
Definition parseAndValidate (arg : Arg) (source value : string) : Outcome Value :=
  match parser arg value with
  | None => Thrown (could_not_parse source value)
  | Some parsed_value =>
      match spec_options (arg_spec arg) with
      | Some options =>
          if negb (bool_decide (parsed_value ∈ map fst options))
          then Thrown (received_invalid source value)
          else Returned parsed_value
      | None => Returned parsed_value
      end
  end.

(** The object that [Args.create] returns: the specification, the script
    name and help under their symbols, and one property per argument, in
    the order of [for (const k in ...)]; [None] is [undefined]. *)
Record ArgsObject := {
  args_spec : list (string * Arg);
  args_script : string;
  args_scriptHelp : string;
  args_values : list (string * option Value);
}.

(** [res[k] = v] for a primitive value or [undefined]: an assignment to
    [__proto__] changes nothing. *)
Definition set_property (k : string) (v : option Value)
    (values : list (string * option Value)) : list (string * option Value) :=
  if bool_decide (k = "__proto__") then values else map_set k v values.

(** [arg.key ?? k] *)
Definition key_of (k : string) (arg : Arg) : string :=
  match spec_key (arg_spec arg) with Some key => key | None => k end.

(** [arg.setting ?? `${scriptName}_${arg.key ?? k}`] *)
Definition setting_of (scriptName k : string) (arg : Arg) : string :=
  match spec_setting (arg_spec arg) with
  | Some setting => setting
  | None => scriptName +:+ "_" +:+ key_of k arg
  end.

Definition help_reserved : string := "help is a reserved argument name".

(** [this.flag({ help: "Show this message and exit.", setting: "" })] *)
Definition help_flag : Arg :=
  {| arg_spec := {| spec_key := None; spec_help := Some "Show this message and exit.";
                    spec_options := None; spec_setting := Some "";
                    spec_hidden := None; spec_default := None |};
     valueHelpName := "FLAG"; parser := boolean_parser |}.

(** [{ ...args, help: this.flag(...) }] *)
Definition with_help (args : list (string * Arg)) : list (string * Arg) :=
  args ++ [("help", help_flag)].

(** The three loops of [Args.create], and the body of the third. *)
Definition check_reserved (args : list (string * Arg)) : Outcome unit :=
  for_each
    (fun (kv : string * Arg) (_ : unit) =>
       if bool_decide (kv.1 = "help") ||
          bool_decide (spec_key (arg_spec kv.2) = Some "help")
       then Thrown help_reserved else Returned tt)
    args tt.

Definition fill_defaults (argsWithHelp : list (string * Arg))
    : list (string * option Value) :=
  fold_left
    (fun res (kv : string * Arg) =>
       set_property kv.1 (spec_default (arg_spec kv.2)) res)
    argsWithHelp [].

Definition read_setting (get_setting : string -> string) (scriptName : string)
    (kv : string * Arg) (res : list (string * option Value))
    : Outcome (list (string * option Value)) :=
  let setting := setting_of scriptName kv.1 kv.2 in
  if bool_decide (setting = "") then Returned res
  else
    let value_str := get_setting setting in
    if bool_decide (value_str = "") then Returned res
    else
      match parseAndValidate kv.2 ("Setting " +:+ setting) value_str with
      | Returned v => Returned (set_property kv.1 (Some v) res)
      | Thrown e => Thrown e
      | OutOfFuel => OutOfFuel
      end.

Definition fill_settings (get_setting : string -> string) (scriptName : string)
    (argsWithHelp : list (string * Arg)) (res : list (string * option Value))
    : Outcome (list (string * option Value)) :=
  for_each (read_setting get_setting scriptName) argsWithHelp res.

(** [Args.create(scriptName, scriptHelp, args)]; [get_setting] is libram's
    [get(setting, "")]. *)
Definition Args_create (get_setting : string -> string) (scriptName scriptHelp : string)
    (args : list (string * Arg)) : Outcome ArgsObject :=
  match check_reserved args with
  | Returned _ =>
      let argsWithHelp := with_help args in
      match fill_settings get_setting scriptName argsWithHelp (fill_defaults argsWithHelp) with
      | Returned res =>
          Returned {| args_spec := argsWithHelp; args_script := scriptName;
                      args_scriptHelp := scriptHelp; args_values := res |}
      | Thrown e => Thrown e
      | OutOfFuel => OutOfFuel
      end
  | Thrown e => Thrown e
  | OutOfFuel => OutOfFuel
  end.

(** The Sets [keys] and [flags] of [Args.fill]. *)
Definition fill_keys (spec : list (string * Arg)) : gset string :=
  fold_left
    (fun keys (kv : string * Arg) =>
       if bool_decide (valueHelpName kv.2 = "FLAG") then keys
       else keys ∪ {[ key_of kv.1 kv.2 ]})
    spec ∅.

Definition fill_flags (spec : list (string * Arg)) : gset string :=
  fold_left
    (fun flags (kv : string * Arg) =>
       if bool_decide (valueHelpName kv.2 = "FLAG")
       then flags ∪ {[ key_of kv.1 kv.2 ]}
       else flags)
    spec ∅.

(** The second loop of [Args.fill], and its body. *)
Definition read_argument (parsed : list (string * string)) (kv : string * Arg)
    (res : list (string * option Value)) : Outcome (list (string * option Value)) :=
  let key := key_of kv.1 kv.2 in
  match map_get key parsed with
  | None => Returned res
  | Some value_str =>
      match parseAndValidate kv.2 ("Argument " +:+ key) value_str with
      | Returned v => Returned (set_property kv.1 (Some v) res)
      | Thrown e => Thrown e
      | OutOfFuel => OutOfFuel
      end
  end.

Definition fill_parsed (parsed : list (string * string)) (spec : list (string * Arg))
    (res : list (string * option Value)) : Outcome (list (string * option Value)) :=
  for_each (read_argument parsed) spec res.

(** [Args.fill(args, command)]: the object after the call. The parser
    gets as many rounds as the command has characters, which is all it can
    use. *)
Definition Args_fill (args : ArgsObject) (command : option string)
    : Outcome ArgsObject :=
  match command with
  | None => Returned args
  | Some command =>
      if bool_decide (command = "") then Returned args
      else
        let spec := args_spec args in
        match parse {| command := command; keys := fill_keys spec;
                       flags := fill_flags spec |} (String.length command) with
        | Returned parsed =>
            match fill_parsed parsed spec (args_values args) with
            | Returned res =>
                Returned {| args_spec := spec; args_script := args_script args;
                            args_scriptHelp := args_scriptHelp args;
                            args_values := res |}
            | Thrown e => Thrown e
            | OutOfFuel => OutOfFuel
            end
        | Thrown e => Thrown e
        | OutOfFuel => OutOfFuel
        end
  end.

(** [Args.parse(scriptName, scriptHelp, spec, command)] *)
Definition Args_parse (get_setting : string -> string) (scriptName scriptHelp : string)
    (spec : list (string * Arg)) (command : option string) : Outcome ArgsObject :=
  match Args_create get_setting scriptName scriptHelp spec with
  | Returned args => Args_fill args command
  | Thrown e => Thrown e
  | OutOfFuel => OutOfFuel
  end.

(** * Vocabulary of the statements, and example data *)

(** The task objects of the quests, in quest order then in-quest order. *)
Definition task_objects (quests : list Quest) : list Ref :=
  concat (map tasks quests).

(** The same, each with the name of its quest. *)
Definition occurrences (quests : list Quest) : list (string * Ref) :=
  concat (map (fun q => map (pair (quest_name q)) (tasks q)) quests).

Definition visit_occurrence {W} (implicitAfter : bool)
    (st : Store W * list Ref) (o : string * Ref) : Store W * list Ref :=
  visit_task implicitAfter o.1 st o.2.

(** What [getTasks] leaves in the object [o.2] of the quest [o.1] when the
    object is visited once, [prev] being the occurrence visited just before. *)
Definition namespaced_task {W} (implicitAfter : bool) (σ : Store W)
    (prev : option (string * Ref)) (o : string * Ref) : Task W :=
  set_after (set_name (σ o.2) (in_quest o.1 (name (σ o.2))))
    (match after (σ o.2) with
     | Some l => Some (map (namespace_after o.1) l)
     | None =>
         match prev with
         | Some p => if implicitAfter then Some [in_quest p.1 (name (σ p.2))] else None
         | None => None
         end
     end).

(** What [getTasks] puts in front of the name of the object [r]: a quest
    name and ["/"] for every occurrence of [r], the last one visited first. *)
Definition prefixes (occs : list (string * Ref)) (r : Ref) : string :=
  fold_left
    (fun acc (o : string * Ref) => if decide (o.2 = r) then o.1 +:+ "/" +:+ acc else acc)
    occs "".

(** The fields of a task other than [name] and [after]. *)
Definition other_fields {W} (t : Task W) :=
  (ready t, completed t, prepare t, do_ t, post t, acquire t, choices t, limit t,
   outfit t, combat t).

(** The occurrence visited just before the one at index [i]. *)
Definition previous {A} (l : list A) (i : nat) : option A :=
  match i with
  | O => None
  | S j => l !! j
  end.

(** Example data: quest [Q1] with tasks [a] and [b], quest [Q2] with task
    [c]; [b] runs after [a] and after [Q2/c]. *)
Definition plain_task (n : string) (a : option (list string)) : Task unit :=
  {| name := n; after := a; ready := None; completed := fun _ => false;
     prepare := None; do_ := inr (fun w => Returned w); post := None;
     acquire := None; choices := []; limit := None; outfit := None;
     combat := None |}.

Definition example_store : Store unit :=
  fun r =>
    match r with
    | 0%nat => plain_task "a" None
    | 1%nat => plain_task "b" (Some ["a"; "Q2/c"])
    | _ => plain_task "c" None
    end.

Definition example_quests : list Quest :=
  [ {| quest_name := "Q1"; tasks := [0; 1]%nat |};
    {| quest_name := "Q2"; tasks := [2]%nat |} ].

(** The task object [a] listed in two quests, listed twice in one quest,
    and listed before and after the task object [c]. *)
Definition shared_quests : list Quest :=
  [ {| quest_name := "Q1"; tasks := [0]%nat |};
    {| quest_name := "Q2"; tasks := [0]%nat |} ].

Definition repeated_quest : list Quest :=
  [ {| quest_name := "Q"; tasks := [0; 0]%nat |} ].

Definition revisited_quest : list Quest :=
  [ {| quest_name := "Q"; tasks := [0; 2; 0]%nat |} ].

(** Example engine: [Q1/a], then [Q1/b] after [Q1/a], then [Q2/c] after
    [Q1/b]; the world is the set of completed tasks, as booleans. *)
Definition chain_task (n : string) (a : option (list string))
    (done_ : bool * bool * bool -> bool) : Task (bool * bool * bool) :=
  {| name := n; after := a; ready := None; completed := done_;
     prepare := None; do_ := inr (fun w => Returned w); post := None;
     acquire := None; choices := []; limit := None; outfit := None;
     combat := None |}.

Definition chain_store : Store (bool * bool * bool) :=
  fun r =>
    match r with
    | 0%nat => chain_task "Q1/a" None (fun w => w.1.1)
    | 1%nat => chain_task "Q1/b" (Some ["Q1/a"]) (fun w => w.1.2)
    | _ => chain_task "Q2/c" (Some ["Q1/b"]) (fun w => w.2)
    end.

(** The count after [k] attempts. *)
Definition counted (k : nat) : option JSNumber :=
  match k with
  | O => None
  | S _ => Some (Num (Z.of_nat k))
  end.

(** A host whose steps all return at once. *)
Definition idle_host : Host unit :=
  {| acquireItems := fun _ w => Returned w;
     arm := fun _ w => Returned w;
     adv1 := fun _ w => Returned w;
     resolve_encounter := fun w => Returned w;
     lastEncounterWasWanderingNC := fun _ => false;
     turnsSpent := fun _ _ => 0 |}.

(** A task that never reports completed, with [limit: { tries: 3 }]. *)
Definition stubborn_task (n : string) : Task unit :=
  {| name := n; after := None; ready := None; completed := fun _ => false;
     prepare := None; do_ := inr (fun w => Returned w); post := None;
     acquire := None; choices := [];
     limit := Some {| tries := Some 3; turns := None; soft := None; message := None |};
     outfit := None; combat := None |}.

(** An empty heap, two monsters, and macros written as their text. *)
Definition empty_heap : Heap unit string :=
  {| arrays := fun _ => []; macro_maps := fun _ => []; action_maps := fun _ => [];
     strategies := fun _ =>
       {| starting_macro := None; default_macro := None; macros := 0%nat;
          default_action := None; actions := 0%nat |};
     next := 0%nat |}.

Definition crate : Monster := {| monster_name := "crate"; id := 1 |}.
Definition tumbleweed : Monster := {| monster_name := "tumbleweed"; id := 2 |}.

(** A strategy with the macro [attack] for the crate, the default macro
    [skill Saucestorm] and the action [banish] for the tumbleweed; then its
    clone. *)
Definition original_and_clone : Ref * Ref * Heap unit string :=
  let '(s, h) := new_CombatStrategy empty_heap in
  let h := macro s (inl "attack") (Some [crate]) false h in
  let h := macro s (inl "skill Saucestorm") None false h in
  let h := action s "banish" (Some [tumbleweed]) h in
  let '(c, h) := clone s h in
  (s, c, h).

Definition the_original : Ref := original_and_clone.1.1.
Definition the_clone : Ref := original_and_clone.1.2.
Definition cloned_heap : Heap unit string := original_and_clone.2.

(** A [CompressedMacro] filled by a sequence of [add(monster, macro)]. *)
Definition compress {Macro} (lib : MacroLib Macro) (adds : list (Monster * Macro))
    : CompressedMacro :=
  fold_left (fun c (a : Monster * Macro) => compressed_add lib a.1 a.2 c) adds [].

(** The monsters added with the macro text [text], in the order added. *)
Definition group {Macro} (lib : MacroLib Macro) (adds : list (Monster * Macro))
    (text : string) : list Monster :=
  map fst (filter (fun a => toString lib a.2 = text) adds).

(** The targets of the block of monster macros, each with the macro that
    would run for it. *)
Definition macro_targets {W Macro} (lib : MacroLib Macro) (h : Heap W Macro)
    (this : Ref) (w : W) : list (Monster * Macro) :=
  map (fun entry : Monster * Ref => (entry.1, entry_macro lib h w entry.2))
      (macro_maps h (macros (strategies h this))).

(** The targets of the block of monster actions whose action resolves to a
    macro, each with that macro. *)
Definition action_targets {W Macro} (lib : MacroLib Macro) (h : Heap W Macro)
    (this : Ref) (resources : list (string * ResourceDo Macro))
    (defaults : option (string -> option (Target -> Macro)))
    : list (Monster * Macro) :=
  omap (fun entry : Monster * string =>
          (fun m => (entry.1, step lib (new_Macro lib) [m])) <$>
          resolve_action lib resources defaults entry.2 (TargetMonster entry.1))
       (action_maps h (actions (strategies h this))).

(** A small macro library for the examples, in the manner of libram's: a
    macro is its list of non-empty steps, printed with [;] between them. *)
Definition nonempty_steps (l : list string) : list string :=
  filter (fun s => s ≠ "") l.

Definition text_lib : MacroLib (list string) :=
  {| new_Macro := [];
     step := fun m ms => m ++ nonempty_steps (concat ms);
     if_ := fun m guard body => m ++ nonempty_steps ["if " +:+ guard; body; "endif"];
     toString := join ";";
     item_macro := fun i => ["use " +:+ i];
     skill_macro := fun s => ["skill " +:+ s] |}.

Definition bat : Monster := {| monster_name := "bat"; id := 3 |}.

(** Three monsters with the same macro, and one with another. *)
Definition four_targets : Ref * Heap unit (list string) :=
  let h := {| arrays := fun _ => []; macro_maps := fun _ => [];
              action_maps := fun _ => [];
              strategies := fun _ =>
                {| starting_macro := None; default_macro := None; macros := 0%nat;
                   default_action := None; actions := 0%nat |};
              next := 0%nat |} in
  let '(s, h) := new_CombatStrategy h in
  let h := macro s (inl ["attack"]) (Some [crate; tumbleweed]) false h in
  let h := macro s (inl ["skill Saucestorm"])
             (Some [{| monster_name := "ghost"; id := 4 |}]) false h in
  let h := macro s (inl ["attack"]) (Some [bat]) false h in
  (s, h).

(** From left to right the keys never go down. *)
Definition ascending {A} (key : A → Z) (l : list A) : Prop :=
  ∀ i j x y, (i < j)%nat → l !! i = Some x → l !! j = Some y → key x ≤ key y.

(** [pr] holds the registered task of every name, whatever the priorities. *)
Definition tracks {W} (σ : Store W) (tasks : list Ref) (pr : gmap string (Z * Ref))
    : Prop :=
  ∀ n, snd <$> pr !! n = registered σ tasks n.

(** From [pr] to [pr'] no priority goes up and no task changes. *)
Definition lowers (pr pr' : gmap string (Z * Ref)) : Prop :=
  ∀ n, match pr !! n with
       | Some (q, r) => ∃ q', pr' !! n = Some (q', r) ∧ q' ≤ q
       | None => pr' !! n = None
       end.

(** Outside the names in [S], every task whose priority was lowered has
    all its registered requirements at least 0.01 below it. *)
Definition settled {W} (σ : Store W) (S : string → Prop)
    (pr : gmap string (Z * Ref)) : Prop :=
  ∀ n pn r m pm rm,
    pr !! n = Some (pn, r) → ¬ S n → pn < sentinel →
    m ∈ after_list (σ r) → pr !! m = Some (pm, rm) → pm ≤ pn - 1.

(** Every [after] entry of a registered task is a registered name. *)
Definition dependencies_known {W} (σ : Store W) (tasks : list Ref) : Prop :=
  ∀ n r m, registered σ tasks n = Some r → m ∈ after_list (σ r) →
           is_Some (registered σ tasks m).

(** Example: [Q1/a], [Q1/b] after [Q1/a], [Q2/c] after [Q1/a]. *)
Definition route_store : Store unit :=
  fun r =>
    match r with
    | 0%nat => plain_task "Q1/a" None
    | 1%nat => plain_task "Q1/b" (Some ["Q1/a"])
    | _ => plain_task "Q2/c" (Some ["Q1/a"])
    end.

Definition route_rank (n : string) : nat :=
  if String.eqb n "Q1/a" then 0%nat else 1%nat.

(** A task that depends on itself: the recursion never ends, whatever the
    depth allowed. *)
Definition loop_store : Store unit :=
  fun _ => plain_task "Q/a" (Some ["Q/a"]).

(** The name and the [after] entries of [t] contain a slash. *)
Definition namespaced {W} (t : Task W) : Prop :=
  includes_slash (name t) = true ∧
  ∀ a, a ∈ after_list t → includes_slash a = true.

(** The Maps of the strategy [this] hold each monster once, the arrays in
    [this.macros] are objects of their own, already allocated, and none of them
    is the array of default macros. *)
Definition strategy_ok {W Macro} (h : Heap W Macro) (this : Ref) : Prop :=
  let s := strategies h this in
  let mm := macro_maps h (macros s) in
  NoDup (map fst mm) ∧ NoDup (map snd mm) ∧
  (∀ r, r ∈ map snd mm → (r < next h)%nat) ∧
  (∀ d, default_macro s = Some d → (d < next h)%nat ∧ d ∉ map snd mm) ∧
  NoDup (map fst (action_maps h (actions s))).

(** The macros of [monster], none when there is no entry. *)
Definition macros_list {W Macro} (h : Heap W Macro) (this : Ref) (monster : Monster)
    : list (DelayedMacro W Macro) :=
  default [] (macros_of h this monster).

(** How often [monster] is listed. *)
Definition times (monster : Monster) (monsters : list Monster) : nat :=
  length (filter (fun m => m = monster) monsters).

(** The macro that [getMacro] makes of a resource. *)
Definition resource_macro {Macro} (lib : MacroLib Macro) (r : ResourceDo Macro) : Macro :=
  match r with
  | DoItem i => item_macro lib i
  | DoSkill s => skill_macro lib s
  | DoMacro m => m
  end.

(** [n] copies of [macro] put before or behind [l]. *)
Definition add_macros {A} (macro : A) (prepend : bool) (n : nat) (l : list A) : list A :=
  if prepend then replicate n macro ++ l else l ++ replicate n macro.

(** A call of one of the methods that change a strategy. *)
Inductive Call (W Macro : Type) :=
| CallMacro (x : DelayedMacro W Macro) (monsters : option (list Monster)) (prepend : bool)
| CallAction (a : string) (monsters : option (list Monster))
| CallStartingMacro (x : DelayedMacro W Macro).
Arguments CallMacro {W Macro} x monsters prepend.
Arguments CallAction {W Macro} a monsters.
Arguments CallStartingMacro {W Macro} x.

Definition call {W Macro} (this : Ref) (c : Call W Macro) (h : Heap W Macro)
    : Heap W Macro :=
  match c with
  | CallMacro x monsters prepend => macro this x monsters prepend h
  | CallAction a monsters => action this a monsters h
  | CallStartingMacro x => startingMacro this x h
  end.

(** The arrays of macros that the strategy [this] holds. *)
Definition arrays_of {W Macro} (h : Heap W Macro) (this : Ref) : list Ref :=
  map snd (macro_maps h (macros (strategies h this))) ++
  match default_macro (strategies h this) with Some d => [d] | None => [] end.

(** Two strategies that share no object. *)
Definition separate {W Macro} (h : Heap W Macro) (s1 s2 : Ref) : Prop :=
  s1 ≠ s2 ∧
  macros (strategies h s1) ≠ macros (strategies h s2) ∧
  actions (strategies h s1) ≠ actions (strategies h s2) ∧
  ∀ r, r ∈ arrays_of h s1 → r ∉ arrays_of h s2.

(** The strategy and its Maps are objects in use. *)
Definition allocated {W Macro} (h : Heap W Macro) (this : Ref) : Prop :=
  (this < next h)%nat ∧ (macros (strategies h this) < next h)%nat ∧
  (actions (strategies h this) < next h)%nat.

(** All that the strategy [this] holds, the arrays and Maps by their
    contents. *)
Definition contents {W Macro} (h : Heap W Macro) (this : Ref) :=
  let s := strategies h this in
  (starting_macro s, arrays h <$> default_macro s,
   map (fun e : Monster * Ref => (e.1, arrays h e.2)) (macro_maps h (macros s)),
   default_action s, action_maps h (actions s)).

(** What a call on the strategy [this] may change from [h] to [h']: the
    strategy, its two Maps, its arrays, and objects not yet in use. *)
Definition touches_only {W Macro} (h h' : Heap W Macro) (this : Ref) : Prop :=
  (next h ≤ next h')%nat ∧
  (∀ s, s ≠ this → strategies h' s = strategies h s) ∧
  macros (strategies h' this) = macros (strategies h this) ∧
  actions (strategies h' this) = actions (strategies h this) ∧
  (∀ mr, mr ≠ macros (strategies h this) → macro_maps h' mr = macro_maps h mr) ∧
  (∀ ar, ar ≠ actions (strategies h this) → action_maps h' ar = action_maps h ar) ∧
  (∀ r, (r < next h)%nat → r ∉ arrays_of h this → arrays h' r = arrays h r) ∧
  (∀ r, r ∈ arrays_of h' this → r ∈ arrays_of h this ∨ (next h ≤ r)%nat).

(** The entries [l] with their arrays replaced by the objects made from
    [n] on. *)
Definition copied (n : Ref) (l : list (Monster * Ref)) : list (Monster * Ref) :=
  imap (fun i (e : Monster * Ref) => (e.1, (n + i)%nat)) l.

(** The entry is lacking in [w] and not declared useless: [acquireItems]
    tries to get it. *)
Definition wanted {W} (inv : Inventory W) (to_get : AcquireItem W) (w : W) : Prop :=
  num_have inv to_get w < num_needed to_get ∧
  ∀ f, useful _ to_get = Some f → f w = true.

#[global] Instance wanted_dec {W} (inv : Inventory W) (to_get : AcquireItem W) (w : W) :
  Decision (wanted inv to_get w).
Proof.
  unfold wanted. destruct (useful _ to_get) as [f|].
  - destruct (decide (num_have inv to_get w < num_needed to_get ∧ f w = true))
      as [[H1 H2]|Hn]; [left|right].
    + split; [done|]. by intros f' [= <-].
    + intros [H1 H2]. apply Hn. split; [done|]. by apply H2.
  - destruct (decide (num_have inv to_get w < num_needed to_get)) as [H1|Hn];
      [left|right].
    + by split.
    + by intros [H1 _].
Defined.

(** The number of the call of [execute] at which a limit on the attempts
    stops a task that never completes, and the message: a bound [n] that is
    not 0 is reached at call [max(1, n)], and [tries] goes before [soft]. *)
Definition reached_at (bound : option Z) : option Z :=
  match bound with
  | Some n => if n =? 0 then None else Some (Z.max 1 n)
  | None => None
  end.

Definition first_limit (task : string) (l : Limit) : option (Z * string) :=
  let by_tries := (fun n => tries_exceeded task n l) <$> tries l in
  let by_soft := (fun n => soft_exceeded task n l) <$> soft l in
  match reached_at (tries l), reached_at (soft l) with
  | Some kt, Some ks =>
      if kt <=? ks then pair kt <$> by_tries else pair ks <$> by_soft
  | Some kt, None => pair kt <$> by_tries
  | None, Some ks => pair ks <$> by_soft
  | None, None => None
  end.

(** What a method does from index [i]: [Q] holds of the value returned and
    the new index, or [E] of the message thrown. *)
Definition yields {A} (m : Parser A) (i : nat) (Q : A → nat → Prop) (E : string → Prop)
    : Prop :=
  match m i with
  | Returned (a, j) => Q a j
  | Thrown e => E e
  | OutOfFuel => False
  end.

(** [j] is the first index from [i] on that holds one of the characters
    [cs], or the length of [s] if there is none. *)
Definition first_at (s : string) (cs : list ascii) (i j : nat) : Prop :=
  (i ≤ j ≤ String.length s)%nat ∧
  (∀ k c, (i ≤ k < j)%nat → charAt s k = Some c → c ∉ cs) ∧
  ((j < String.length s)%nat → ∃ c, charAt s j = Some c ∧ c ∈ cs).

(** The messages that [parse] can throw. *)
Definition parse_error (this : CommandParser) (e : string) : Prop :=
  e = "Expected =, " ∨
  (∃ key, e = "Unknown key: " +:+ key ∧ (key ∉ keys this) ∧ (key ∉ flags this)) ∨
  (∃ key, e = "Duplicate key: " +:+ key ∧ (key ∈ keys this ∨ key ∈ flags this)) ∨
  (∃ key, e = "Flag " +:+ key +:+ " cannot be assigned a value" ∧ key ∈ flags this) ∨
  (∃ q value, q ∈ [single_quote; double_quote] ∧
              e = "No closing " +:+ char_string q +:+ " found for " +:+
                  char_string q +:+ value).

(** An entry that [parse] may add to its result. *)
Definition parsed_entry (this : CommandParser) (k v : string) : Prop :=
  (k ∈ flags this ∧ (v = "true" ∨ v = "false")) ∨ (k ∈ keys this ∧ (k ∉ flags this)).

(** The words of a well-formed command line: a flag or its negation, a key
    with a plain value, a key with a quoted value. *)
Inductive Word :=
| WFlag (key : string) (negated : bool)
| WPlain (key : string) (sep : ascii) (value : string)
| WQuoted (key : string) (sep : ascii) (quote : ascii) (value : string).

Definition render (word : Word) : string :=
  match word with
  | WFlag key negated => (if negated then "!" else "") +:+ key
  | WPlain key sep value => key +:+ char_string sep +:+ value
  | WQuoted key sep quote value =>
      key +:+ char_string sep +:+ char_string quote +:+ value +:+ char_string quote
  end.

(** The entry that the word stands for. *)
Definition entry (word : Word) : string * string :=
  match word with
  | WFlag key negated => (key, if negated then "false" else "true")
  | WPlain key _ value => (key, value)
  | WQuoted key _ _ value => (key, value)
  end.

(** What is left of the command behind a word: nothing, or a space and
    more; [gap] is the length of the space. *)
Definition follows (rest : list ascii) : Prop :=
  rest = [] ∨ ∃ rest', rest = " "%char :: rest'.

Definition gap (rest : list ascii) : nat :=
  match rest with [] => 0 | _ => 1 end.

(** The character [c] does not occur in [s]. *)
Definition free_of (c : ascii) (s : string) : Prop := c ∉ list_ascii_of_string s.

Definition well_formed (this : CommandParser) (word : Word) : Prop :=
  let key := (entry word).1 in
  free_of "="%char key ∧ free_of " "%char key ∧
  match word with
  | WFlag key negated =>
      key ∈ flags this ∧ key ≠ "" ∧ (negated = false → charAt key 0 ≠ Some "!"%char)
  | WPlain key sep value =>
      key ∈ keys this ∧ (key ∉ flags this) ∧ charAt key 0 ≠ Some "!"%char ∧
      sep ∈ ["="%char; " "%char] ∧ free_of " "%char value ∧
      (∀ q, charAt value 0 = Some q → q ∉ [single_quote; double_quote])
  | WQuoted key sep quote value =>
      key ∈ keys this ∧ (key ∉ flags this) ∧ charAt key 0 ≠ Some "!"%char ∧
      sep ∈ ["="%char; " "%char] ∧ quote ∈ [single_quote; double_quote] ∧
      free_of quote value
  end.

(** ** Args *)

(** A reserved entry of the argument object. *)
Definition reserved (kv : string * Arg) : Prop :=
  kv.1 = "help" ∨ spec_key (arg_spec kv.2) = Some "help".

(** The text that the settings hold for an argument, if any. *)
Definition from_setting (get_setting : string -> string) (scriptName k : string)
    (arg : Arg) : option string :=
  let setting := setting_of scriptName k arg in
  if bool_decide (setting = "") then None
  else if bool_decide (get_setting setting = "") then None
  else Some (get_setting setting).

(** What the command line holds: the Map of [CommandParser.parse], and
    nothing when there is no command or an empty one. *)
Definition command_line (spec : list (string * Arg)) (command : option string)
    : Outcome (list (string * string)) :=
  match command with
  | None => Returned []
  | Some command =>
      if bool_decide (command = "") then Returned []
      else parse {| command := command; keys := fill_keys spec;
                    flags := fill_flags spec |} (String.length command)
  end.

(** The argument reads [v] from the text, and [v] is one of its options
    if it has options. *)
Definition accepts (arg : Arg) (text : string) (v : Value) : Prop :=
  parser arg text = Some v ∧
  ∀ options, spec_options (arg_spec arg) = Some options → v ∈ map fst options.

(** The message with which the argument rejects the text. *)
Definition rejects (arg : Arg) (source text e : string) : Prop :=
  (parser arg text = None ∧ e = could_not_parse source text) ∨
  (∃ v options, parser arg text = Some v ∧
                spec_options (arg_spec arg) = Some options ∧
                (v ∉ map fst options) ∧ e = received_invalid source text).

(** Example: a text argument with options and a default, and a flag. *)
Definition mode_arg : Arg :=
  {| arg_spec := {| spec_key := None; spec_help := Some "How to run.";
                    spec_options := Some [(VString "fast", None);
                                          (VString "slow", Some "the default")];
                    spec_setting := None; spec_hidden := None;
                    spec_default := Some (VString "slow") |};
     valueHelpName := "TEXT"; parser := fun value => Some (VString value) |}.

Definition sim_arg : Arg :=
  {| arg_spec := {| spec_key := Some "simulate"; spec_help := None;
                    spec_options := None; spec_setting := Some "";
                    spec_hidden := None; spec_default := None |};
     valueHelpName := "FLAG"; parser := boolean_parser |}.

Definition example_args : list (string * Arg) :=
  [("mode", mode_arg); ("sim", sim_arg)].

Definition example_settings (setting : string) : string :=
  if bool_decide (setting = "script_mode") then "fast" else "".

(** ** The compression of a block, in the words of the specification *)

(** The elements of [l], each at its first occurrence. *)
Fixpoint distinct (l : list string) : list string :=
  match l with
  | [] => []
  | x :: rest => x :: filter (fun y => y ≠ x) (distinct rest)
  end.

(** The distinct non-empty macro texts of the targets. *)
Definition block_texts {Macro} (lib : MacroLib Macro) (targets : list (Monster * Macro))
    : list string :=
  distinct (filter (fun text => text ≠ "") (map (fun a => toString lib a.2) targets)).

(** The identity match of a target. *)
Definition identity_match (mon : Monster) : string :=
  "monsterid " +:+ pretty (id mon).

(** The clause of a macro text: its guard is the disjunction of the identity
    matches of all targets whose macro has this text. *)
Definition clause_of {Macro} (lib : MacroLib Macro) (targets : list (Monster * Macro))
    (text : string) : string * string :=
  (join " || "
     (map (fun a => identity_match a.1)
          (filter (fun a => toString lib a.2 = text) targets)),
   text).

(** One conditional clause per distinct non-empty macro text. *)
Definition block_clauses {Macro} (lib : MacroLib Macro) (targets : list (Monster * Macro))
    : list (string * string) :=
  map (clause_of lib targets) (block_texts lib targets).

(** The macro made of the clauses, in order. *)
Definition emit {Macro} (lib : MacroLib Macro) (cl : list (string * string)) : Macro :=
  fold_left (fun result (clause : string * string) => if_ lib result clause.1 clause.2)
    cl (new_Macro lib).

(** The compile order of the specification, (a) to (e), around the two
    blocks (b) and (c). *)
Definition compile_order {W Macro} (lib : MacroLib Macro) (h : Heap W Macro) (this : Ref)
    (resources : list (string * ResourceDo Macro))
    (defaults : option (string -> option (Target -> Macro)))
    (location : option Location) (w : W) (block_b block_c : Macro) : Macro :=
  let s := strategies h this in
  let a := match starting_macro s with
           | Some m => step lib (new_Macro lib) [undelay w m]
           | None => new_Macro lib
           end in
  let c := step lib (step lib a [block_b]) [block_c] in
  let d := match default_macro s with
           | Some fragments => step lib c (map (undelay w) (arrays h fragments))
           | None => c
           end in
  match default_action s with
  | Some action =>
      if bool_decide (action = "") then d
      else
        match resolve_action lib resources defaults action
                (match location with
                 | Some l => TargetLocation l
                 | None => TargetUndefined
                 end) with
        | Some m => step lib d [m]
        | None => d
        end
  | None => d
  end.

(** Example: [attack] for three monsters, [skill Saucestorm] for a fourth,
    an empty macro for a fifth, the action [banish] for the crate and the
    tumbleweed, and an action without a macro for the bat. *)
Definition grouped_strategy : Ref * Heap unit (list string) :=
  let '(s, h) := four_targets in
  let h := macro s (inl []) (Some [{| monster_name := "rat"; id := 5 |}]) false h in
  let h := action s "banish" (Some [crate; tumbleweed]) h in
  let h := action s "ignore" (Some [bat]) h in
  (s, h).

(** * Properties *)

(** ** getTasks *)

Lemma occurrences_objects quests : map snd (occurrences quests) = task_objects quests.
Proof.
  unfold occurrences, task_objects.
  induction quests as [|q quests IH]; simpl; [done|].
  rewrite map_app, IH. f_equal.
  induction (tasks q) as [|r rs IHr]; simpl; [done|]. by rewrite IHr.
Qed.

Lemma visit_quest_flat {W} flag (q : Quest) (st : Store W * list Ref) :
  visit_quest flag st q =
  fold_left (visit_occurrence flag) (map (pair (quest_name q)) (tasks q)) st.
Proof.
  unfold visit_quest. revert st.
  induction (tasks q) as [|r rs IH]; intros st; simpl; [done|]. by rewrite IH.
Qed.

Lemma namespace_all_flat {W} quests flag (σ : Store W) :
  namespace_all quests flag σ =
  fold_left (visit_occurrence flag) (occurrences quests) (σ, []).
Proof.
  unfold namespace_all, occurrences. generalize (σ, @nil Ref) as st.
  induction quests as [|q quests IH]; intros st; simpl; [done|].
  rewrite fold_left_app, IH. by rewrite visit_quest_flat.
Qed.

Lemma visit_result {W} flag occs (st : Store W * list Ref) :
  (fold_left (visit_occurrence flag) occs st).2 = st.2 ++ map snd occs.
Proof.
  revert st. induction occs as [|o occs IH]; intros [σ acc]; simpl.
  - by rewrite app_nil_r.
  - rewrite IH. unfold visit_occurrence, visit_task. simpl.
    by rewrite <- app_assoc.
Qed.

Lemma namespace_all_result {W} quests flag (σ : Store W) :
  (namespace_all quests flag σ).2 = task_objects quests.
Proof.
  rewrite namespace_all_flat, visit_result. simpl. apply occurrences_objects.
Qed.

Lemma store_set_eq {W} (σ : Store W) r t : store_set σ r t r = t.
Proof. unfold store_set. by rewrite decide_True. Qed.

Lemma store_set_ne {W} (σ : Store W) r r' t : r' ≠ r → store_set σ r t r' = σ r'.
Proof. intros. unfold store_set. by rewrite decide_False. Qed.

(** One visit changes no object but the visited one. *)
Lemma visit_task_other {W} flag q (σ : Store W) acc r r' :
  r' ≠ r → (visit_task flag q (σ, acc) r).1 r' = σ r'.
Proof.
  intros Hne. unfold visit_task. cbn.
  destruct (last acc) as [prev|]; cbn.
  - destruct (flag && _); cbn; by rewrite ?store_set_ne.
  - by rewrite ?store_set_ne.
Qed.

Lemma visit_other {W} flag occs (st : Store W * list Ref) r' :
  r' ∉ map snd occs → (fold_left (visit_occurrence flag) occs st).1 r' = st.1 r'.
Proof.
  revert st. induction occs as [|[q r] occs IH]; intros [σ acc] Hnot; simpl; [done|].
  simpl in Hnot. apply not_elem_of_cons in Hnot as [Hne Hnot].
  rewrite IH by done.
  unfold visit_occurrence. simpl. by apply visit_task_other.
Qed.

(** One visit of an object, when the object visited just before is another
    one whose name is known. *)
Lemma visit_task_self {W} flag q (σ : Store W) acc r :
  (∀ p, last acc = Some p → p ≠ r) →
  (visit_task flag q (σ, acc) r).1 r =
  set_after (set_name (σ r) (in_quest q (name (σ r))))
    (match after (σ r) with
     | Some l => Some (map (namespace_after q) l)
     | None =>
         match last acc with
         | Some p => if flag then Some [name (σ p)] else None
         | None => None
         end
     end).
Proof.
  intros Hprev. unfold visit_task. cbn.
  destruct (last acc) as [p|] eqn:Hlast; cbn.
  - rewrite ?store_set_eq. cbn.
    destruct (after (σ r)) as [l|] eqn:Hafter; cbn.
    + rewrite andb_false_r. by rewrite store_set_eq.
    + destruct flag; cbn.
      * rewrite store_set_eq. rewrite !store_set_ne by (by apply Hprev).
        reflexivity.
      * by rewrite store_set_eq.
  - rewrite ?store_set_eq. cbn.
    by destruct (after (σ r)).
Qed.

Lemma previous_app_l {A} (l k : list A) i :
  (i < length l)%nat → previous (l ++ k) i = previous l i.
Proof.
  destruct i as [|j]; simpl; [done|]. intros. apply lookup_app_l. lia.
Qed.

Lemma previous_length {A} (l k : list A) : previous (l ++ k) (length l) = last l.
Proof.
  destruct l as [|x l] using rev_ind; simpl; [done|].
  rewrite length_app, last_snoc. simpl.
  replace (length l + 1)%nat with (S (length l)) by lia. simpl.
  rewrite <- app_assoc. simpl. by apply list_lookup_middle.
Qed.

Lemma visit_snoc {W} flag occs q r (st : Store W * list Ref) :
  fold_left (visit_occurrence flag) (occs ++ [(q, r)]) st =
  visit_task flag q (fold_left (visit_occurrence flag) occs st) r.
Proof. by rewrite fold_left_app. Qed.

(** When no task object occurs twice, each one ends as [namespaced_task]
    says. *)
Lemma visit_all {W} flag (σ : Store W) occs :
  NoDup (map snd occs) →
  ∀ i o, occs !! i = Some o →
    (fold_left (visit_occurrence flag) occs (σ, [])).1 o.2 =
    namespaced_task flag σ (previous occs i) o.
Proof.
  induction occs as [|[q r] occs IH] using rev_ind; intros Hnd i o Hi; [done|].
  rewrite map_app in Hnd. simpl in Hnd.
  apply NoDup_app in Hnd as (Hnd & Hr & _).
  assert (r ∉ map snd occs) as Hfresh.
  { intros Hin. apply (Hr _ Hin). by left. }
  rewrite visit_snoc.
  pose proof (visit_result flag occs (σ, [])) as Hres.
  pose proof (visit_other flag occs (σ, []) r Hfresh) as Hframe.
  destruct (fold_left (visit_occurrence flag) occs (σ, [])) as [σ0 res0] eqn:Hfold.
  cbn [fst snd app] in *. subst res0.
  destruct (decide (i < length occs)%nat) as [Hlt|Hge].
  - rewrite lookup_app_l in Hi by done.
    rewrite previous_app_l by done.
    assert (o.2 ≠ r) as Hne.
    { intros Heq. apply Hfresh. rewrite <- Heq. apply list_elem_of_fmap.
      exists o. split; [done|]. by eapply list_elem_of_lookup_2. }
    rewrite visit_task_other by done. by apply IH.
  - assert (i = length occs) as ->.
    { apply lookup_lt_Some in Hi. rewrite length_app in Hi. simpl in Hi. lia. }
    rewrite (list_lookup_middle occs [] (q, r)) in Hi by done.
    injection Hi as <-. cbn [fst snd].
    rewrite previous_length.
    rewrite visit_task_self.
    2:{ intros p Hp ->. apply Hfresh. rewrite last_lookup in Hp.
        by eapply list_elem_of_lookup_2. }
    rewrite Hframe. unfold namespaced_task. simpl. f_equal.
    destruct (after (σ r)); [done|].
    rewrite fmap_last.
    destruct (last occs) as [[q' p]|] eqn:Hlast; simpl; [|done].
    destruct flag; [|done].
    rewrite last_lookup in Hlast.
    specialize (IH Hnd _ _ Hlast). simpl in IH. rewrite IH. done.
Qed.

Lemma occurrence_of_task quests (q : Quest) r :
  q ∈ quests → r ∈ tasks q → ∃ i, occurrences quests !! i = Some (quest_name q, r).
Proof.
  intros Hq Hr. apply list_elem_of_lookup_1. unfold occurrences.
  apply list_elem_of_In, in_concat. exists (map (pair (quest_name q)) (tasks q)).
  split; apply list_elem_of_In.
  - apply list_elem_of_fmap. by exists q.
  - apply list_elem_of_fmap. by exists r.
Qed.

Lemma occurrence_object quests i (o : string * Ref) :
  occurrences quests !! i = Some o → task_objects quests !! i = Some o.2.
Proof.
  intros Hi. rewrite <- occurrences_objects.
  change (map snd (occurrences quests)) with (snd <$> occurrences quests).
  by rewrite list_lookup_fmap, Hi.
Qed.

Lemma object_occurrence quests i r :
  task_objects quests !! i = Some r → ∃ q, occurrences quests !! i = Some (q, r).
Proof.
  rewrite <- occurrences_objects.
  change (map snd (occurrences quests)) with (snd <$> occurrences quests).
  rewrite list_lookup_fmap. destruct (occurrences quests !! i) as [[q r']|]; [|done].
  simpl. intros [= ->]. by exists q.
Qed.

Lemma getTasks_store {W} quests flag (σ : Store W) :
  (getTasks quests flag σ).1 = (namespace_all quests flag σ).1.
Proof.
  unfold getTasks. destruct (namespace_all quests flag σ) as [σ' result].
  by destruct (check_tasks σ' (collect_names σ' result) result).
Qed.

Lemma getTasks_outcome {W} quests flag (σ : Store W) :
  (getTasks quests flag σ).2 =
  let σ' := (getTasks quests flag σ).1 in
  match check_tasks σ' (collect_names σ' (task_objects quests)) (task_objects quests) with
  | Some e => Thrown e
  | None => Returned (task_objects quests)
  end.
Proof.
  rewrite getTasks_store. pose proof (namespace_all_result quests flag σ) as Hres.
  unfold getTasks. destruct (namespace_all quests flag σ) as [σ' result].
  simpl in *. subst result.
  by destruct (check_tasks σ' (collect_names σ' (task_objects quests)) (task_objects quests)).
Qed.

(** The task objects end as [namespaced_task] says when none occurs twice. *)
Lemma getTasks_objects {W} quests flag (σ : Store W) :
  NoDup (task_objects quests) →
  ∀ i o, occurrences quests !! i = Some o →
    (getTasks quests flag σ).1 o.2 =
    namespaced_task flag σ (previous (occurrences quests) i) o.
Proof.
  intros Hnd i o Hi. rewrite getTasks_store, namespace_all_flat.
  apply visit_all; [|done]. by rewrite occurrences_objects.
Qed.

Lemma collect_names_spec {W} (σ : Store W) result a :
  a ∈ collect_names σ result ↔ ∃ r, r ∈ result ∧ name (σ r) = a.
Proof.
  unfold collect_names.
  assert (∀ acc : gset string,
    a ∈ fold_left (fun names r => names ∪ {[ name (σ r) ]}) result acc ↔
    a ∈ acc ∨ ∃ r, r ∈ result ∧ name (σ r) = a) as Hgen.
  { induction result as [|r result IH]; intros acc; simpl.
    - split; [by left|]. intros [?|(r & Hr & _)]; [done|]. by apply elem_of_nil in Hr.
    - rewrite IH, elem_of_union, elem_of_singleton. split.
      + intros [[?| ->]|(r' & Hr' & Hn)]; [by left| |].
        * right. exists r. split; [left|done].
        * right. exists r'. split; [by right|done].
      + intros [?|(r' & Hr' & Hn)]; [by left; left|].
        apply elem_of_cons in Hr' as [-> |Hr']; [by left; right|].
        right. by exists r'. }
  rewrite Hgen. split; [|by right]. intros [Hin|?]; [|done].
  by apply not_elem_of_empty in Hin.
Qed.

Lemma check_after_None names task afters :
  check_after names task afters = None ↔ ∀ a, a ∈ afters → a ∈ names.
Proof.
  induction afters as [|a afters IH]; simpl.
  - split; [|done]. intros _ a Ha. by apply elem_of_nil in Ha.
  - case_bool_decide as Ha.
    + rewrite IH. split.
      * intros H b Hb. apply elem_of_cons in Hb as [-> |Hb]; [done|]. by apply H.
      * intros H b Hb. apply H. by right.
    + split; [done|]. intros H. exfalso. apply Ha, H. by left.
Qed.

Lemma check_after_Some names task afters e :
  check_after names task afters = Some e →
  ∃ a, a ∈ afters ∧ (a ∉ names) ∧ e = unknown_dependency a task.
Proof.
  induction afters as [|a afters IH]; simpl; [done|].
  case_bool_decide as Ha.
  - intros H. apply IH in H as (b & Hb & ?). exists b. split; [by right|done].
  - intros [= <-]. exists a. split; [by left|done].
Qed.

Lemma check_tasks_None {W} (σ : Store W) names result :
  check_tasks σ names result = None ↔
  ∀ r a, r ∈ result → a ∈ after_list (σ r) → a ∈ names.
Proof.
  induction result as [|r result IH]; simpl.
  - split; [|done]. intros _ r a Hr. by apply elem_of_nil in Hr.
  - destruct (check_after names (name (σ r)) (after_list (σ r))) as [e|] eqn:Hc.
    + split; [done|]. intros H. apply check_after_Some in Hc as (a & Ha & Hn & _).
      exfalso. apply Hn. apply (H r a); [by left|done].
    + rewrite IH. rewrite check_after_None in Hc. split.
      * intros H r' a Hr' Ha. apply elem_of_cons in Hr' as [-> |Hr']; [by apply Hc|].
        by apply (H r' a).
      * intros H r' a Hr' Ha. apply (H r' a); [by right|done].
Qed.

Lemma check_tasks_Some {W} (σ : Store W) names result e :
  check_tasks σ names result = Some e →
  ∃ r a, r ∈ result ∧ a ∈ after_list (σ r) ∧ (a ∉ names) ∧
         e = unknown_dependency a (name (σ r)).
Proof.
  induction result as [|r result IH]; simpl; [done|].
  destruct (check_after names (name (σ r)) (after_list (σ r))) as [e'|] eqn:Hc.
  - intros [= <-]. apply check_after_Some in Hc as (a & Ha & Hn & ->).
    exists r, a. split; [by left|done].
  - intros H. apply IH in H as (r' & a & Hr' & H). exists r', a.
    split; [by right|done].
Qed.

(** C4. For quests in which no task object is listed twice, [getTasks]
    either returns the task objects of the quests, in quest order then in-quest
    order, or throws; in the store it leaves, the name of every task is
    [<quest-name>/<task-name>], every entry of an explicit [after] is
    prefixed by [<quest-name>/] unless it contains ["/"], in which case it is
    kept, and without [implicitAfter] an absent [after] stays absent. *)
Theorem getTasks_namespaces {W} (quests : list Quest) (implicitAfter : bool)
    (σ : Store W) :
  NoDup (task_objects quests) →
  ((getTasks quests implicitAfter σ).2 = Returned (task_objects quests) ∨
   ∃ e, (getTasks quests implicitAfter σ).2 = Thrown e) ∧
  (∀ q r, q ∈ quests → r ∈ tasks q →
     let t := (getTasks quests implicitAfter σ).1 r in
     name t = quest_name q +:+ "/" +:+ name (σ r) ∧
     (∀ l, after (σ r) = Some l →
        after t =
        Some (map (fun a => if includes_slash a then a
                            else quest_name q +:+ "/" +:+ a) l)) ∧
     (implicitAfter = false → after (σ r) = None → after t = None)) ∧
  map (fun r => name ((getTasks quests implicitAfter σ).1 r)) (task_objects quests) =
  map (fun o => o.1 +:+ "/" +:+ name (σ o.2)) (occurrences quests).
Proof.
  intros Hnd. split; [|split].
  - rewrite getTasks_outcome. cbv zeta.
    destruct (check_tasks _ _ _) as [e|]; [right; by exists e|by left].
  - intros q r Hq Hr. cbv zeta.
    destruct (occurrence_of_task quests q r Hq Hr) as [i Hi].
    pose proof (getTasks_objects quests implicitAfter σ Hnd i _ Hi) as Ht.
    cbn [fst snd] in Ht. rewrite Ht.
    unfold namespaced_task. simpl. split; [done|]. split.
    + intros l ->. done.
    + intros -> ->. by destruct (previous _ _).
  - rewrite <- occurrences_objects. rewrite map_map.
    apply list_eq. intros i.
    change (map ?f ?l) with (f <$> l). rewrite !list_lookup_fmap.
    destruct (occurrences quests !! i) as [o|] eqn:Hi; [|done]. simpl.
    by rewrite (getTasks_objects quests implicitAfter σ Hnd i _ Hi).
Qed.

(** The names of the example are exactly [Q1/a], [Q1/b], [Q2/c], in that
    order, and the dependencies of [b] are [Q1/a] and [Q2/c]. *)
Lemma getTasks_namespaces_witness :
  NoDup (task_objects example_quests) ∧
  (getTasks example_quests false example_store).2 = Returned [0; 1; 2]%nat ∧
  map (fun r => name ((getTasks example_quests false example_store).1 r))
      [0; 1; 2]%nat = ["Q1/a"; "Q1/b"; "Q2/c"] ∧
  after ((getTasks example_quests false example_store).1 1%nat) =
    Some ["Q1/a"; "Q2/c"].
Proof.
  assert (NoDup (task_objects example_quests)) as Hnd.
  { apply (bool_decide_unpack _). vm_compute. exact I. }
  destruct (getTasks_namespaces example_quests false example_store Hnd)
    as (_ & Htasks & Hnames).
  split; [exact Hnd|]. split; [reflexivity|]. split; [exact Hnames|].
  destruct (Htasks {| quest_name := "Q1"; tasks := [0; 1]%nat |} 1%nat)
    as (_ & Hafter & _).
  - left.
  - right. left.
  - exact (Hafter _ eq_refl).
Defined.

(** Without that condition the claim fails: a task object listed in the
    quests [Q1] and [Q2] is renamed at each visit, so both entries of the
    returned list carry the name [Q2/Q1/a], and neither [Q1/a] nor [Q2/a] is
    the name of a returned task. *)
Lemma getTasks_namespaces_counterexample :
  (getTasks shared_quests false example_store).2 = Returned [0; 0]%nat ∧
  map (fun r => name ((getTasks shared_quests false example_store).1 r)) [0; 0]%nat =
    ["Q2/Q1/a"; "Q2/Q1/a"] ∧
  map (fun o => o.1 +:+ "/" +:+ name (example_store o.2)) (occurrences shared_quests) =
    ["Q1/a"; "Q2/a"] ∧
  ¬ (∀ q r, q ∈ shared_quests → r ∈ tasks q →
       name ((getTasks shared_quests false example_store).1 r) =
       quest_name q +:+ "/" +:+ name (example_store r)).
Proof.
  split; [reflexivity|]. split; [reflexivity|]. split; [reflexivity|].
  intros Hall.
  specialize (Hall {| quest_name := "Q1"; tasks := [0]%nat |} 0%nat).
  assert (name ((getTasks shared_quests false example_store).1 0%nat) = "Q2/Q1/a") as Hname
    by reflexivity.
  rewrite Hname in Hall. discriminate Hall; left.
Qed.

(** C7. [getTasks] throws if and only if, in the store left by the
    namespacing, some listed task has an [after] entry that is the name of no
    listed task; the thrown message is the unknown-dependency message for
    such an entry and for the name of the task that holds it; otherwise the
    call returns the listed tasks. The names are those of the whole list, so
    an entry naming a later task is accepted. *)
Theorem getTasks_unknown_dependency {W} (quests : list Quest) (implicitAfter : bool)
    (σ : Store W) :
  let σ' := (getTasks quests implicitAfter σ).1 in
  let outcome := (getTasks quests implicitAfter σ).2 in
  let listed r := r ∈ task_objects quests in
  let unknown a := ¬ ∃ d, listed d ∧ name (σ' d) = a in
  ((∃ e, outcome = Thrown e) ↔
   (∃ r a, listed r ∧ a ∈ after_list (σ' r) ∧ unknown a)) ∧
  (∀ e, outcome = Thrown e →
     ∃ r a, listed r ∧ a ∈ after_list (σ' r) ∧ unknown a ∧
            e = "Unknown task dependency " +:+ a +:+ " of " +:+ name (σ' r)) ∧
  ((∀ e, outcome ≠ Thrown e) → outcome = Returned (task_objects quests)).
Proof.
  cbv zeta. rewrite getTasks_outcome. cbv zeta.
  set (σ' := (getTasks quests implicitAfter σ).1).
  set (result := task_objects quests).
  destruct (check_tasks σ' (collect_names σ' result) result) as [e|] eqn:Hc.
  - pose proof (check_tasks_Some _ _ _ _ Hc) as (r & a & Hr & Ha & Hn & He).
    rewrite collect_names_spec in Hn.
    split; [|split].
    + split; [|by exists e]. intros _. by exists r, a.
    + intros e' [= <-]. by exists r, a.
    + intros H. by destruct (H e).
  - rewrite check_tasks_None in Hc.
    split; [|split].
    + split; [by intros [e [=]]|]. intros (r & a & Hr & Ha & Hn).
      exfalso. apply Hn. apply collect_names_spec. by apply (Hc r a).
    + by intros e [=].
    + done.
Qed.

(** A dependency on a task of a later quest is accepted. *)
Example getTasks_forward_reference :
  (getTasks example_quests false example_store).2 = Returned [0; 1; 2]%nat.
Proof. reflexivity. Qed.

(** A dependency that names no task is refused, with both names. *)
Example getTasks_unknown_example :
  (getTasks [ {| quest_name := "Q1"; tasks := [0; 1]%nat |} ] false example_store).2
  = Thrown "Unknown task dependency Q2/c of Q1/b".
Proof. reflexivity. Qed.

(** C8. With [implicitAfter] set and no task object listed twice: a task
    without [after] that is not the first of the flattened list gets as
    [after] exactly the one-element list with the final name of the task just
    before it in the flattened list; the first task gets none; a task with an
    explicit [after] keeps it, namespaced. *)
Theorem getTasks_implicit_after {W} (quests : list Quest) (σ : Store W) :
  NoDup (task_objects quests) →
  ∀ i r, task_objects quests !! i = Some r →
    let σ' := (getTasks quests true σ).1 in
    match after (σ r) with
    | None =>
        match i with
        | O => after (σ' r) = None
        | S j => ∃ p, task_objects quests !! j = Some p ∧
                      after (σ' r) = Some [name (σ' p)]
        end
    | Some l =>
        ∃ q, occurrences quests !! i = Some (q, r) ∧
             after (σ' r) = Some (map (namespace_after q) l)
    end.
Proof.
  intros Hnd i r Hi. cbv zeta.
  destruct (object_occurrence quests i r Hi) as [q Hocc].
  pose proof (getTasks_objects quests true σ Hnd i _ Hocc) as Ht.
  cbn [fst snd] in Ht. rewrite Ht. unfold namespaced_task. cbn [fst snd after set_after].
  destruct (after (σ r)) as [l|] eqn:Hafter.
  - by exists q.
  - destruct i as [|j]; [done|]. cbn [previous].
    assert (j < length (occurrences quests))%nat as Hj.
    { apply lookup_lt_Some in Hocc. lia. }
    apply lookup_lt_is_Some in Hj as [[q' p] Hp]. rewrite Hp.
    exists p. split; [by apply (occurrence_object quests j (q', p))|].
    pose proof (getTasks_objects quests true σ Hnd j _ Hp) as Hprev.
    cbn [fst snd] in Hprev. rewrite Hprev. done.
Qed.

(** In the example [b] has an explicit [after], and [c], which has none,
    gets exactly [Q1/b], the name of the task flattened just before it. *)
Lemma getTasks_implicit_after_witness :
  NoDup (task_objects example_quests) ∧
  after ((getTasks example_quests true example_store).1 2%nat) = Some ["Q1/b"] ∧
  after ((getTasks example_quests true example_store).1 0%nat) = None.
Proof.
  assert (NoDup (task_objects example_quests)) as Hnd.
  { apply (bool_decide_unpack _). vm_compute. exact I. }
  split; [exact Hnd|]. split.
  - destruct (getTasks_implicit_after example_quests example_store Hnd 2 2%nat eq_refl)
      as (p & Hp & Hafter).
    injection Hp as <-. exact Hafter.
  - exact (getTasks_implicit_after example_quests example_store Hnd 0 0%nat eq_refl).
Defined.

(** Without that condition the claim fails. A task object without [after]
    listed twice in a quest is the first task of the flattened list, and yet
    it ends with an [after], which names the object itself. And with the
    object listed before and after another one, that other one keeps as
    [after] the name that the object had at that time, [Q/a], which is no
    longer its name, while the object, first in the list, is given the name
    of the other one as [after]; the verification then rejects [Q/a]. *)
Lemma getTasks_implicit_after_counterexample :
  ((getTasks repeated_quest true example_store).2 = Returned [0; 0]%nat ∧
   task_objects repeated_quest !! 0%nat = Some 0%nat ∧
   after (example_store 0%nat) = None ∧
   after ((getTasks repeated_quest true example_store).1 0%nat) = Some ["Q/Q/a"] ∧
   after ((getTasks repeated_quest true example_store).1 0%nat) ≠ None) ∧
  (task_objects revisited_quest = [0; 2; 0]%nat ∧
   after (example_store 2%nat) = None ∧
   after ((getTasks revisited_quest true example_store).1 2%nat) = Some ["Q/a"] ∧
   name ((getTasks revisited_quest true example_store).1 0%nat) = "Q/Q/a" ∧
   after ((getTasks revisited_quest true example_store).1 0%nat) = Some ["Q/c"] ∧
   (getTasks revisited_quest true example_store).2 =
     Thrown "Unknown task dependency Q/a of Q/c").
Proof. repeat split; try reflexivity. discriminate. Qed.

Lemma append_assoc (a b c : string) : (a +:+ b) +:+ c = a +:+ b +:+ c.
Proof.
  induction a as [|x a IH]; [done|].
  change (String x ((a +:+ b) +:+ c) = String x (a +:+ b +:+ c)). by f_equal.
Qed.

(** One visit renames the visited object and no other. *)
Lemma visit_task_name {W} flag q (σ : Store W) acc r r' :
  name ((visit_task flag q (σ, acc) r).1 r') =
  if decide (r' = r) then in_quest q (name (σ r)) else name (σ r').
Proof.
  case_decide as Hr; [subst r'|by rewrite visit_task_other].
  unfold visit_task. cbn.
  destruct (last acc) as [prev|]; cbn.
  - destruct (flag && _); cbn; by rewrite ?store_set_eq.
  - by rewrite ?store_set_eq.
Qed.

(** One visit keeps the fields other than [name] and [after]. *)
Lemma visit_task_other_fields {W} flag q (σ : Store W) acc r r' :
  other_fields ((visit_task flag q (σ, acc) r).1 r') = other_fields (σ r').
Proof.
  destruct (decide (r' = r)) as [-> |Hr]; [|by rewrite visit_task_other].
  unfold visit_task. cbn.
  destruct (last acc) as [prev|]; cbn.
  - destruct (flag && _); cbn; by rewrite ?store_set_eq.
  - by rewrite ?store_set_eq.
Qed.

Lemma prefixes_snoc occs (o : string * Ref) r :
  prefixes (occs ++ [o]) r =
  if decide (o.2 = r) then o.1 +:+ "/" +:+ prefixes occs r else prefixes occs r.
Proof. unfold prefixes. by rewrite fold_left_app. Qed.

(** Every visit of an object puts the quest name in front of its name. *)
Lemma visit_names {W} flag occs (σ : Store W) r :
  name ((fold_left (visit_occurrence flag) occs (σ, [])).1 r) =
  prefixes occs r +:+ name (σ r).
Proof.
  induction occs as [|[q r'] occs IH] using rev_ind; [done|].
  rewrite visit_snoc, prefixes_snoc. cbn [fst snd].
  destruct (fold_left (visit_occurrence flag) occs (σ, [])) as [σ0 acc] eqn:Hfold.
  rewrite visit_task_name. cbn [fst] in IH.
  destruct (decide (r = r')) as [-> |Hne].
  - rewrite decide_True by done. unfold in_quest. rewrite IH.
    by rewrite !append_assoc.
  - rewrite decide_False by done. done.
Qed.

Lemma visit_other_fields {W} flag occs (σ : Store W) r :
  other_fields ((fold_left (visit_occurrence flag) occs (σ, [])).1 r) =
  other_fields (σ r).
Proof.
  induction occs as [|[q r'] occs IH] using rev_ind; [done|].
  rewrite visit_snoc.
  destruct (fold_left (visit_occurrence flag) occs (σ, [])) as [σ0 acc] eqn:Hfold.
  by rewrite visit_task_other_fields.
Qed.

(** An object that is listed once gets one prefix. *)
Lemma prefixes_once occs q r :
  NoDup (map snd occs) → (q, r) ∈ occs → prefixes occs r = q +:+ "/".
Proof.
  induction occs as [|[q' r'] occs IH] using rev_ind; intros Hnd Hin.
  { by apply elem_of_nil in Hin. }
  rewrite map_app in Hnd. simpl in Hnd. apply NoDup_app in Hnd as (Hnd & Hfresh & _).
  assert (∀ x, x ∉ map snd occs → prefixes occs x = "") as Hnone.
  { clear. intros x. induction occs as [|o occs IH] using rev_ind; [done|].
    rewrite map_app, prefixes_snoc. simpl. intros Hx.
    rewrite decide_False; [apply IH|]; intros ?; apply Hx; apply elem_of_app.
    - by left.
    - right. subst x. by left. }
  rewrite prefixes_snoc. cbn [fst snd].
  apply elem_of_app in Hin as [Hin|Hin].
  - rewrite decide_False; [by apply IH|]. intros ->.
    apply (Hfresh r); [|by left]. apply list_elem_of_fmap. by exists (q, r).
  - apply list_elem_of_singleton in Hin as [= <- <-].
    rewrite decide_True by done. rewrite Hnone; [done|].
    intros Hin. apply (Hfresh r Hin). by left.
Qed.

(** C10. [getTasks] works on the task objects of the quests themselves: the
    returned list is the list of the objects that the quests hold; objects
    that are not listed are untouched; in every object the fields other than
    [name] and [after] are kept; the name of an object is overwritten with its
    namespaced value, one quest prefix per visit, so a second call on the same
    quests puts the prefixes in front of the already namespaced name once
    more. When no task object is listed twice, the prefix of a task is
    [<quest-name>/], and an explicit [after] is overwritten with its
    namespaced entries. *)
Theorem getTasks_mutates_in_place {W} (quests : list Quest) (implicitAfter : bool)
    (σ : Store W) :
  let σ1 := (getTasks quests implicitAfter σ).1 in
  let σ2 := (getTasks quests implicitAfter σ1).1 in
  let prefix := prefixes (occurrences quests) in
  (∀ l, (getTasks quests implicitAfter σ).2 = Returned l → l = task_objects quests) ∧
  (∀ r, r ∉ task_objects quests → σ1 r = σ r) ∧
  (∀ r, other_fields (σ1 r) = other_fields (σ r)) ∧
  (∀ r, name (σ1 r) = prefix r +:+ name (σ r) ∧
        name (σ2 r) = prefix r +:+ prefix r +:+ name (σ r)) ∧
  (NoDup (task_objects quests) →
   ∀ q r, q ∈ quests → r ∈ tasks q →
     prefix r = quest_name q +:+ "/" ∧
     name (σ1 r) = quest_name q +:+ "/" +:+ name (σ r) ∧
     name (σ2 r) = quest_name q +:+ "/" +:+ quest_name q +:+ "/" +:+ name (σ r) ∧
     ∀ l, after (σ r) = Some l →
          after (σ1 r) = Some (map (namespace_after (quest_name q)) l)).
Proof.
  cbv zeta.
  assert (∀ (τ : Store W) r,
    name ((getTasks quests implicitAfter τ).1 r) =
    prefixes (occurrences quests) r +:+ name (τ r)) as Hname.
  { intros τ r. rewrite getTasks_store, namespace_all_flat. apply visit_names. }
  split; [|split; [|split; [|split]]].
  - intros l. rewrite getTasks_outcome. cbv zeta.
    destruct (check_tasks _ _ _); [done|]. by intros [= <-].
  - intros r Hr. rewrite getTasks_store, namespace_all_flat.
    rewrite visit_other; [done|]. by rewrite occurrences_objects.
  - intros r. rewrite getTasks_store, namespace_all_flat. apply visit_other_fields.
  - intros r. split; [apply Hname|]. by rewrite !Hname.
  - intros Hnd q r Hq Hr.
    destruct (occurrence_of_task quests q r Hq Hr) as [i Hi].
    assert (prefixes (occurrences quests) r = quest_name q +:+ "/") as Hprefix.
    { apply prefixes_once; [by rewrite occurrences_objects|].
      by eapply list_elem_of_lookup_2. }
    split; [done|]. rewrite !Hname, Hprefix, !append_assoc.
    split; [done|]. split; [done|]. intros l Hl.
    pose proof (getTasks_objects quests implicitAfter σ Hnd i _ Hi) as Ht.
    cbn [fst snd] in Ht. rewrite Ht. unfold namespaced_task. simpl. by rewrite Hl.
Qed.

(** In the example the second call turns [Q1/a] into [Q1/Q1/a], and then
    throws because [b] still asks for [Q1/a]. *)
Lemma getTasks_mutates_in_place_witness :
  NoDup (task_objects example_quests) ∧
  name ((getTasks example_quests false
           (getTasks example_quests false example_store).1).1 0%nat) = "Q1/Q1/a" ∧
  (getTasks example_quests false (getTasks example_quests false example_store).1).2
  = Thrown "Unknown task dependency Q1/a of Q1/Q1/b".
Proof.
  assert (NoDup (task_objects example_quests)) as Hnd.
  { apply (bool_decide_unpack _). vm_compute. exact I. }
  destruct (getTasks_mutates_in_place example_quests false example_store)
    as (_ & _ & _ & _ & Htasks).
  split; [exact Hnd|]. split; [|reflexivity].
  destruct (Htasks Hnd {| quest_name := "Q1"; tasks := [0; 1]%nat |} 0%nat)
    as (_ & _ & Hagain & _).
  - left.
  - left.
  - exact Hagain.
Defined.

(** An object listed in two quests is namespaced twice, and both entries of
    the result carry the same name. *)
Example getTasks_shared_object :
  let quests := [ {| quest_name := "Q1"; tasks := [0]%nat |};
                  {| quest_name := "Q2"; tasks := [0]%nat |} ] in
  (getTasks quests false example_store).2 = Returned [0; 0]%nat ∧
  name ((getTasks quests false example_store).1 0%nat) = "Q2/Q1/a".
Proof. split; reflexivity. Qed.

(** ** Maps filled by a loop of [set(key, value)] *)

Section fold_insert.
Context {A V : Type} (key : A → string) (val : A → V).

(** The last element of [l] with the key [k] decides the entry of [k]. *)
Lemma fold_insert_lookup (l : list A) (acc : gmap string V) (k : string) :
  fold_left (fun m x => <[ key x := val x ]> m) l acc !! k =
  match last (filter (fun x => key x = k) l) with
  | Some x => Some (val x)
  | None => acc !! k
  end.
Proof.
  revert acc. induction l as [|x l IH]; intros acc; simpl; [done|].
  rewrite IH. rewrite filter_cons. case_decide as Hk.
  - destruct (filter _ l) as [|y fl] eqn:Hf; simpl.
    + subst k. by rewrite lookup_insert_eq.
    + by destruct (last (y :: fl)) eqn:Hl; [|by rewrite last_cons in Hl; destruct (last fl)].
  - destruct (last _); [done|]. by rewrite lookup_insert_ne.
Qed.

Lemma fold_insert_Some (l : list A) (k : string) (v : V) :
  fold_left (fun m x => <[ key x := val x ]> m) l (∅ : gmap string V) !! k = Some v →
  ∃ x, x ∈ l ∧ key x = k ∧ val x = v.
Proof.
  rewrite fold_insert_lookup.
  destruct (last (filter _ l)) as [x|] eqn:Hl; [|by rewrite lookup_empty].
  intros [= <-]. exists x.
  assert (x ∈ filter (fun x => key x = k) l) as Hx.
  { rewrite last_lookup in Hl. by eapply list_elem_of_lookup_2. }
  apply list_elem_of_filter in Hx as [? ?]. done.
Qed.

Lemma fold_insert_is_Some (l : list A) (x : A) :
  x ∈ l → is_Some (fold_left (fun m x => <[ key x := val x ]> m) l (∅ : gmap string V) !! key x).
Proof.
  intros Hx. rewrite fold_insert_lookup.
  assert (x ∈ filter (fun y => key y = key x) l) as Hf.
  { by apply list_elem_of_filter. }
  destruct (filter _ l) as [|y fl] using rev_ind.
  - by apply elem_of_nil in Hf.
  - rewrite last_snoc. by eexists.
Qed.

(** When the keys of [l] are pairwise distinct, each element is found
    under its key. *)
Lemma fold_insert_NoDup (l : list A) (x : A) :
  NoDup (map key l) → x ∈ l →
  fold_left (fun m x => <[ key x := val x ]> m) l (∅ : gmap string V) !! key x = Some (val x).
Proof.
  intros Hnd Hx. destruct (fold_insert_is_Some l x Hx) as [v Hv].
  rewrite Hv. apply fold_insert_Some in Hv as (y & Hy & Hk & <-).
  f_equal. f_equal.
  apply list_elem_of_lookup_1 in Hx as [i Hi].
  apply list_elem_of_lookup_1 in Hy as [j Hj].
  assert (i = j) as ->.
  { apply (NoDup_lookup (map key l) i j (key x)); [done| |].
    - change (map key l) with (key <$> l). by rewrite list_lookup_fmap, Hi.
    - change (map key l) with (key <$> l). rewrite list_lookup_fmap, Hj.
      simpl. by rewrite Hk. }
  congruence.
Qed.
End fold_insert.

(** ** Engine.available *)

Lemma tasks_by_name_Some {W} (σ : Store W) tasks a d :
  tasks_by_name (new_Engine σ tasks) !! a = Some d → d ∈ tasks ∧ name (σ d) = a.
Proof.
  unfold new_Engine. simpl. intros H.
  apply (fold_insert_Some (fun r => name (σ r)) (fun r => r)) in H
    as (x & Hx & Hk & <-). done.
Qed.

Lemma tasks_by_name_is_Some {W} (σ : Store W) tasks d :
  d ∈ tasks → is_Some (tasks_by_name (new_Engine σ tasks) !! name (σ d)).
Proof.
  intros Hd. unfold new_Engine. simpl.
  apply (fold_insert_is_Some (fun r => name (σ r)) (fun r => r)). done.
Qed.

(** With pairwise distinct names every listed task is the one registered
    under its name. *)
Lemma tasks_by_name_NoDup {W} (σ : Store W) tasks d :
  NoDup (map (fun r => name (σ r)) tasks) → d ∈ tasks →
  tasks_by_name (new_Engine σ tasks) !! name (σ d) = Some d.
Proof.
  intros Hnd Hd. unfold new_Engine. simpl.
  apply (fold_insert_NoDup (fun r => name (σ r)) (fun r => r)); done.
Qed.

Lemma dependencies_complete_spec {W} (σ : Store W) (e : Engine) task afters (w : W) :
  (∀ a, a ∈ afters → is_Some (tasks_by_name e !! a)) →
  ∃ b, dependencies_complete σ e task afters w = Returned b ∧
       (b = true ↔
        ∀ a, a ∈ afters →
             ∃ d, tasks_by_name e !! a = Some d ∧ completed (σ d) w = true).
Proof.
  induction afters as [|a afters IH]; intros Hreg; simpl.
  - exists true. split; [done|]. split; [|done]. intros _ a Ha.
    by apply elem_of_nil in Ha.
  - destruct (Hreg a) as [d Hd]; [by left|]. rewrite Hd.
    destruct (completed (σ d) w) eqn:Hc; simpl.
    + destruct IH as (b & Hb & Hiff); [intros; apply Hreg; by right|].
      exists b. split; [done|]. rewrite Hiff. split.
      * intros H a' Ha'. apply elem_of_cons in Ha' as [-> |Ha']; [by exists d|].
        by apply H.
      * intros H a' Ha'. apply H. by right.
    + exists false. split; [done|]. split; [done|]. intros H.
      destruct (H a) as (d' & Hd' & Hc'); [by left|]. congruence.
Qed.

(** C1. When every [after] entry of the task names a task of the engine's
    list, [available] returns, and it returns true if and only if every task
    named in [after] reports completed, [ready] is absent or true, and the
    task itself reports not completed. In particular the answer is false
    whenever the task reports completed, whatever its dependencies. With
    pairwise distinct names, the tasks named in [after] are exactly the listed
    tasks whose name is an entry of [after]. *)
Theorem available_iff {W} (σ : Store W) (tasks : list Ref) (t : Ref) (w : W) :
  (∀ a, a ∈ after_list (σ t) → ∃ d, d ∈ tasks ∧ name (σ d) = a) →
  let e := new_Engine σ tasks in
  ∃ b, available σ e t w = Returned b ∧
    (b = true ↔
       (∀ a, a ∈ after_list (σ t) →
          ∃ d, tasks_by_name e !! a = Some d ∧ completed (σ d) w = true) ∧
       (∀ f, ready (σ t) = Some f → f w = true) ∧
       completed (σ t) w = false) ∧
    (completed (σ t) w = true → b = false) ∧
    (NoDup (map (fun r => name (σ r)) tasks) →
       (b = true ↔
          (∀ d, d ∈ tasks → name (σ d) ∈ after_list (σ t) → completed (σ d) w = true) ∧
          (∀ f, ready (σ t) = Some f → f w = true) ∧
          completed (σ t) w = false)).
Proof.
  intros Hknown. cbv zeta.
  destruct (dependencies_complete_spec σ (new_Engine σ tasks) (name (σ t))
              (after_list (σ t)) w) as (b0 & Hb0 & Hiff).
  { intros a Ha. destruct (Hknown a Ha) as (d & Hd & <-).
    by apply tasks_by_name_is_Some. }
  set (deps := ∀ a, a ∈ after_list (σ t) →
         ∃ d, tasks_by_name (new_Engine σ tasks) !! a = Some d ∧
              completed (σ d) w = true) in *.
  assert (∃ b, available σ (new_Engine σ tasks) t w = Returned b ∧
    (b = true ↔ deps ∧ (∀ f, ready (σ t) = Some f → f w = true) ∧
                completed (σ t) w = false)) as (b & Hb & Hmain).
  { unfold available. rewrite Hb0. unfold not_ready.
    destruct b0.
    - destruct (ready (σ t)) as [f|] eqn:Hready.
      + destruct (f w) eqn:Hf; simpl.
        * destruct (completed (σ t) w) eqn:Hc.
          -- exists false. split; [done|]. split; [done|]. by intros (_ & _ & ?).
          -- exists true. split; [done|]. split; [|done]. intros _.
             split; [by apply Hiff|]. split; [|done]. by intros ? [= <-].
        * exists false. split; [done|]. split; [done|]. intros (_ & H & _).
          specialize (H f eq_refl). congruence.
      + destruct (completed (σ t) w) eqn:Hc.
        * exists false. split; [done|]. split; [done|]. by intros (_ & _ & ?).
        * exists true. split; [done|]. split; [|done]. intros _.
          split; [by apply Hiff|]. done.
    - exists false. split; [done|]. split; [done|]. intros (H & _).
      apply Hiff in H. done. }
  exists b. split; [done|]. split; [done|]. split.
  - intros Hc. destruct b; [|done]. destruct Hmain as [Hmain _].
    destruct (Hmain eq_refl) as (_ & _ & ?). congruence.
  - intros Hnd. rewrite Hmain.
    assert (deps ↔ ∀ d, d ∈ tasks → name (σ d) ∈ after_list (σ t) →
                        completed (σ d) w = true) as ->; [|done].
    unfold deps. split.
    + intros H d Hd Ha. destruct (H _ Ha) as (d' & Hd' & Hc).
      rewrite (tasks_by_name_NoDup σ tasks d Hnd Hd) in Hd'. congruence.
    + intros H a Ha. destruct (Hknown a Ha) as (d & Hd & <-).
      exists d. split; [by apply tasks_by_name_NoDup|]. by apply H.
Qed.

(** [Q1/b] is available once [Q1/a] is completed and [Q1/b] is not; [Q2/c]
    is available as soon as [Q1/b] reports completed, whatever [Q1/a] says. *)
Lemma available_iff_witness :
  available chain_store (new_Engine chain_store [0; 1; 2]%nat) 1%nat (true, false, false)
  = Returned true ∧
  available chain_store (new_Engine chain_store [0; 1; 2]%nat) 1%nat (true, true, false)
  = Returned false ∧
  available chain_store (new_Engine chain_store [0; 1; 2]%nat) 2%nat (false, true, false)
  = Returned true.
Proof.
  assert (∀ a, a ∈ after_list (chain_store 1%nat) →
               ∃ d, d ∈ [0; 1; 2]%nat ∧ name (chain_store d) = a) as Hknown.
  { intros a Ha. apply list_elem_of_singleton in Ha as ->. exists 0%nat.
    split; [left|reflexivity]. }
  destruct (available_iff chain_store [0; 1; 2]%nat 1%nat (true, false, false) Hknown)
    as (b & Hb & _).
  split; [|split; reflexivity].
  rewrite Hb. simpl in Hb. injection Hb as <-. reflexivity.
Defined.

(** ** Engine.execute: attempts and limits *)

Lemma js_in_fresh key (object : gmap string JSNumber) :
  key ∉ object_prototype_keys → object !! key = None → js_in key object = false.
Proof.
  intros Hkey Hnone. unfold js_in. rewrite Hnone.
  rewrite bool_decide_eq_false_2 by (by intros [? ?]).
  by rewrite bool_decide_eq_false_2.
Qed.

Lemma js_in_own key (object : gmap string JSNumber) v :
  object !! key = Some v → js_in key object = true.
Proof.
  intros Hsome. unfold js_in. rewrite Hsome.
  by rewrite bool_decide_eq_true_2.
Qed.

Lemma js_set_lookup key v (object : gmap string JSNumber) :
  key ∉ object_prototype_keys → js_set key v object !! key = Some v.
Proof.
  intros Hkey. unfold js_set. rewrite bool_decide_eq_false_2.
  - apply lookup_insert_eq.
  - intros ->. apply Hkey. unfold object_prototype_keys.
    do 7 right. left.
Qed.

(** A namespaced name is never a property of [Object.prototype]. *)
Lemma namespaced_not_inherited key :
  includes_slash key = true → key ∉ object_prototype_keys.
Proof.
  intros Hslash Hin. unfold object_prototype_keys in Hin.
  repeat (apply elem_of_cons in Hin as [-> |Hin]; [by vm_compute in Hslash|]).
  by apply elem_of_nil in Hin.
Qed.

(** [markAttempt] on a name that is not inherited: the count starts at 1. *)
Lemma markAttempt_first {W} (t : Task W) (e : Engine) :
  name t ∉ object_prototype_keys → attempts e !! name t = None →
  attempts (markAttempt t e) !! name t = Some (Num 1).
Proof.
  intros Hkey Hnone. unfold markAttempt. simpl.
  rewrite (js_in_fresh _ _ Hkey Hnone). simpl.
  rewrite js_set_lookup by done. unfold js_get_number.
  by rewrite js_set_lookup.
Qed.

(** [markAttempt] on a counted name: the count goes up by one. *)
Lemma markAttempt_next {W} (t : Task W) (e : Engine) k :
  name t ∉ object_prototype_keys → attempts e !! name t = Some (Num k) →
  attempts (markAttempt t e) !! name t = Some (Num (k + 1)).
Proof.
  intros Hkey Hsome. unfold markAttempt. simpl.
  rewrite (js_in_own _ _ _ Hsome). simpl.
  rewrite js_set_lookup by done. unfold js_get_number. by rewrite Hsome.
Qed.

Lemma markAttempt_counted {W} (t : Task W) (e : Engine) k :
  name t ∉ object_prototype_keys → attempts e !! name t = counted k →
  attempts (markAttempt t e) !! name t = counted (S k).
Proof.
  intros Hkey Hk. destruct k as [|k].
  - by apply markAttempt_first.
  - cbn [counted] in *. rewrite (markAttempt_next t e _ Hkey Hk).
    f_equal. f_equal. lia.
Qed.

(** [checkLimits] with only [tries] set. *)
Lemma checkLimits_tries {W} (h : Host W) (t : Task W) (e : Engine) (w : W) l n k :
  limit t = Some l → tries l = Some n → soft l = None → turns l = None →
  1 ≤ n → attempts e !! name t = Some (Num k) →
  checkLimits h t e w =
  if n <=? k then Thrown (tries_exceeded (name t) n l) else Returned tt.
Proof.
  intros Hl Ht Hs Hu Hn Hk. unfold checkLimits. rewrite Hl, Ht, Hs, Hu.
  unfold js_get_number. rewrite Hk. unfold over. simpl.
  replace (n =? 0) with false by (symmetry; apply Z.eqb_neq; lia). simpl.
  destruct (n <=? k); [done|]. by destruct (do_ t).
Qed.

(** The second half of C3: when the task reports completed at the end of
    [execute], no limit is checked and the call returns, whatever the count
    and whatever the name. *)
Lemma execute_completed {W} (h : Host W) fuel (σ : Store W) task e w w' :
  perform h fuel (σ task) w = Returned w' → completed (σ task) w' = true →
  execute h fuel σ task e w = (markAttempt (σ task) e, Returned w').
Proof. intros Hp Hc. unfold execute. by rewrite Hp, Hc. Qed.

(** The first half of C3 for a task whose name is not a property of
    [Object.prototype] (every namespaced name is such a name): with only
    [tries: n] set, [n >= 1], a task that never reports completed and whose
    steps return is counted 1, 2, ... and the first [n - 1] calls return; the
    [n]-th call throws the tries message, with the count at [n]. *)
Lemma execute_tries_limit {W} (h : Host W) fuel (σ : Store W) task e0 w0
    (l : Limit) (n : Z) :
  limit (σ task) = Some l → tries l = Some n → soft l = None → turns l = None →
  1 ≤ n →
  name (σ task) ∉ object_prototype_keys →
  attempts e0 !! name (σ task) = None →
  (∀ w, completed (σ task) w = false) →
  (∀ w, ∃ w', perform h fuel (σ task) w = Returned w') →
  (∀ k, (k < Z.to_nat n)%nat →
     ∃ e w, execute_times h fuel σ task k e0 w0 = (e, Returned w) ∧
            attempts e !! name (σ task) = counted k) ∧
  (∃ e, execute_times h fuel σ task (Z.to_nat n) e0 w0 =
          (e, Thrown (tries_exceeded (name (σ task)) n l)) ∧
        attempts e !! name (σ task) = Some (Num n)).
Proof.
  intros Hl Ht Hs Hu Hn Hkey Hfresh Hnever Hsteps.
  assert (∀ k, (k < Z.to_nat n)%nat →
     ∃ e w, execute_times h fuel σ task k e0 w0 = (e, Returned w) ∧
            attempts e !! name (σ task) = counted k) as Hbefore.
  { induction k as [|k IH]; intros Hk.
    - by exists e0, w0.
    - destruct IH as (e & w & Hrun & Hcount); [lia|].
      simpl. rewrite Hrun. unfold execute.
      destruct (Hsteps w) as [w' ->]. rewrite Hnever. simpl.
      pose proof (markAttempt_counted (σ task) e k Hkey Hcount) as Hnext.
      cbn [counted] in Hnext.
      rewrite (checkLimits_tries h _ _ w' l n _ Hl Ht Hs Hu Hn Hnext).
      replace (n <=? Z.of_nat (S k)) with false by (symmetry; apply Z.leb_gt; lia).
      by eexists _, _. }
  split; [done|].
  destruct (Z.to_nat n) as [|k] eqn:Hnk; [lia|].
  destruct (Hbefore k) as (e & w & Hrun & Hcount); [lia|].
  simpl. rewrite Hrun. unfold execute.
  destruct (Hsteps w) as [w' ->]. rewrite Hnever. simpl.
  pose proof (markAttempt_counted (σ task) e k Hkey Hcount) as Hnext.
  cbn [counted] in Hnext. replace (Z.of_nat (S k)) with n in Hnext by lia.
  rewrite (checkLimits_tries h _ _ w' l n _ Hl Ht Hs Hu Hn Hnext).
  rewrite Z.leb_refl. by eexists.
Qed.

(** For a namespaced task: calls 1 and 2 return, call 3 throws. *)
Example execute_tries_3 :
  let σ := fun _ : Ref => stubborn_task "Q/t" in
  let e0 := new_Engine σ [0%nat] in
  (execute_times idle_host 0 σ 0%nat 1 e0 tt).2 = Returned tt ∧
  (execute_times idle_host 0 σ 0%nat 2 e0 tt).2 = Returned tt ∧
  (execute_times idle_host 0 σ 0%nat 3 e0 tt).2 =
    Thrown "Task Q/t did not complete within 3 attempts. Please check what went wrong.".
Proof. repeat split; vm_compute; reflexivity. Qed.

Lemma execute_tries_limit_witness :
  let σ := fun _ : Ref => stubborn_task "Q/t" in
  ∃ e, execute_times idle_host 0 σ 0%nat 3 (new_Engine σ [0%nat]) tt =
         (e, Thrown "Task Q/t did not complete within 3 attempts. Please check what went wrong.") ∧
       attempts e !! "Q/t" = Some (Num 3).
Proof.
  cbv zeta.
  refine (proj2 (execute_tries_limit idle_host 0 (fun _ => stubborn_task "Q/t") 0%nat
            (new_Engine (fun _ => stubborn_task "Q/t") [0%nat]) tt
            {| tries := Some 3; turns := None; soft := None; message := None |} 3
            eq_refl eq_refl eq_refl eq_refl _ _ _ _ _)).
  - lia.
  - apply namespaced_not_inherited. reflexivity.
  - reflexivity.
  - reflexivity.
  - intros []. exists tt. reflexivity.
Defined.

(** C3 at the task named [constructor]. [markAttempt] tests
    [task.name in this.attempts], which is true for a property inherited from
    [Object.prototype]: the count is never set to 0, [attempts[name]++] makes
    it NaN, and [NaN >= tries] is false. With [limit: { tries: 3 }] and a task
    that never reports completed, every call of [execute] returns: the tries
    error is raised neither on the third call nor later. *)
Theorem execute_tries_limit_inherited_name :
  let σ := fun _ : Ref => stubborn_task "constructor" in
  ∀ k, ∃ e, execute_times idle_host 0 σ 0%nat k (new_Engine σ [0%nat]) tt =
              (e, Returned tt) ∧
            js_get_number "constructor" (attempts e) = NaN.
Proof.
  cbv zeta. induction k as [|k (e & Hrun & Hcount)].
  - eexists. split; reflexivity.
  - simpl. rewrite Hrun. unfold execute. cbn -[markAttempt checkLimits].
    assert (attempts (markAttempt (stubborn_task "constructor") e) =
            <[ "constructor" := NaN ]> (attempts e)) as Hnext.
    { unfold markAttempt. cbn [attempts name stubborn_task].
      assert (js_in "constructor" (attempts e) = true) as ->.
      { unfold js_in. apply orb_true_r. }
      cbn [negb]. by rewrite Hcount. }
    unfold checkLimits. cbn [limit stubborn_task name tries soft turns do_].
    rewrite Hnext. unfold js_get_number. rewrite lookup_insert_eq. simpl.
    eexists. split; [reflexivity|]. rewrite Hnext.
    by rewrite lookup_insert_eq.
Qed.

(** ** CombatStrategy.clone *)

(** The clone holds the very Maps of the original. *)
Lemma clone_shares_maps {W Macro} (this : Ref) (h : Heap W Macro) :
  macros (strategies (clone this h).2 (clone this h).1) = macros (strategies h this) ∧
  actions (strategies (clone this h).2 (clone this h).1) = actions (strategies h this).
Proof.
  unfold clone. cbn [fresh fst snd].
  set (h1 := set_strategy _ (next h) (strategies _ this)).
  assert (strategies h1 (next h) = strategies h this) as H1.
  { unfold h1, set_strategy, update. cbn. by rewrite decide_True. }
  assert (macros (strategies (copy_default_macro (next h) h1) (next h)) =
            macros (strategies h this) ∧
          actions (strategies (copy_default_macro (next h) h1) (next h)) =
            actions (strategies h this)) as H2.
  { unfold copy_default_macro. rewrite H1.
    destruct (default_macro (strategies h this)); [|by rewrite H1].
    unfold new_array, fresh, set_array, set_strategy, update. cbn.
    rewrite decide_True by done. cbn. unfold update.
    by rewrite decide_True. }
  set (h2 := copy_default_macro (next h) h1) in *. clearbody h2.
  assert (∀ (l : list (Monster * Ref)) (h3 : Heap W Macro),
    strategies (fold_left (copy_macro_entry (next h)) l h3) = strategies h3)
    as Hmacros.
  { induction l as [|p l IH]; intros h3; simpl; [done|]. by rewrite IH. }
  assert (∀ (l : list (Monster * string)) (h3 : Heap W Macro),
    strategies (fold_left (copy_action_entry (next h)) l h3) = strategies h3)
    as Hactions.
  { induction l as [|p l IH]; intros h3; simpl; [done|]. by rewrite IH. }
  by rewrite Hactions, Hmacros.
Qed.

(** C2 at the strategy above. The clone is another object, but appending a
    macro for the crate through the clone changes the list that the original
    holds for the crate, and setting an action through the clone sets it in
    the original: both Maps are shared. Only the list of default macros is
    the clone's own. *)
Theorem clone_is_not_deep :
  the_clone ≠ the_original ∧
  macros_of cloned_heap the_original crate = Some [inl "attack"] ∧
  macros_of (macro the_clone (inl "skill Stuffed Mortar Shell") (Some [crate]) false
               cloned_heap) the_original crate
  = Some [inl "attack"; inl "skill Stuffed Mortar Shell"] ∧
  action_of cloned_heap the_original crate = None ∧
  action_of (action the_clone "kill" (Some [crate]) cloned_heap) the_original crate
  = Some "kill" ∧
  default_macros_of (macro the_clone (inl "attack") None false cloned_heap) the_original
  = Some [inl "skill Saucestorm"].
Proof. repeat split; try reflexivity. by vm_compute. Qed.

(** ** CompressedMacro *)

Section js_map.
Context {K V : Type} `{EqDecision K}.

Lemma map_get_replace (k k' : K) (v : V) (m : list (K * V)) :
  is_Some (map_get k' m) →
  map_get k (map_replace k' v m) = if decide (k' = k) then Some v else map_get k m.
Proof.
  induction m as [|[k0 v0] m IH]; simpl; [by intros [? ?]|].
  destruct (decide (k0 = k')) as [-> |Hne]; simpl.
  - intros _. by destruct (decide (k' = k)).
  - intros Hsome. specialize (IH Hsome).
    destruct (decide (k0 = k)) as [-> |Hne']; [|done].
    by rewrite decide_False.
Qed.

Lemma map_get_app_None (k : K) (m m' : list (K * V)) :
  map_get k (m ++ m') =
  match map_get k m with Some v => Some v | None => map_get k m' end.
Proof.
  induction m as [|[k0 v0] m IH]; simpl; [done|].
  by destruct (decide (k0 = k)).
Qed.

Lemma map_get_set (k k' : K) (v : V) (m : list (K * V)) :
  map_get k (map_set k' v m) = if decide (k' = k) then Some v else map_get k m.
Proof.
  unfold map_set, map_has. case_bool_decide as Hhas.
  - by apply map_get_replace.
  - rewrite map_get_app_None. simpl.
    destruct (decide (k' = k)) as [-> |Hne].
    + destruct (map_get k m) eqn:Hg; [|done]. exfalso. apply Hhas. by eexists.
    + by destruct (map_get k m).
Qed.

Lemma map_replace_keys (k : K) (v : V) (m : list (K * V)) :
  map fst (map_replace k v m) = map fst m.
Proof.
  induction m as [|[k0 v0] m IH]; simpl; [done|].
  destruct (decide (k0 = k)); simpl; [done|]. by rewrite IH.
Qed.

Lemma map_get_None (k : K) (m : list (K * V)) :
  map_get k m = None ↔ k ∉ map fst m.
Proof.
  induction m as [|[k0 v0] m IH]; simpl.
  - split; [|done]. intros _ H. by apply elem_of_nil in H.
  - rewrite not_elem_of_cons. destruct (decide (k0 = k)) as [-> |Hne].
    + split; [done|]. by intros [? _].
    + rewrite IH. split; [by split|by intros [_ ?]].
Qed.

(** [set] keeps the keys of a Map pairwise distinct. *)
Lemma map_set_NoDup (k : K) (v : V) (m : list (K * V)) :
  NoDup (map fst m) → NoDup (map fst (map_set k v m)).
Proof.
  intros Hnd. unfold map_set, map_has. case_bool_decide as Hhas.
  - by rewrite map_replace_keys.
  - rewrite map_app. simpl. apply NoDup_app. split; [done|]. split.
    + intros k0 Hk0 Hin. apply list_elem_of_singleton in Hin as ->.
      apply Hhas. destruct (map_get k m) eqn:Hg; [by eexists|].
      by apply map_get_None in Hg.
    + apply NoDup_singleton.
Qed.

Lemma map_get_elem (k : K) (v : V) (m : list (K * V)) :
  NoDup (map fst m) → ((k, v) ∈ m ↔ map_get k m = Some v).
Proof.
  induction m as [|[k0 v0] m IH]; simpl; intros Hnd.
  - split; [|done]. intros H. by apply elem_of_nil in H.
  - apply NoDup_cons in Hnd as [Hk0 Hnd]. rewrite elem_of_cons, (IH Hnd).
    destruct (decide (k0 = k)) as [-> |Hne].
    + split.
      * intros [[= -> ]|Hg]; [done|]. exfalso. apply Hk0.
        apply list_elem_of_fmap. exists (k, v). split; [done|]. by apply IH.
      * intros [= ->]. by left.
    + split; [|by right]. intros [[= ? ?]|?]; [congruence|done].
Qed.
End js_map.

Lemma length_zero_empty (s : string) : String.length s = 0%nat ↔ s = "".
Proof. by destruct s. Qed.

Lemma compress_snoc {Macro} (lib : MacroLib Macro) adds a :
  compress lib (adds ++ [a]) = compressed_add lib a.1 a.2 (compress lib adds).
Proof. unfold compress. by rewrite fold_left_app. Qed.

Lemma group_snoc {Macro} (lib : MacroLib Macro) adds a text :
  group lib (adds ++ [a]) text =
  group lib adds text ++ (if decide (toString lib a.2 = text) then [a.1] else []).
Proof.
  unfold group. rewrite filter_app, map_app. f_equal.
  rewrite filter_cons, filter_nil. by case_decide.
Qed.

Lemma compress_NoDup {Macro} (lib : MacroLib Macro) adds :
  NoDup (map fst (compress lib adds)).
Proof.
  induction adds as [|a adds IH] using rev_ind; [apply NoDup_nil_2|].
  rewrite compress_snoc. unfold compressed_add.
  case_bool_decide; [done|].
  destruct (map_get _ _); by apply map_set_NoDup.
Qed.

(** Under each non-empty text the components hold the monsters added with
    that text; texts never added, and the empty text, have no entry. *)
Lemma compress_get {Macro} (lib : MacroLib Macro) adds text :
  map_get text (compress lib adds) =
  if decide (text = "") then None
  else match group lib adds text with
       | [] => None
       | mons => Some mons
       end.
Proof.
  revert text. induction adds as [|a adds IH] using rev_ind; intros text.
  - simpl. by case_decide.
  - rewrite compress_snoc, group_snoc. unfold compressed_add.
    case_bool_decide as Hlen.
    + apply length_zero_empty in Hlen. rewrite IH.
      case_decide as Htext; [done|].
      rewrite decide_False by congruence. by rewrite app_nil_r.
    + assert (toString lib a.2 ≠ "") as Hne.
      { intros Heq. apply Hlen. by apply length_zero_empty. }
      pose proof (IH (toString lib a.2)) as Hold.
      rewrite decide_False in Hold by done.
      destruct (map_get (toString lib a.2) (compress lib adds)) as [mons|] eqn:Hget;
        rewrite map_get_set;
        (destruct (decide (toString lib a.2 = text)) as [<- |Hd];
         [rewrite decide_False by done|by rewrite IH, app_nil_r]).
      * destruct (group lib adds (toString lib a.2)) as [|m ms]; [done|].
        by injection Hold as ->.
      * by destruct (group lib adds (toString lib a.2)).
Qed.

Lemma compressed_compile_clauses {Macro} (lib : MacroLib Macro) (c : CompressedMacro) :
  compressed_compile lib c =
  fold_left (fun result clause => if_ lib result clause.1 clause.2)
    (clauses c) (new_Macro lib).
Proof.
  unfold compressed_compile, clauses. generalize (new_Macro lib) as init.
  induction c as [|[text mons] c IH]; intros init; simpl; [done|]. by rewrite IH.
Qed.

Lemma monster_macros_compress {W Macro} (lib : MacroLib Macro) (h : Heap W Macro)
    this w :
  monster_macros lib h this w = compress lib (macro_targets lib h this w).
Proof.
  unfold monster_macros, compress, macro_targets.
  generalize (@nil (string * list Monster)) as c.
  induction (macro_maps h (macros (strategies h this))) as [|entry l IH];
    intros c; simpl; [done|]. by rewrite IH.
Qed.

Lemma monster_actions_compress {W Macro} (lib : MacroLib Macro) (h : Heap W Macro)
    this resources defaults :
  monster_actions lib h this resources defaults =
  compress lib (action_targets lib h this resources defaults).
Proof.
  unfold monster_actions, compress, action_targets.
  generalize (@nil (string * list Monster)) as c.
  induction (action_maps h (actions (strategies h this))) as [|entry l IH];
    intros c; simpl; [done|].
  destruct (resolve_action lib resources defaults entry.2 (TargetMonster entry.1));
    simpl; by rewrite IH.
Qed.

Lemma distinct_elem (x : string) l : x ∈ distinct l ↔ x ∈ l.
Proof.
  induction l as [|y l IH]; simpl; [done|].
  rewrite !elem_of_cons, list_elem_of_filter, IH.
  destruct (decide (x = y)) as [->|Hne]; [by split; left|].
  split; [intros [?|[_ ?]]; [by left|by right]|intros [?|?]; [by left|by right]].
Qed.

Lemma distinct_NoDup l : NoDup (distinct l).
Proof.
  induction l as [|y l IH]; simpl; [apply NoDup_nil_2|].
  apply NoDup_cons. split; [|by apply NoDup_filter].
  intros [Hne _]%list_elem_of_filter. by apply Hne.
Qed.

Lemma distinct_snoc l (x : string) :
  distinct (l ++ [x]) = if decide (x ∈ l) then distinct l else distinct l ++ [x].
Proof.
  induction l as [|y l IH]; cbn [app distinct].
  - rewrite decide_False; [done|]. by intros ?%elem_of_nil.
  - rewrite IH. destruct (decide (x ∈ l)) as [Hin|Hout].
    + rewrite decide_True; [done|]. by right.
    + rewrite filter_app, filter_cons, filter_nil.
      destruct (decide (x = y)) as [->|Hne].
      * rewrite decide_False by (by intros H; apply H).
        rewrite decide_True by left. by rewrite app_nil_r.
      * rewrite decide_True by done. rewrite decide_False; [done|].
        by intros [?|?]%elem_of_cons.
Qed.

Lemma block_texts_elem {Macro} (lib : MacroLib Macro) targets text :
  text ∈ block_texts lib targets ↔
  text ≠ "" ∧ ∃ a, a ∈ targets ∧ toString lib a.2 = text.
Proof.
  unfold block_texts. rewrite distinct_elem, list_elem_of_filter, list_elem_of_fmap.
  split.
  - intros [Hne (a & -> & Ha)]. split; [done|]. by exists a.
  - intros [Hne (a & Ha & <-)]. split; [done|]. by exists a.
Qed.

Lemma block_texts_snoc {Macro} (lib : MacroLib Macro) targets a :
  block_texts lib (targets ++ [a]) =
  if decide (toString lib a.2 = "") then block_texts lib targets
  else if decide (toString lib a.2 ∈ block_texts lib targets) then block_texts lib targets
  else block_texts lib targets ++ [toString lib a.2].
Proof.
  unfold block_texts. rewrite map_app, filter_app. cbn [map].
  rewrite filter_cons, filter_nil.
  destruct (decide (toString lib a.2 = "")) as [He|Hne].
  - rewrite decide_False by (by intros H; apply H). by rewrite app_nil_r.
  - rewrite decide_True by done. rewrite distinct_snoc.
    destruct (decide (toString lib a.2 ∈ filter _ _)) as [Hin|Hout].
    + rewrite decide_True; [done|]. by apply distinct_elem.
    + rewrite decide_False; [done|]. by rewrite distinct_elem.
Qed.

(** The keys of the components are the distinct non-empty texts, in the
    order in which they first occur. *)
Lemma compress_keys {Macro} (lib : MacroLib Macro) targets :
  map fst (compress lib targets) = block_texts lib targets.
Proof.
  induction targets as [|a targets IH] using rev_ind; [done|].
  rewrite compress_snoc, block_texts_snoc. unfold compressed_add.
  destruct (decide (toString lib a.2 = "")) as [He|Hne].
  { rewrite bool_decide_eq_true_2; [done|]. by apply length_zero_empty. }
  rewrite bool_decide_eq_false_2 by (by rewrite length_zero_empty).
  rewrite <- IH.
  destruct (map_get (toString lib a.2) (compress lib targets)) as [mons|] eqn:Hget.
  - rewrite decide_True.
    + unfold map_set, map_has. rewrite Hget.
      rewrite bool_decide_eq_true_2 by (by eexists). apply map_replace_keys.
    + destruct (decide (toString lib a.2 ∈ map fst (compress lib targets))); [done|].
      by apply map_get_None in n; rewrite n in Hget.
  - rewrite decide_False by (by apply map_get_None).
    unfold map_set, map_has. rewrite Hget.
    rewrite bool_decide_eq_false_2 by (by intros [? ?]). by rewrite map_app.
Qed.

(** The clauses that the code issues are those of the specification. *)
Lemma compress_clauses {Macro} (lib : MacroLib Macro) targets :
  clauses (compress lib targets) = block_clauses lib targets.
Proof.
  unfold block_clauses. rewrite <- compress_keys. unfold clauses. rewrite map_map.
  apply map_ext_in. intros [text mons] Hin. apply list_elem_of_In in Hin.
  apply (map_get_elem _ _ _ (compress_NoDup lib targets)) in Hin.
  rewrite compress_get in Hin. case_decide; [done|].
  unfold clause_of. cbn [fst]. f_equal. unfold condition, group in *.
  destruct (map fst (filter _ targets)) as [|m ms] eqn:Hg; [done|].
  injection Hin as <-. rewrite <- Hg. by rewrite map_map.
Qed.

Lemma compressed_compile_emit {Macro} (lib : MacroLib Macro) targets :
  compressed_compile lib (compress lib targets) = emit lib (block_clauses lib targets).
Proof. by rewrite compressed_compile_clauses, compress_clauses. Qed.

(** C5. [CombatStrategy.compile] puts together, in the order of the
    specification, the starting macro, the block of the monster macros, the
    block of the monster actions, the default macros and the default action;
    each of the two blocks is the sequence of [if_] clauses of the
    specification's compression: one clause per distinct non-empty text of
    the macros that would run for the targets, with the text as body and with
    the guard that joins by [ || ] the tests [monsterid <id>] of all targets
    with that text. A target whose macro text is empty has no clause. *)
Theorem compile_groups_by_text {W Macro} (lib : MacroLib Macro) (h : Heap W Macro)
    (this : Ref) (resources : list (string * ResourceDo Macro))
    (defaults : option (string -> option (Target -> Macro)))
    (location : option Location) (w : W) :
  compile lib h this resources defaults location w =
    compile_order lib h this resources defaults location w
      (emit lib (block_clauses lib (macro_targets lib h this w)))
      (emit lib (block_clauses lib (action_targets lib h this resources defaults))) ∧
  ∀ targets : list (Monster * Macro),
    NoDup (block_texts lib targets) ∧
    (∀ text, text ∈ block_texts lib targets ↔
             text ≠ "" ∧ ∃ a, a ∈ targets ∧ toString lib a.2 = text) ∧
    (∀ guard text, (guard, text) ∈ block_clauses lib targets ↔
       text ∈ block_texts lib targets ∧
       guard = join " || "
                 (map (fun a => "monsterid " +:+ pretty (id a.1))
                      (filter (fun a => toString lib a.2 = text) targets))).
Proof.
  split.
  - unfold compile, compile_order.
    rewrite monster_macros_compress, monster_actions_compress.
    rewrite !compressed_compile_emit. cbv zeta.
    destruct (starting_macro (strategies h this)), (default_macro (strategies h this));
      reflexivity.
  - intros targets. split; [apply distinct_NoDup|]. split; [apply block_texts_elem|].
    intros guard text. unfold block_clauses. rewrite list_elem_of_fmap. split.
    + intros (text' & [= -> ->] & Hin). done.
    + intros [Hin ->]. by exists text.
Qed.

(** In the example the three monsters that share [attack] are guarded by one
    clause, the two that share the action [banish] by another; the empty
    macro and the action without a macro issue nothing. *)
Lemma compile_groups_by_text_witness :
  compile text_lib grouped_strategy.2 grouped_strategy.1
    [("banish", DoSkill "Snokebomb")] None None tt =
  ["if monsterid 1 || monsterid 2 || monsterid 3"; "attack"; "endif";
   "if monsterid 4"; "skill Saucestorm"; "endif";
   "if monsterid 1 || monsterid 2"; "skill Snokebomb"; "endif"].
Proof.
  destruct (compile_groups_by_text text_lib grouped_strategy.2 grouped_strategy.1
              [("banish", DoSkill "Snokebomb")] None None tt) as [-> _].
  vm_compute. reflexivity.
Defined.

(** The three monsters that share [attack] are guarded by one clause. *)
Example compile_three_targets :
  clauses (monster_macros text_lib four_targets.2 four_targets.1 tt) =
    [("monsterid 1 || monsterid 2 || monsterid 3", "attack");
     ("monsterid 4", "skill Saucestorm")] ∧
  compile text_lib four_targets.2 four_targets.1 [] None None tt =
    ["if monsterid 1 || monsterid 2 || monsterid 3"; "attack"; "endif";
     "if monsterid 4"; "skill Saucestorm"; "endif"].
Proof. split; vm_compute; reflexivity. Qed.

(** ** orderByRoute: the sort *)

Lemma insert_by_perm {A} (key : A → Z) x l : insert_by key x l ≡ₚ x :: l.
Proof.
  induction l as [|y l IH]; simpl; [done|].
  destruct (key x <=? key y); [done|]. rewrite IH. apply Permutation_swap.
Qed.

Lemma stable_sort_perm {A} (key : A → Z) l : stable_sort key l ≡ₚ l.
Proof.
  induction l as [|x l IH]; simpl; [done|]. by rewrite insert_by_perm, IH.
Qed.

Lemma ascending_cons {A} (key : A → Z) x l :
  ascending key (x :: l) ↔ (∀ y, y ∈ l → key x ≤ key y) ∧ ascending key l.
Proof.
  split.
  - intros Hasc. split.
    + intros y Hy. apply list_elem_of_lookup_1 in Hy as [j Hj].
      by apply (Hasc 0%nat (S j) x y); [lia| |].
    + intros i j a b Hij Hi Hj. by apply (Hasc (S i) (S j) a b); [lia| |].
  - intros [Hhead Htail] i j a b Hij Hi Hj.
    destruct j as [|j]; [lia|]. simpl in Hj.
    destruct i as [|i]; simpl in Hi.
    + injection Hi as <-. apply Hhead. by eapply list_elem_of_lookup_2.
    + apply (Htail i j a b); [lia|done|done].
Qed.

Lemma insert_by_ascending {A} (key : A → Z) x l :
  ascending key l → ascending key (insert_by key x l).
Proof.
  induction l as [|y l IH]; intros Hasc; simpl.
  - apply ascending_cons. split; [|done]. intros y Hy. by apply elem_of_nil in Hy.
  - destruct (key x <=? key y) eqn:Hle.
    + apply Z.leb_le in Hle. apply ascending_cons. split; [|done].
      apply ascending_cons in Hasc as [Hhead _].
      intros z Hz. apply elem_of_cons in Hz as [-> |Hz]; [done|].
      specialize (Hhead z Hz). lia.
    + apply Z.leb_gt in Hle. apply ascending_cons in Hasc as [Hhead Htail].
      apply ascending_cons. split; [|by apply IH].
      intros z Hz. rewrite insert_by_perm in Hz.
      apply elem_of_cons in Hz as [-> |Hz]; [lia|]. by apply Hhead.
Qed.

Lemma stable_sort_ascending {A} (key : A → Z) l : ascending key (stable_sort key l).
Proof.
  induction l as [|x l IH]; simpl.
  - intros i j x y _ Hi. done.
  - by apply insert_by_ascending.
Qed.

(** Elements with the same key keep their order: the sort is stable. *)
Lemma insert_by_filter {A} (key : A → Z) (k : Z) x l :
  ascending key l →
  filter (fun y => key y = k) (insert_by key x l) =
  filter (fun y => key y = k) (x :: l).
Proof.
  induction l as [|y l IH]; intros Hasc; simpl; [done|].
  apply ascending_cons in Hasc as [Hhead Htail].
  destruct (key x <=? key y) eqn:Hle; [done|]. apply Z.leb_gt in Hle.
  rewrite (filter_cons _ y (insert_by key x l)), IH by done.
  rewrite (filter_cons _ x (y :: l)), (filter_cons _ y l), (filter_cons _ x l).
  repeat case_decide; try done. lia.
Qed.

Lemma stable_sort_stable {A} (key : A → Z) (k : Z) l :
  filter (fun y => key y = k) (stable_sort key l) = filter (fun y => key y = k) l.
Proof.
  induction l as [|x l IH]; simpl; [done|].
  rewrite insert_by_filter by apply stable_sort_ascending.
  by rewrite !filter_cons, IH.
Qed.

(** In an ascending list an element with a smaller key stands before every
    element with a larger key. *)
Lemma ascending_before {A} (key : A → Z) l i j x y :
  ascending key l → l !! i = Some x → l !! j = Some y → key x < key y →
  (i < j)%nat.
Proof.
  intros Hasc Hi Hj Hlt. destruct (decide (i < j)%nat) as [|Hge]; [done|].
  destruct (decide (i = j)) as [-> |Hne]; [rewrite Hi in Hj; injection Hj as ->; lia|].
  assert (key y ≤ key x); [|lia]. apply (Hasc j i y x); [lia|done|done].
Qed.

(** ** orderByRoute: loops *)

Lemma for_each_ind {A S : Type} (body : A → S → Outcome S) (Q : A → Prop)
    (P : list A → S → Prop) (l done : list A) (s s' : S) :
  Forall Q l → P done s →
  (∀ d x s1 s2, Q x → P d s1 → body x s1 = Returned s2 → P (d ++ [x]) s2) →
  for_each body l s = Returned s' → P (done ++ l) s'.
Proof.
  intros HQ HP Hstep. revert done s HP.
  induction HQ as [|x l Hx HQ IH]; intros done s HP; simpl.
  - intros [= <-]. by rewrite app_nil_r.
  - destruct (body x s) as [s1| |] eqn:Hbody; [|done|done]. intros Hrest.
    replace (done ++ x :: l) with ((done ++ [x]) ++ l) by (by rewrite <- app_assoc).
    apply (IH _ s1); [|done]. by apply (Hstep done x s).
Qed.

Lemma for_each_fuel {A S : Type} (body : A → S → Outcome S) (Q : A → Prop)
    (I : S → Prop) (l : list A) (s : S) :
  Forall Q l → I s →
  (∀ x s1, Q x → I s1 →
     body x s1 ≠ OutOfFuel ∧ ∀ s2, body x s1 = Returned s2 → I s2) →
  for_each body l s ≠ OutOfFuel.
Proof.
  intros HQ HI Hstep. revert s HI.
  induction HQ as [|x l Hx HQ IH]; intros s HI; simpl; [done|].
  destruct (Hstep x s Hx HI) as [Hfuel Hnext].
  destruct (body x s) as [s1| |]; [|done|done]. apply IH. by apply Hnext.
Qed.

(** More fuel does not change a result. *)
Lemma for_each_ext {A S : Type} (body body' : A → S → Outcome S) (l : list A) (s : S) :
  (∀ x s1, body x s1 ≠ OutOfFuel → body' x s1 = body x s1) →
  for_each body l s ≠ OutOfFuel → for_each body' l s = for_each body l s.
Proof.
  intros Hext. revert s. induction l as [|x l IH]; intros s; simpl; [done|].
  destruct (body x s) as [s1| |] eqn:Hbody; intros Hfuel; [| |done].
  - rewrite Hext, Hbody by (by rewrite Hbody). by apply IH.
  - by rewrite Hext, Hbody by (by rewrite Hbody).
Qed.

Lemma setPriorityRecursive_more_fuel {W} (σ : Store W) ignore fuel fuel' task p pr :
  (fuel ≤ fuel')%nat →
  setPriorityRecursive σ ignore fuel task p pr ≠ OutOfFuel →
  setPriorityRecursive σ ignore fuel' task p pr =
  setPriorityRecursive σ ignore fuel task p pr.
Proof.
  revert fuel' task p pr. induction fuel as [|fuel IH]; intros fuel' task p pr Hle;
    [done|].
  destruct fuel' as [|fuel']; [lia|]. simpl.
  destruct (pr !! task) as [[old t]|]; [|done].
  destruct (old <=? p); [done|].
  apply for_each_ext. intros x s1. apply IH. lia.
Qed.

Lemma route_from_more_fuel {W} (σ : Store W) ignore fuel fuel' i routing pr :
  (fuel ≤ fuel')%nat →
  route_from σ ignore fuel i routing pr ≠ OutOfFuel →
  route_from σ ignore fuel' i routing pr = route_from σ ignore fuel i routing pr.
Proof.
  intros Hle. revert i pr. induction routing as [|r routing IH]; intros i pr; simpl;
    [done|].
  destruct (setPriorityRecursive σ ignore fuel r (index_priority i) pr)
    as [pr1| |] eqn:Hset; intros Hfuel; [| |done].
  - rewrite (setPriorityRecursive_more_fuel σ ignore fuel fuel') by (done || by rewrite Hset).
    rewrite Hset. by apply IH.
  - rewrite (setPriorityRecursive_more_fuel σ ignore fuel fuel') by (done || by rewrite Hset).
    by rewrite Hset.
Qed.

(** ** orderByRoute: what a call of setPriorityRecursive changes *)

Section router.
Context {W : Type} (σ : Store W) (tasks : list Ref) (ignore : bool).

Lemma lowers_refl pr : lowers pr pr.
Proof. intros n. destruct (pr !! n) as [[q r]|]; [|done]. by exists q. Qed.

Lemma lowers_trans pr1 pr2 pr3 : lowers pr1 pr2 → lowers pr2 pr3 → lowers pr1 pr3.
Proof.
  intros H12 H23 n. specialize (H12 n). specialize (H23 n).
  destruct (pr1 !! n) as [[q r]|].
  - destruct H12 as (q' & Hq' & Hle). rewrite Hq' in H23.
    destruct H23 as (q'' & Hq'' & Hle'). exists q''. split; [done|lia].
  - by rewrite H12 in H23.
Qed.

Lemma lowers_tracks pr pr' : lowers pr pr' → tracks σ tasks pr → tracks σ tasks pr'.
Proof.
  intros Hl Ht n. specialize (Hl n). rewrite <- Ht.
  destruct (pr !! n) as [[q r]|].
  - destruct Hl as (q' & -> & _). done.
  - by rewrite Hl.
Qed.

Lemma lowers_insert pr task old p t :
  pr !! task = Some (old, t) → p ≤ old → lowers pr (<[ task := (p, t) ]> pr).
Proof.
  intros Hold Hle n. destruct (decide (n = task)) as [-> |Hne].
  - rewrite Hold, lookup_insert_eq. by exists p.
  - rewrite lookup_insert_ne by done. apply lowers_refl.
Qed.

Lemma initial_tracks : tracks σ tasks (initial_priorities σ tasks).
Proof. intros n. reflexivity. Qed.

Lemma setPriorityRecursive_unregistered fuel task p pr pr' :
  pr !! task = None →
  setPriorityRecursive σ ignore fuel task p pr = Returned pr' → pr' = pr.
Proof.
  intros Hnone. destruct fuel as [|fuel]; simpl; [done|]. rewrite Hnone.
  destruct ignore; [|done]. by intros [= <-].
Qed.

Lemma setPriorityRecursive_lowers fuel task p pr pr' :
  setPriorityRecursive σ ignore fuel task p pr = Returned pr' → lowers pr pr'.
Proof.
  revert task p pr pr'. induction fuel as [|fuel IH]; intros task p pr pr'; simpl;
    [done|].
  destruct (pr !! task) as [[old t]|] eqn:Hold.
  - destruct (old <=? p) eqn:Hle.
    + intros [= <-]. apply lowers_refl.
    + apply Z.leb_gt in Hle. intros Hloop.
      apply (lowers_trans _ (<[ task := (p, t) ]> pr)).
      { apply (lowers_insert _ _ old); [done|lia]. }
      apply (for_each_ind _ (fun _ => True)
               (fun _ s => lowers (<[ task := (p, t) ]> pr) s) _ [] _ _) in Hloop.
      * done.
      * by apply Forall_forall.
      * apply lowers_refl.
      * intros d x s1 s2 _ Hs1 Hbody. apply (lowers_trans _ s1); [done|].
        by apply (IH x (p - 1)).
  - destruct ignore; [|done]. intros [= <-]. apply lowers_refl.
Qed.

Lemma registered_lookup pr n q r :
  tracks σ tasks pr → pr !! n = Some (q, r) → registered σ tasks n = Some r.
Proof. intros Ht Hn. rewrite <- Ht, Hn. done. Qed.

Lemma lookup_registered pr n r :
  tracks σ tasks pr → registered σ tasks n = Some r → ∃ q, pr !! n = Some (q, r).
Proof.
  intros Ht Hn. rewrite <- Ht in Hn. destruct (pr !! n) as [[q r']|]; [|done].
  injection Hn as ->. by exists q.
Qed.

(** The edge from a visited task to one of its registered requirements. *)
Lemma requires_step pr task old t x qx rx :
  tracks σ tasks pr → pr !! task = Some (old, t) → x ∈ after_list (σ t) →
  pr !! x = Some (qx, rx) → requires σ tasks task x.
Proof.
  intros Ht Htask Hx Hreg. exists t. split; [by eapply registered_lookup|].
  split; [done|]. exists rx. by eapply registered_lookup.
Qed.

(** A call changes nothing outside the names reachable from [task]. *)
Lemma setPriorityRecursive_frame fuel task p pr pr' n :
  tracks σ tasks pr →
  setPriorityRecursive σ ignore fuel task p pr = Returned pr' →
  ¬ rtc (requires σ tasks) task n → pr' !! n = pr !! n.
Proof.
  revert task p pr pr'. induction fuel as [|fuel IH]; intros task p pr pr' Ht; simpl;
    [done|].
  destruct (pr !! task) as [[old t]|] eqn:Hold.
  - destruct (old <=? p) eqn:Hle; [by intros [= <-]|].
    apply Z.leb_gt in Hle. intros Hloop Hfar.
    assert (n ≠ task) as Hne by (intros ->; by apply Hfar).
    assert (lowers pr (<[ task := (p, t) ]> pr)) as Hlow.
    { apply (lowers_insert _ _ old); [done|lia]. }
    apply (for_each_ind _ (fun x => x ∈ after_list (σ t))
             (fun _ s => lowers (<[ task := (p, t) ]> pr) s ∧ s !! n = pr !! n)
             _ [] _ _) in Hloop.
    + by destruct Hloop as (_ & ?).
    + apply Forall_forall. by intros x Hx.
    + split; [apply lowers_refl|]. by rewrite lookup_insert_ne.
    + intros d x s1 s2 Hx (Hlow1 & Hn) Hbody.
      pose proof (setPriorityRecursive_lowers _ _ _ _ _ Hbody) as Hlow12.
      assert (tracks σ tasks s1) as Hts1.
      { eapply lowers_tracks; [exact Hlow1|]. by eapply lowers_tracks. }
      split; [by eapply lowers_trans|].
      destruct (s1 !! x) as [[qx rx]|] eqn:Hsx.
      * pose proof (Hlow1 task) as Htask. rewrite lookup_insert_eq in Htask.
        destruct Htask as (q' & Htask & _).
        assert (requires σ tasks task x) as Hedge by (by eapply requires_step).
        rewrite <- Hn. apply (IH x (p - 1) s1 s2); [done|done|].
        intros Hreach. apply Hfar. by eapply rtc_l.
      * apply setPriorityRecursive_unregistered in Hbody as ->; done.
  - destruct ignore; [|done]. by intros [= <-].
Qed.

Lemma registered_name n r :
  registered σ tasks n = Some r → r ∈ tasks ∧ name (σ r) = n.
Proof.
  unfold registered, initial_priorities. intros Hreg.
  destruct (fold_left _ tasks ∅ !! n) as [[q r']|] eqn:Hlook; [|done].
  injection Hreg as ->.
  apply (fold_insert_Some (fun r => name (σ r)) (fun r => (sentinel, r))) in Hlook
    as (x & Hx & Hname & [= _ ->]). done.
Qed.

(** Pairwise distinct registered names are no more than the tasks. *)
Lemma registered_path_length (path : list string) :
  NoDup path → (∀ n, n ∈ path → is_Some (registered σ tasks n)) →
  (length path ≤ length tasks)%nat.
Proof.
  intros Hnd Hreg.
  rewrite <- (length_map (fun r => name (σ r)) tasks).
  apply submseteq_length, NoDup_submseteq; [done|].
  intros n Hn. destruct (Hreg n Hn) as [r Hr].
  apply registered_name in Hr as [Hr <-].
  apply list_elem_of_fmap. by exists r.
Qed.

(** Below a task that reaches no cycle, a call stack of [path] and fuel
    for the remaining names is enough. *)
Lemma setPriorityRecursive_fuel fuel task p pr (path : list string) :
  tracks σ tasks pr →
  NoDup path →
  (∀ n, n ∈ path → is_Some (registered σ tasks n)) →
  (∀ n, n ∈ path → tc (requires σ tasks) n task) →
  (∀ n, rtc (requires σ tasks) task n → ¬ tc (requires σ tasks) n n) →
  (length tasks < fuel + length path)%nat →
  setPriorityRecursive σ ignore fuel task p pr ≠ OutOfFuel.
Proof.
  revert task p pr path.
  induction fuel as [|fuel IH]; intros task p pr path Ht Hnd Hreg Hpath Hacyc Hfuel.
  { pose proof (registered_path_length path Hnd Hreg). simpl in Hfuel. lia. }
  simpl. destruct (pr !! task) as [[old t]|] eqn:Hold; [|by destruct ignore].
  destruct (old <=? p) eqn:Hle; [done|]. apply Z.leb_gt in Hle.
  assert (task ∉ path) as Hfresh.
  { intros Hin. by apply (Hacyc task); [apply rtc_refl|apply Hpath]. }
  assert (is_Some (registered σ tasks task)) as Hregt.
  { exists t. by eapply registered_lookup. }
  assert (length (task :: path) ≤ length tasks)%nat as Hlen.
  { apply registered_path_length; [by apply NoDup_cons|].
    intros n Hn. apply elem_of_cons in Hn as [-> |Hn]; [done|by apply Hreg]. }
  simpl in Hlen.
  apply (for_each_fuel _ (fun x => x ∈ after_list (σ t))
           (fun s => lowers (<[ task := (p, t) ]> pr) s)).
  - apply Forall_forall. by intros x Hx.
  - apply lowers_refl.
  - intros x s1 Hx Hlow1.
    split; [|intros s2 Hbody; eapply lowers_trans; [exact Hlow1|];
             by eapply setPriorityRecursive_lowers].
    assert (tracks σ tasks s1) as Hts1.
    { eapply lowers_tracks; [exact Hlow1|].
      eapply lowers_tracks; [|exact Ht]. apply (lowers_insert _ _ old); [done|lia]. }
    destruct (s1 !! x) as [[qx rx]|] eqn:Hsx.
    + pose proof (Hlow1 task) as Htask. rewrite lookup_insert_eq in Htask.
      destruct Htask as (q' & Htask & _).
      assert (requires σ tasks task x) as Hedge by (by eapply requires_step).
      apply (IH x (p - 1) s1 (task :: path)); [done|by apply NoDup_cons| | | |].
      * intros n Hn. apply elem_of_cons in Hn as [-> |Hn]; [done|by apply Hreg].
      * intros n Hn. apply elem_of_cons in Hn as [-> |Hn]; [by apply tc_once|].
        eapply tc_r; [by apply Hpath|done].
      * intros n Hn. apply Hacyc. by eapply rtc_l.
      * simpl. lia.
    + destruct fuel as [|fuel]; [lia|]. simpl. rewrite Hsx. by destruct ignore.
Qed.

(** A call on a task that reaches no cycle re-establishes [settled], and
    leaves the task at the given priority or lower. *)
Lemma setPriorityRecursive_settled fuel task p pr pr' (S : string → Prop) :
  tracks σ tasks pr →
  (∀ n, rtc (requires σ tasks) task n → ¬ tc (requires σ tasks) n n) →
  (∀ n, S n → ¬ rtc (requires σ tasks) task n) →
  settled σ S pr →
  setPriorityRecursive σ ignore fuel task p pr = Returned pr' →
  settled σ S pr' ∧ (∀ q r, pr' !! task = Some (q, r) → q ≤ p).
Proof.
  revert task p pr pr' S.
  induction fuel as [|fuel IH]; intros task p pr pr' S Ht Hacyc HS Hset; simpl;
    [done|].
  destruct (pr !! task) as [[old t]|] eqn:Hold.
  2:{ destruct ignore; [|done]. intros [= <-]. split; [done|].
      intros q r. by rewrite Hold. }
  destruct (old <=? p) eqn:Hle.
  { apply Z.leb_le in Hle. intros [= <-]. split; [done|].
    intros q r. rewrite Hold. by intros [= <- <-]. }
  apply Z.leb_gt in Hle. intros Hloop.
  set (pr1 := <[ task := (p, t) ]> pr) in *.
  assert (lowers pr pr1) as Hlow by (apply (lowers_insert _ _ old); [done|lia]).
  assert (tracks σ tasks pr1) as Ht1 by (by eapply lowers_tracks).
  set (S' := fun n => S n ∨ n = task).
  assert (settled σ S' pr1) as Hset1.
  { intros n pn r m pm rm Hn HnS Hpn Hm Hpm.
    assert (n ≠ task) as Hne by (intros ->; apply HnS; by right).
    unfold pr1 in Hn. rewrite lookup_insert_ne in Hn by done.
    assert (¬ S n) as HnS' by (intros ?; apply HnS; by left).
    destruct (decide (m = task)) as [-> |Hme].
    - unfold pr1 in Hpm. rewrite lookup_insert_eq in Hpm. injection Hpm as <- <-.
      pose proof (Hset n pn r task old t Hn HnS' Hpn Hm Hold). lia.
    - unfold pr1 in Hpm. rewrite lookup_insert_ne in Hpm by done.
      by apply (Hset n pn r m pm rm). }
  apply (for_each_ind _ (fun x => x ∈ after_list (σ t))
           (fun done s =>
              lowers pr1 s ∧ settled σ S' s ∧ s !! task = Some (p, t) ∧
              ∀ m pm rm, m ∈ done → s !! m = Some (pm, rm) → pm ≤ p - 1)
           _ [] _ _) in Hloop.
  - destruct Hloop as (Hlowf & Hsetf & Htaskf & Hdone). simpl in Hdone. split.
    + intros n pn r m pm rm Hn HnS Hpn Hm Hpm.
      destruct (decide (n = task)) as [-> |Hne].
      * rewrite Htaskf in Hn. injection Hn as <- <-. by apply (Hdone m pm rm).
      * apply (Hsetf n pn r m pm rm); try done. by intros [?|?].
    + intros q r. rewrite Htaskf. by intros [= <- <-].
  - apply Forall_forall. by intros x Hx.
  - split; [apply lowers_refl|]. split; [done|]. split; [apply lookup_insert_eq|].
    intros m pm rm Hm. by apply elem_of_nil in Hm.
  - intros d x s1 s2 Hx (Hlow1 & Hset1' & Htask1 & Hdone) Hbody.
    pose proof (setPriorityRecursive_lowers _ _ _ _ _ Hbody) as Hlow12.
    assert (tracks σ tasks s1) as Hts1 by (by eapply lowers_tracks).
    destruct (s1 !! x) as [[qx rx]|] eqn:Hsx.
    + assert (requires σ tasks task x) as Hedge by (by eapply requires_step).
      assert (¬ rtc (requires σ tasks) x task) as Hback.
      { intros Hreach. apply (Hacyc task); [apply rtc_refl|].
        eapply tc_rtc_r; [apply tc_once; exact Hedge|exact Hreach]. }
      destruct (IH x (p - 1) s1 s2 S') as [Hset2 Hx2]; try done.
      * intros n Hn. apply Hacyc. by eapply rtc_l.
      * intros n [Hn| ->] Hreach; [|done]. apply (HS n Hn). by eapply rtc_l.
      * split; [by eapply lowers_trans|]. split; [done|]. split.
        -- rewrite <- Htask1. by eapply setPriorityRecursive_frame.
        -- intros m pm rm Hm Hpm. apply elem_of_app in Hm as [Hm|Hm].
           ++ pose proof (Hlow12 m) as Hlm.
              destruct (s1 !! m) as [[qm rm']|] eqn:Hsm; [|congruence].
              destruct Hlm as (q' & Hq' & Hle'). rewrite Hpm in Hq'.
              injection Hq' as <- <-.
              pose proof (Hdone m qm rm Hm Hsm). lia.
           ++ apply list_elem_of_singleton in Hm as ->. by apply (Hx2 pm rm).
    + apply setPriorityRecursive_unregistered in Hbody as ->; [|done].
      split; [done|]. split; [done|]. split; [done|].
      intros m pm rm Hm Hpm. apply elem_of_app in Hm as [Hm|Hm].
      * by apply (Hdone m pm rm).
      * apply list_elem_of_singleton in Hm as ->. congruence.
Qed.

(** After the loop over [routing]: [settled] everywhere, and the entry of
    index [j] is at priority [j] or lower. *)
Lemma route_from_settled fuel i routing pr prf :
  tracks σ tasks pr → settled σ (fun _ => False) pr →
  (∀ r n, r ∈ routing → rtc (requires σ tasks) r n → ¬ tc (requires σ tasks) n n) →
  route_from σ ignore fuel i routing pr = Returned prf →
  lowers pr prf ∧ settled σ (fun _ => False) prf ∧
  ∀ j r q ref, routing !! j = Some r → prf !! r = Some (q, ref) →
               q ≤ index_priority (i + j).
Proof.
  revert i pr. induction routing as [|r routing IH]; intros i pr Ht Hset Hacyc; simpl.
  - intros [= <-]. split; [apply lowers_refl|]. split; [done|]. by intros j.
  - destruct (setPriorityRecursive σ ignore fuel r (index_priority i) pr)
      as [pr1| |] eqn:Hcall; [|done|done]. intros Hrest.
    pose proof (setPriorityRecursive_lowers _ _ _ _ _ Hcall) as Hlow1.
    destruct (setPriorityRecursive_settled _ _ _ _ _ (fun _ => False) Ht
                (fun n => Hacyc r n ltac:(left)) ltac:(done) Hset Hcall)
      as [Hset1 Hr1].
    destruct (IH (S i) pr1) as (Hlow & Hsetf & Hidx); try done.
    + by eapply lowers_tracks.
    + intros r' n Hr'. apply Hacyc. by right.
    + split; [by eapply lowers_trans|]. split; [done|].
      intros [|j] r' q ref Hj Hq; simpl in Hj.
      * injection Hj as <-. pose proof (Hlow r) as Hlr.
        destruct (pr1 !! r) as [[q1 ref1]|] eqn:Hpr1; [|congruence].
        destruct Hlr as (q' & Hq' & Hle). rewrite Hq in Hq'. injection Hq' as <- <-.
        specialize (Hr1 q1 ref eq_refl).
        replace (i + 0)%nat with i by lia. lia.
      * replace (i + S j)%nat with (S i + j)%nat by lia. by apply (Hidx j r' q ref).
Qed.

Lemma route_from_fuel fuel i routing pr :
  tracks σ tasks pr → acyclic_from σ tasks routing → (length tasks < fuel)%nat →
  route_from σ ignore fuel i routing pr ≠ OutOfFuel.
Proof.
  revert i pr. induction routing as [|r routing IH]; intros i pr Ht Hacyc Hfuel; simpl;
    [done|].
  pose proof (setPriorityRecursive_fuel fuel r (index_priority i) pr [] Ht) as Hcall.
  destruct (setPriorityRecursive σ ignore fuel r (index_priority i) pr)
    as [pr1| |] eqn:Hset; [|done|].
  - apply IH; [|intros r' n Hr'; apply Hacyc; by right|done].
    eapply lowers_tracks; [|exact Ht]. by eapply setPriorityRecursive_lowers.
  - exfalso. apply Hcall; try done.
    + apply NoDup_nil_2.
    + intros n Hn. by apply elem_of_nil in Hn.
    + intros n Hn. by apply elem_of_nil in Hn.
    + intros n. apply Hacyc. by left.
    + simpl. lia.
Qed.

(** Along dependencies the priorities go strictly down, once [settled]. *)
Lemma settled_chain pr n m :
  tracks σ tasks pr → settled σ (fun _ => False) pr → tc (requires σ tasks) n m →
  ∀ q r, pr !! n = Some (q, r) → q < sentinel →
         ∃ q' r', pr !! m = Some (q', r') ∧ q' < q.
Proof.
  intros Ht Hset Hreach.
  assert (∀ x y q r, requires σ tasks x y → pr !! x = Some (q, r) → q < sentinel →
                     ∃ q' r', pr !! y = Some (q', r') ∧ q' < q) as Hedge.
  { intros x y q r (rx & Hrx & Hy & [ry Hry]) Hq Hlt.
    pose proof (registered_lookup _ _ _ _ Ht Hq) as Hr. rewrite Hrx in Hr.
    injection Hr as ->.
    destruct (lookup_registered _ _ _ Ht Hry) as [qy Hqy].
    exists qy, ry. split; [done|].
    pose proof (Hset x q r y qy ry Hq ltac:(tauto) Hlt Hy Hqy). lia. }
  induction Hreach as [x y Hxy|x y z Hxy Hyz IH]; intros q r Hq Hlt.
  - by apply (Hedge x y q r).
  - destruct (Hedge x y q r Hxy Hq Hlt) as (qy & ry & Hqy & Hlty).
    destruct (IH qy ry Hqy ltac:(lia)) as (qz & rz & Hqz & Hltz).
    exists qz, rz. split; [done|lia].
Qed.

Lemma initial_settled : settled σ (fun _ => False) (initial_priorities σ tasks).
Proof.
  intros n pn r m pm rm Hn _ Hpn. exfalso.
  unfold initial_priorities in Hn.
  apply (fold_insert_Some (fun r => name (σ r)) (fun r => (sentinel, r))) in Hn
    as (x & _ & _ & [= <- _]). lia.
Qed.

End router.

(** ** orderByRoute: results *)

Lemma for_each_avoid {A S : Type} (body : A → S → Outcome S) (Q : A → Prop)
    (I : S → Prop) (o : Outcome S) (l : list A) (s : S) :
  (∀ s', o ≠ Returned s') → Forall Q l → I s →
  (∀ x s1, Q x → I s1 → body x s1 ≠ o ∧ ∀ s2, body x s1 = Returned s2 → I s2) →
  for_each body l s ≠ o.
Proof.
  intros Ho HQ HI Hstep. revert s HI.
  induction HQ as [|x l Hx HQ IH]; intros s HI; simpl; [apply not_eq_sym, Ho|].
  destruct (Hstep x s Hx HI) as [Hbad Hnext].
  destruct (body x s) as [s1| |]; [|done|done]. apply IH. by apply Hnext.
Qed.

Lemma setPriorityRecursive_no_throw {W} (σ : Store W) tasks ignore fuel task p pr e :
  tracks σ tasks pr →
  ignore = true ∨ (is_Some (registered σ tasks task) ∧ dependencies_known σ tasks) →
  setPriorityRecursive σ ignore fuel task p pr ≠ Thrown e.
Proof.
  revert task p pr. induction fuel as [|fuel IH]; intros task p pr Ht Hok; simpl;
    [done|].
  destruct (pr !! task) as [[old t]|] eqn:Hold.
  - destruct (old <=? p) eqn:Hle; [done|]. apply Z.leb_gt in Hle.
    apply (for_each_avoid _ (fun x => x ∈ after_list (σ t))
             (fun s => lowers (<[ task := (p, t) ]> pr) s)); [done| | |].
    + apply Forall_forall. by intros x Hx.
    + apply lowers_refl.
    + intros x s1 Hx Hlow1. split.
      * apply IH.
        -- eapply lowers_tracks; [exact Hlow1|].
           eapply lowers_tracks; [|exact Ht]. apply (lowers_insert _ _ old); [done|lia].
        -- destruct Hok as [?|[_ Hknown]]; [by left|right]. split; [|done].
           apply (Hknown task t x); [|done]. by eapply registered_lookup.
      * intros s2 Hbody. eapply lowers_trans; [exact Hlow1|].
        by eapply setPriorityRecursive_lowers.
  - destruct Hok as [-> |[[r Hr] _]]; [done|].
    destruct (lookup_registered σ tasks pr task r Ht Hr) as [q Hq]. congruence.
Qed.

Lemma route_from_no_throw {W} (σ : Store W) tasks ignore fuel i routing pr e :
  tracks σ tasks pr →
  ignore = true ∨
    ((∀ r, r ∈ routing → is_Some (registered σ tasks r)) ∧ dependencies_known σ tasks) →
  route_from σ ignore fuel i routing pr ≠ Thrown e.
Proof.
  revert i pr. induction routing as [|r routing IH]; intros i pr Ht Hok; simpl; [done|].
  pose proof (setPriorityRecursive_no_throw σ tasks ignore fuel r (index_priority i) pr e Ht)
    as Hcall.
  destruct (setPriorityRecursive σ ignore fuel r (index_priority i) pr)
    as [pr1| |] eqn:Hset; [| |done].
  - apply IH.
    + eapply lowers_tracks; [|exact Ht]. by eapply setPriorityRecursive_lowers.
    + destruct Hok as [?|[Hreg ?]]; [by left|right]. split; [|done].
      intros r' Hr'. apply Hreg. by right.
  - intros [= ->]. apply Hcall; [|done].
    destruct Hok as [?|[Hreg ?]]; [by left|right]. split; [|done]. apply Hreg. by left.
Qed.

Lemma registered_is_Some {W} (σ : Store W) tasks x :
  x ∈ tasks → is_Some (registered σ tasks (name (σ x))).
Proof.
  intros Hx. unfold registered, initial_priorities.
  destruct (fold_insert_is_Some (fun r => name (σ r)) (fun r => (sentinel, r)) tasks x Hx)
    as [v Hv]. rewrite Hv. by eexists.
Qed.

(** With pairwise distinct names, every listed task is the one registered
    under its name, so the graph that the router follows is the graph of the
    listed tasks. *)
Lemma registered_NoDup {W} (σ : Store W) tasks x :
  NoDup (map (fun r => name (σ r)) tasks) → x ∈ tasks →
  registered σ tasks (name (σ x)) = Some x.
Proof.
  intros Hnd Hx. unfold registered, initial_priorities.
  by rewrite (fold_insert_NoDup (fun r => name (σ r)) (fun r => (sentinel, r)) tasks x).
Qed.

Lemma requires_listed {W} (σ : Store W) tasks t d :
  NoDup (map (fun r => name (σ r)) tasks) → t ∈ tasks → d ∈ tasks →
  name (σ d) ∈ after_list (σ t) →
  requires σ tasks (name (σ t)) (name (σ d)).
Proof.
  intros Hnd Ht Hd Hafter. exists t. split; [by apply registered_NoDup|].
  split; [done|]. by apply registered_is_Some.
Qed.

Lemma acyclic_acyclic_from {W} (σ : Store W) tasks routing :
  acyclic σ tasks → acyclic_from σ tasks routing.
Proof. intros Hacyc r n _ _. apply Hacyc. Qed.

(** A ranking of the names that goes down along every [after] entry shows
    that there is no cycle. *)
Lemma acyclic_by_rank {W} (σ : Store W) tasks (rank : string → nat) :
  forallb (fun r => forallb (fun m => rank m <? rank (name (σ r)))%nat
                            (after_list (σ r))) tasks = true →
  acyclic σ tasks.
Proof.
  intros Hrank.
  assert (∀ n m, requires σ tasks n m → (rank m < rank n)%nat) as Hedge.
  { intros n m (r & Hr & Hm & _). apply registered_name in Hr as [Hr <-].
    rewrite forallb_forall in Hrank.
    specialize (Hrank r ltac:(by apply list_elem_of_In)).
    rewrite forallb_forall in Hrank.
    specialize (Hrank m ltac:(by apply list_elem_of_In)).
    by apply Nat.ltb_lt in Hrank. }
  assert (∀ n m, tc (requires σ tasks) n m → (rank m < rank n)%nat) as Hpath.
  { intros n m Hreach. induction Hreach as [x y Hxy|x y z Hxy _ IH].
    - by apply Hedge.
    - apply Hedge in Hxy. lia. }
  intros n Hn. apply Hpath in Hn. lia.
Qed.

(** C6. For a task list whose dependency graph has no cycle and a routing
    list whose entries name listed tasks: if the task [t] is the routing entry
    of index [i < 1000] and the task [d] is reached from [t] along [after]
    entries, then in every list that [orderByRoute] returns, [d] stands
    strictly before [t], whether or not [d] is in the routing list. The call
    does return, with a recursion depth of at most the number of tasks plus
    one, when every [after] entry names a listed task or missing tasks are
    ignored. The graph is the one the router follows: the [after] entries of
    the task registered under each name (lemma [requires_listed]: with
    pairwise distinct names, these are the dependencies of the listed
    tasks). *)
Theorem orderByRoute_dependencies_first {W} (σ : Store W) (tasks : list Ref)
    (routing : list string) (ignore_missing_tasks : bool) (i : nat) (t d : Ref) :
  acyclic σ tasks →
  (∀ r, r ∈ routing → ∃ x, x ∈ tasks ∧ name (σ x) = r) →
  t ∈ tasks → d ∈ tasks →
  routing !! i = Some (name (σ t)) → (i < 1000)%nat →
  tc (requires σ tasks) (name (σ t)) (name (σ d)) →
  (∀ fuel out,
     orderByRoute σ tasks routing ignore_missing_tasks fuel = Returned out →
     strictly_before d t out) ∧
  (ignore_missing_tasks = true ∨ dependencies_known σ tasks →
   ∃ out, orderByRoute σ tasks routing ignore_missing_tasks (S (length tasks)) =
            Returned out).
Proof.
  intros Hacyc Hrouting Ht Hd Hi Hlt Hreach. split.
  - intros fuel out. unfold orderByRoute.
    destruct (route_from σ ignore_missing_tasks fuel 0 routing
                (initial_priorities σ tasks)) as [prf| |] eqn:Hroute; [|done|done].
    intros [= <-].
    destruct (route_from_settled σ tasks ignore_missing_tasks fuel 0 routing _ prf
                (initial_tracks σ tasks) (initial_settled σ tasks)) as (Hlow & Hset & Hidx);
      [by intros r n _ _; apply Hacyc|done|].
    assert (tracks σ tasks prf) as Htr.
    { eapply lowers_tracks; [exact Hlow|apply initial_tracks]. }
    destruct (registered_is_Some σ tasks t Ht) as [rt Hrt].
    destruct (lookup_registered σ tasks prf _ _ Htr Hrt) as [qt Hqt].
    pose proof (Hidx i _ qt rt Hi Hqt) as Hqi. unfold index_priority in Hqi.
    assert (qt < sentinel) as Hqs by (unfold sentinel; lia).
    destruct (settled_chain σ tasks prf _ _ Htr Hset Hreach qt rt Hqt Hqs)
      as (qd & rd & Hqd & Hlt').
    split; [by rewrite stable_sort_perm|]. split; [by rewrite stable_sort_perm|].
    intros a b Ha Hb.
    apply (ascending_before (priority_of σ prf)
             (stable_sort (priority_of σ prf) tasks) a b d t);
      [apply stable_sort_ascending|done|done|].
    unfold priority_of. by rewrite Hqd, Hqt.
  - intros Hok. unfold orderByRoute.
    pose proof (route_from_fuel σ tasks ignore_missing_tasks (S (length tasks)) 0 routing
                  (initial_priorities σ tasks) (initial_tracks σ tasks)
                  (acyclic_acyclic_from σ tasks routing Hacyc) ltac:(lia)) as Hfuel.
    destruct (route_from σ ignore_missing_tasks (S (length tasks)) 0 routing
                (initial_priorities σ tasks)) as [prf|e|] eqn:Hroute; [by eexists| |done].
    exfalso.
    apply (route_from_no_throw σ tasks ignore_missing_tasks (S (length tasks)) 0 routing
             (initial_priorities σ tasks) e (initial_tracks σ tasks)); [|done].
    destruct Hok as [?|Hknown]; [by left|right]. split; [|done].
    intros r Hr. destruct (Hrouting r Hr) as (x & Hx & <-).
    by apply registered_is_Some.
Qed.

(** C9. When no dependency cycle can be reached from a routing entry,
    [orderByRoute] comes to an end: a recursion depth of the number of tasks
    plus one is enough, and any larger bound gives the same outcome. *)
Theorem orderByRoute_terminates {W} (σ : Store W) (tasks : list Ref)
    (routing : list string) (ignore_missing_tasks : bool) (fuel : nat) :
  acyclic_from σ tasks routing → (length tasks < fuel)%nat →
  orderByRoute σ tasks routing ignore_missing_tasks fuel ≠ OutOfFuel ∧
  orderByRoute σ tasks routing ignore_missing_tasks fuel =
  orderByRoute σ tasks routing ignore_missing_tasks (S (length tasks)).
Proof.
  intros Hacyc Hfuel.
  pose proof (route_from_fuel σ tasks ignore_missing_tasks (S (length tasks)) 0 routing
                (initial_priorities σ tasks) (initial_tracks σ tasks) Hacyc ltac:(lia))
    as Hbase.
  assert (route_from σ ignore_missing_tasks fuel 0 routing (initial_priorities σ tasks) =
          route_from σ ignore_missing_tasks (S (length tasks)) 0 routing
            (initial_priorities σ tasks)) as Heq.
  { apply route_from_more_fuel; [lia|done]. }
  unfold orderByRoute. rewrite Heq. split; [|done].
  by destruct (route_from σ ignore_missing_tasks (S (length tasks)) 0 routing
                 (initial_priorities σ tasks)).
Qed.

Lemma route_store_acyclic : acyclic route_store [0; 1; 2]%nat.
Proof. apply (acyclic_by_rank _ _ route_rank). reflexivity. Qed.

(** Routing [Q2/c] alone puts [Q1/a], on which it depends, before it, and
    leaves [Q1/b] after both. *)
Lemma orderByRoute_dependencies_first_witness :
  orderByRoute route_store [0; 1; 2]%nat ["Q2/c"] false 4 = Returned [0; 2; 1]%nat ∧
  strictly_before 0%nat 2%nat [0; 2; 1]%nat.
Proof.
  split; [vm_compute; reflexivity|].
  refine (proj1 (orderByRoute_dependencies_first route_store [0; 1; 2]%nat ["Q2/c"]
                   false 0 2%nat 0%nat route_store_acyclic _ _ _ eq_refl _ _)
            4%nat [0; 2; 1]%nat _).
  - intros r Hr. apply list_elem_of_singleton in Hr as ->. exists 2%nat.
    split; [|reflexivity]. do 2 right. left.
  - do 2 right. left.
  - left.
  - lia.
  - apply tc_once. exists 2%nat. split; [vm_compute; reflexivity|].
    split; [left|]. exists 0%nat. vm_compute. reflexivity.
  - vm_compute. reflexivity.
Defined.

Lemma orderByRoute_terminates_witness :
  orderByRoute route_store [0; 1; 2]%nat ["Q2/c"] false 4 ≠ OutOfFuel.
Proof.
  refine (proj1 (orderByRoute_terminates route_store [0; 1; 2]%nat ["Q2/c"] false 4
                   _ _)).
  - apply acyclic_acyclic_from, route_store_acyclic.
  - simpl. lia.
Defined.

Lemma setPriorityRecursive_loop fuel p q (pr : gmap string (Z * Ref)) :
  pr !! "Q/a" = Some (q, 0%nat) → p < q →
  setPriorityRecursive loop_store false fuel "Q/a" p pr = OutOfFuel.
Proof.
  revert p q pr. induction fuel as [|fuel IH]; intros p q pr Hq Hlt; [done|].
  cbn [setPriorityRecursive].
  rewrite Hq. replace (q <=? p) with false by (symmetry; apply Z.leb_gt; lia).
  change (after_list (loop_store 0%nat)) with ["Q/a"]. cbn [for_each].
  rewrite (IH (p - 1) p); [done|apply lookup_insert_eq|lia].
Qed.

Example orderByRoute_cycle fuel :
  orderByRoute loop_store [0%nat] ["Q/a"] false fuel = OutOfFuel.
Proof.
  unfold orderByRoute. cbn [route_from].
  by rewrite (setPriorityRecursive_loop fuel _ sentinel).
Qed.

(** An unknown routing entry is refused, or skipped when missing tasks are
    ignored, and then the order is the order of the input. *)
Example orderByRoute_unknown :
  orderByRoute route_store [0; 1; 2]%nat ["Q9/z"] false 4 =
    Thrown "Unknown routing task Q9/z" ∧
  orderByRoute route_store [0; 1; 2]%nat ["Q9/z"] true 4 = Returned [0; 1; 2]%nat.
Proof. split; vm_compute; reflexivity. Qed.

(** * Further properties of the same code *)

(** ** orderByRoute: tasks that no routing entry reaches *)

Lemma sublist_filter_all {A} (P : A → Prop) `{!∀ x, Decision (P x)} (l k : list A) :
  l `sublist_of` k → (∀ x, x ∈ l → P x) → l `sublist_of` filter P k.
Proof.
  induction 1 as [|x l k Hs IH|x l k Hs IH]; intros HP.
  - constructor.
  - rewrite filter_cons_True by (apply HP; left).
    constructor. apply IH. intros y Hy. apply HP. by right.
  - rewrite filter_cons. destruct (decide (P x)).
    + constructor. by apply IH.
    + by apply IH.
Qed.

Lemma route_from_frame {W} (σ : Store W) tasks ignore fuel i routing pr prf n :
  tracks σ tasks pr →
  route_from σ ignore fuel i routing pr = Returned prf →
  (∀ e, e ∈ routing → ¬ rtc (requires σ tasks) e n) →
  prf !! n = pr !! n.
Proof.
  revert i pr. induction routing as [|r rest IH]; intros i pr Htr Hrun Hun.
  - simpl in Hrun. by injection Hrun as <-.
  - simpl in Hrun.
    destruct (setPriorityRecursive σ ignore fuel r (index_priority i) pr)
      as [pr1| |] eqn:Hcall; try discriminate.
    rewrite (IH _ _ (lowers_tracks σ tasks _ _
               (setPriorityRecursive_lowers σ ignore _ _ _ _ _ Hcall) Htr) Hrun).
    + eapply setPriorityRecursive_frame; eauto. apply Hun. left.
    + intros e He. apply Hun. by right.
Qed.

Lemma initial_priority {W} (σ : Store W) tasks n q r :
  initial_priorities σ tasks !! n = Some (q, r) → q = sentinel.
Proof.
  unfold initial_priorities. revert n q r.
  induction tasks as [|x l IH] using rev_ind; intros n q r.
  - simpl. by rewrite lookup_empty.
  - rewrite fold_left_app. simpl.
    destruct (decide (name (σ x) = n)) as [->|Hne].
    + rewrite lookup_insert. case_decide; [|done]. congruence.
    + rewrite lookup_insert_ne by done. apply IH.
Qed.

Lemma unrouted_priority {W} (σ : Store W) tasks ignore fuel routing prf u :
  route_from σ ignore fuel 0 routing (initial_priorities σ tasks) = Returned prf →
  (∀ e, e ∈ routing → ¬ rtc (requires σ tasks) e (name (σ u))) →
  priority_of σ prf u = sentinel.
Proof.
  intros Hroute Hun. unfold priority_of.
  rewrite (route_from_frame σ tasks _ _ _ _ _ _ _ (initial_tracks σ tasks) Hroute Hun).
  destruct (initial_priorities σ tasks !! name (σ u)) as [[q r]|] eqn:Hq; [|done].
  by apply initial_priority in Hq.
Qed.

(** The router returns the tasks it was given, each as often as it was
    given, and the tasks that no routing entry reaches along [after] entries
    keep the order they had among themselves. *)
Theorem orderByRoute_keeps_unrouted_order {W} (σ : Store W) (tasks : list Ref)
    (routing : list string) (ignore_missing_tasks : bool) (fuel : nat)
    (out : list Ref) :
  orderByRoute σ tasks routing ignore_missing_tasks fuel = Returned out →
  out ≡ₚ tasks ∧
  ∀ l, l `sublist_of` tasks →
       (∀ u e, u ∈ l → e ∈ routing → ¬ rtc (requires σ tasks) e (name (σ u))) →
       l `sublist_of` out.
Proof.
  unfold orderByRoute. intros Hrun.
  destruct (route_from σ ignore_missing_tasks fuel 0 routing
              (initial_priorities σ tasks)) as [prf| |] eqn:Hroute; try discriminate.
  injection Hrun as <-.
  split; [apply stable_sort_perm|].
  intros l Hl Hun.
  rewrite <- (sublist_filter (fun y => priority_of σ prf y = sentinel)
                (stable_sort (priority_of σ prf) tasks)).
  rewrite stable_sort_stable.
  apply sublist_filter_all; [done|].
  intros u Hu. eapply unrouted_priority; [exact Hroute|].
  intros e He. by apply Hun.
Qed.

(** In an acyclic graph, every task that a routing entry of index below
    1000 names or reaches stands before every task that no routing entry
    reaches. *)
Theorem orderByRoute_routed_first {W} (σ : Store W) (tasks : list Ref)
    (routing : list string) (ignore_missing_tasks : bool) (fuel : nat)
    (out : list Ref) (i : nat) (e : string) (x u : Ref) :
  orderByRoute σ tasks routing ignore_missing_tasks fuel = Returned out →
  acyclic_from σ tasks routing →
  routing !! i = Some e → (i < 1000)%nat →
  x ∈ tasks → rtc (requires σ tasks) e (name (σ x)) →
  u ∈ tasks → (∀ e', e' ∈ routing → ¬ rtc (requires σ tasks) e' (name (σ u))) →
  strictly_before x u out.
Proof.
  unfold orderByRoute. intros Hrun Hacyc Hi Hlt Hx Hreach Hu Hun.
  destruct (route_from σ ignore_missing_tasks fuel 0 routing
              (initial_priorities σ tasks)) as [prf| |] eqn:Hroute; try discriminate.
  injection Hrun as <-.
  destruct (route_from_settled σ tasks _ _ _ _ _ _ (initial_tracks σ tasks)
              (initial_settled σ tasks) Hacyc Hroute) as (Hlow & Hset & Hidx).
  pose proof (lowers_tracks σ tasks _ _ Hlow (initial_tracks σ tasks)) as Htr.
  assert (Hpx : priority_of σ prf x < sentinel).
  { assert (He : ∃ q r, prf !! e = Some (q, r) ∧ q < sentinel).
    { assert (is_Some (registered σ tasks e)) as [r Hr].
      { apply rtc_inv in Hreach as [-> | (m & (r & Hr & _) & _)].
        - by apply registered_is_Some.
        - by exists r. }
      destruct (lookup_registered σ tasks _ _ _ Htr Hr) as [q Hq].
      exists q, r. split; [done|].
      specialize (Hidx _ _ _ _ Hi Hq). unfold index_priority, sentinel in *. lia. }
    destruct He as (q & r & Hq & Hqlt).
    apply rtc_tc in Hreach as [Heq | Htc].
    - unfold priority_of. by rewrite <- Heq, Hq.
    - destruct (settled_chain σ tasks _ _ _ Htr Hset Htc _ _ Hq Hqlt)
        as (q' & r' & Hq' & Hlt').
      unfold priority_of. rewrite Hq'. lia. }
  pose proof (unrouted_priority σ tasks _ _ _ _ u Hroute Hun) as Hpu.
  pose proof (stable_sort_perm (priority_of σ prf) tasks) as Hperm.
  split; [by rewrite Hperm|]. split; [by rewrite Hperm|].
  intros a b Ha Hb.
  eapply (ascending_before (priority_of σ prf));
    [apply stable_sort_ascending|exact Ha|exact Hb|lia].
Qed.

Lemma route_store_requires tasks n m :
  requires route_store tasks n m → m = "Q1/a".
Proof.
  intros (r & _ & Hm & _). destruct r as [|[|r]]; vm_compute in Hm.
  - by apply elem_of_nil in Hm.
  - by apply list_elem_of_singleton in Hm.
  - by apply list_elem_of_singleton in Hm.
Qed.

Lemma route_store_reach tasks n m :
  rtc (requires route_store tasks) n m → m = n ∨ m = "Q1/a".
Proof.
  induction 1 as [|n k m Hstep _ IH]; [by left|].
  right. apply route_store_requires in Hstep as ->.
  by destruct IH as [-> | ->].
Qed.

Lemma orderByRoute_keeps_unrouted_order_witness :
  orderByRoute route_store [0; 1; 2]%nat ["Q1/b"] false 4 = Returned [0; 1; 2]%nat ∧
  [0; 1; 2]%nat ≡ₚ [0; 1; 2]%nat.
Proof.
  assert (H : orderByRoute route_store [0; 1; 2]%nat ["Q1/b"] false 4
              = Returned [0; 1; 2]%nat) by reflexivity.
  split; [exact H|].
  exact (proj1 (orderByRoute_keeps_unrouted_order route_store _ _ _ _ _ H)).
Defined.

Lemma orderByRoute_routed_first_witness :
  orderByRoute route_store [2; 0; 1]%nat ["Q1/b"] false 4 = Returned [0; 1; 2]%nat ∧
  strictly_before 1%nat 2%nat [0; 1; 2]%nat.
Proof.
  assert (H : orderByRoute route_store [2; 0; 1]%nat ["Q1/b"] false 4
              = Returned [0; 1; 2]%nat) by reflexivity.
  split; [exact H|].
  apply (orderByRoute_routed_first route_store [2; 0; 1]%nat ["Q1/b"] false 4 _
           0%nat "Q1/b" 1%nat 2%nat H).
  - apply acyclic_acyclic_from. by apply (acyclic_by_rank _ _ route_rank).
  - reflexivity.
  - lia.
  - set_solver.
  - apply rtc_refl.
  - set_solver.
  - intros e ->%list_elem_of_singleton [Hr | Hr]%route_store_reach; discriminate.
Defined.

(** ** orderByRoute: errors *)

Lemma for_each_thrown {A S : Type} (body : A → S → Outcome S) (I : S → Prop)
    (l : list A) (s : S) e :
  I s →
  (∀ x s1 s2, x ∈ l → I s1 → body x s1 = Returned s2 → I s2) →
  for_each body l s = Thrown e →
  ∃ x s1, x ∈ l ∧ I s1 ∧ body x s1 = Thrown e.
Proof.
  revert s. induction l as [|x l IH]; intros s Hs Hstep Hrun; [discriminate|].
  simpl in Hrun. destruct (body x s) as [s2| |] eqn:Hx; try discriminate.
  - destruct (IH s2) as (y & s1 & Hy & Hs1 & Hthrown); try done.
    + eapply Hstep; eauto. left.
    + intros y s1 s3 Hy. apply Hstep. by right.
    + exists y, s1. split; [by right|done].
  - injection Hrun as <-. exists x, s. split; [left|done].
Qed.

Lemma setPriorityRecursive_thrown {W} (σ : Store W) tasks ignore fuel task p pr e :
  tracks σ tasks pr →
  setPriorityRecursive σ ignore fuel task p pr = Thrown e →
  ignore = false ∧
  ∃ x, e = unknown_routing x ∧ registered σ tasks x = None ∧
       (x = task ∨ ∃ n r, registered σ tasks n = Some r ∧ x ∈ after_list (σ r)).
Proof.
  revert task p pr. induction fuel as [|fuel IH]; intros task p pr Htr Hrun;
    [discriminate|].
  simpl in Hrun. destruct (pr !! task) as [[old t]|] eqn:Hlook.
  - destruct (old <=? p) eqn:Hle; [discriminate|].
    apply (for_each_thrown _ (tracks σ tasks)) in Hrun
      as (x & s1 & Hx & Hs1 & Hthrown).
    + destruct (IH _ _ _ Hs1 Hthrown) as (-> & y & -> & Hy & Hwhere).
      split; [done|]. exists y. split; [done|]. split; [done|].
      right. destruct Hwhere as [-> | Hdeep]; [|done].
      exists task, t. split; [|done].
      exact (registered_lookup σ tasks _ _ _ _ Htr Hlook).
    + eapply lowers_tracks; [|exact Htr].
      apply (lowers_insert _ _ old); [done|].
      apply Z.leb_gt in Hle. lia.
    + intros x s1 s2 _ Hs1 Hcall. eapply lowers_tracks; [|exact Hs1].
      eapply setPriorityRecursive_lowers; eauto.
  - destruct ignore; [discriminate|]. injection Hrun as <-.
    split; [done|]. exists task. split; [done|]. split; [|by left].
    by rewrite <- (Htr task), Hlook.
Qed.

Lemma route_from_thrown {W} (σ : Store W) tasks ignore fuel i routing pr e :
  tracks σ tasks pr →
  route_from σ ignore fuel i routing pr = Thrown e →
  ignore = false ∧
  ∃ x, e = unknown_routing x ∧ registered σ tasks x = None ∧
       (x ∈ routing ∨ ∃ n r, registered σ tasks n = Some r ∧ x ∈ after_list (σ r)).
Proof.
  revert i pr. induction routing as [|r rest IH]; intros i pr Htr Hrun; [discriminate|].
  simpl in Hrun.
  destruct (setPriorityRecursive σ ignore fuel r (index_priority i) pr)
    as [pr1| |] eqn:Hcall; try discriminate.
  - destruct (IH (S i) pr1) as (Hi & x & He & Hx & Hwhere); [|done|].
    + eapply lowers_tracks; [|exact Htr]. eapply setPriorityRecursive_lowers; eauto.
    + split; [done|]. exists x. split; [done|]. split; [done|].
      destruct Hwhere as [Hin | Hdeep]; [left; by right|by right].
  - injection Hrun as <-.
    destruct (setPriorityRecursive_thrown σ tasks _ _ _ _ _ _ Htr Hcall)
      as (Hi & x & He & Hx & Hwhere).
    split; [done|]. exists x. split; [done|]. split; [done|].
    destruct Hwhere as [-> | Hdeep]; [left; left|by right].
Qed.

Lemma unregistered_unlisted {W} (σ : Store W) tasks x :
  registered σ tasks x = None ↔ ∀ r, r ∈ tasks → name (σ r) ≠ x.
Proof.
  split.
  - intros Hnone r Hr Hname.
    destruct (registered_is_Some σ tasks r Hr) as [t Ht]. congruence.
  - intros Hnot. destruct (registered σ tasks x) as [r|] eqn:Hr; [|done].
    destruct (registered_name σ tasks _ _ Hr) as [Hin Hname].
    by destruct (Hnot r Hin).
Qed.

(** Every error of the router is [Unknown routing task x]: it is raised only
    without the tolerance flag, and [x] is the name of no listed task and is
    either a routing entry or an [after] entry of a listed task. *)
Theorem orderByRoute_throws {W} (σ : Store W) (tasks : list Ref)
    (routing : list string) (ignore_missing_tasks : bool) (fuel : nat) (e : string) :
  orderByRoute σ tasks routing ignore_missing_tasks fuel = Thrown e →
  ignore_missing_tasks = false ∧
  ∃ x, e = "Unknown routing task " +:+ x ∧
       (∀ r, r ∈ tasks → name (σ r) ≠ x) ∧
       (x ∈ routing ∨ ∃ t, t ∈ tasks ∧ x ∈ after_list (σ t)).
Proof.
  unfold orderByRoute. intros Hrun.
  destruct (route_from σ ignore_missing_tasks fuel 0 routing
              (initial_priorities σ tasks)) as [prf| |] eqn:Hroute; try discriminate.
  injection Hrun as <-.
  destruct (route_from_thrown σ tasks _ _ _ _ _ _ (initial_tracks σ tasks) Hroute)
    as (Hi & x & He & Hx & Hwhere).
  split; [done|]. exists x. split; [done|]. split; [by apply unregistered_unlisted|].
  destruct Hwhere as [Hin | (n & r & Hr & Hafter)]; [by left|right].
  exists r. split; [|done]. by destruct (registered_name σ tasks _ _ Hr).
Qed.

Lemma stable_sort_constant {A} (key : A → Z) (k : Z) (l : list A) :
  (∀ x, x ∈ l → key x = k) → stable_sort key l = l.
Proof.
  induction l as [|x l IH]; intros Hk; [done|].
  simpl. rewrite IH by (intros y Hy; apply Hk; by right).
  destruct l as [|y l]; [done|]. simpl.
  rewrite (Hk x) by left. rewrite (Hk y) by (right; left).
  by rewrite Z.leb_refl.
Qed.

Lemma route_from_unregistered {W} (σ : Store W) tasks fuel i routing pr :
  tracks σ tasks pr →
  (∀ e, e ∈ routing → registered σ tasks e = None) →
  route_from σ true (S fuel) i routing pr = Returned pr.
Proof.
  intros Htr. revert i. induction routing as [|r rest IH]; intros i Hun; [done|].
  cbn [route_from setPriorityRecursive].
  assert (pr !! r = None) as ->.
  { specialize (Htr r). rewrite Hun in Htr by left.
    by destruct (pr !! r). }
  apply IH. intros e He. apply Hun. by right.
Qed.

(** With the tolerance flag, a routing that names no listed task leaves the
    order of the tasks as it is; so does the empty routing. *)
Theorem orderByRoute_nothing_routed {W} (σ : Store W) (tasks : list Ref)
    (routing : list string) (fuel : nat) :
  (∀ e r, e ∈ routing → r ∈ tasks → name (σ r) ≠ e) →
  orderByRoute σ tasks routing true (S fuel) = Returned tasks ∧
  ∀ ignore_missing_tasks n, orderByRoute σ tasks [] ignore_missing_tasks n = Returned tasks.
Proof.
  assert (Hid : stable_sort (priority_of σ (initial_priorities σ tasks)) tasks = tasks).
  { apply (stable_sort_constant _ sentinel). intros x _. unfold priority_of.
    destruct (initial_priorities σ tasks !! name (σ x)) as [[q r]|] eqn:Hq; [|done].
    by apply initial_priority in Hq. }
  intros Hun. split.
  - unfold orderByRoute.
    rewrite (route_from_unregistered σ tasks) by
      (try apply initial_tracks; intros e He; apply unregistered_unlisted; eauto).
    by rewrite Hid.
  - intros ignore n. unfold orderByRoute. simpl. by rewrite Hid.
Qed.

(** ** getTasks: what its result is good for *)

Lemma includes_slash_app a b :
  includes_slash (a +:+ b) = includes_slash a || includes_slash b.
Proof.
  induction a as [|c a IH]; [done|].
  change (includes_slash (String c (a +:+ b)) =
          includes_slash (String c a) || includes_slash b).
  simpl. by destruct (Ascii.eqb c "/").
Qed.

Lemma includes_slash_in_quest q x : includes_slash (in_quest q x) = true.
Proof.
  unfold in_quest. rewrite !includes_slash_app. simpl. apply orb_true_r.
Qed.

Lemma includes_slash_namespace_after q a : includes_slash (namespace_after q a) = true.
Proof.
  unfold namespace_after. destruct (includes_slash a) eqn:Ha; [done|].
  apply includes_slash_in_quest.
Qed.


Lemma visit_task_namespaced {W} flag q (σ : Store W) acc r :
  (∀ x, x ∈ acc → namespaced (σ x)) →
  ∀ x, x ∈ acc ++ [r] → namespaced ((visit_task flag q (σ, acc) r).1 x).
Proof.
  intros IH x Hx.
  destruct (decide (x = r)) as [->|Hne].
  - split; [rewrite visit_task_name; case_decide; [|done];
            apply includes_slash_in_quest|].
    unfold visit_task. cbn [fst].
    set (σ1 := store_set σ r _). set (σ2 := store_set σ1 r _).
    assert (H2 : ∀ a, a ∈ after_list (σ2 r) → includes_slash a = true).
    { intros a. unfold σ2. rewrite store_set_eq. unfold σ1. rewrite store_set_eq.
      unfold after_list. simpl. destruct (after (σ r)) as [l|]; simpl.
      - intros (b & -> & _)%list_elem_of_fmap. apply includes_slash_namespace_after.
      - by intros ?%elem_of_nil. }
    destruct (last acc) as [prev|] eqn:Hlast; [|exact H2].
    destruct (flag && bool_decide (after (σ2 r) = None)); [|exact H2].
    rewrite store_set_eq. unfold after_list. simpl.
    intros a ->%list_elem_of_singleton.
    destruct (decide (prev = r)) as [->|Hp].
    + unfold σ2. rewrite store_set_eq. unfold σ1. rewrite store_set_eq. simpl.
      apply includes_slash_in_quest.
    + unfold σ2. rewrite store_set_ne by done. unfold σ1. rewrite store_set_ne by done.
      apply IH. apply last_Some in Hlast as [l' ->].
      apply elem_of_app. right. left.
  - rewrite visit_task_other by done. apply IH.
    apply elem_of_app in Hx as [Hx | ->%list_elem_of_singleton]; done.
Qed.

Lemma visit_namespaced {W} flag occs (σ : Store W) :
  ∀ x, x ∈ map snd occs →
       namespaced ((fold_left (visit_occurrence flag) occs (σ, [])).1 x).
Proof.
  induction occs as [|[q r] occs IH] using rev_ind; intros x Hx.
  - by apply elem_of_nil in Hx.
  - rewrite visit_snoc.
    destruct (fold_left (visit_occurrence flag) occs (σ, [])) as [σk acc] eqn:Hk.
    assert (Hacc : acc = map snd occs).
    { pose proof (visit_result flag occs (σ, [])) as Hres. by rewrite Hk in Hres. }
    apply visit_task_namespaced.
    + intros y Hy. apply IH. by rewrite <- Hacc.
    + by rewrite Hacc, map_app in *.
Qed.

(** Every task object listed in the quests leaves [getTasks] with a name
    and [after] entries that contain a slash, also when the call throws; so
    its name is none of the property names every object inherits. *)
Theorem getTasks_result_namespaced {W} (quests : list Quest) (implicitAfter : bool)
    (σ : Store W) (r : Ref) :
  r ∈ task_objects quests →
  let t := (getTasks quests implicitAfter σ).1 r in
  includes_slash (name t) = true ∧
  (∀ a, a ∈ after_list t → includes_slash a = true) ∧
  name t ∉ object_prototype_keys.
Proof.
  intros Hr t. unfold t. rewrite getTasks_store, namespace_all_flat.
  rewrite <- occurrences_objects in Hr.
  destruct (visit_namespaced implicitAfter _ σ r Hr) as [Hname Hafter].
  split; [done|]. split; [done|]. by apply namespaced_not_inherited.
Qed.

Lemma getTasks_result_namespaced_witness :
  1%nat ∈ task_objects example_quests ∧
  includes_slash (name ((getTasks example_quests true example_store).1 1%nat)) = true.
Proof.
  assert (H : 1%nat ∈ task_objects example_quests) by (vm_compute; set_solver).
  split; [exact H|].
  exact (proj1 (getTasks_result_namespaced example_quests true example_store 1%nat H)).
Defined.

(** When [getTasks] returns, the tasks it returns can be handed to the
    engine and to the router: every [after] entry names a returned task, so
    [available] never throws on them, and [orderByRoute] never throws for a
    routing made of their names. *)
Theorem getTasks_result_resolves {W} (quests : list Quest) (implicitAfter : bool)
    (σ : Store W) (l : list Ref) :
  (getTasks quests implicitAfter σ).2 = Returned l →
  let σ' := (getTasks quests implicitAfter σ).1 in
  (∀ t a, t ∈ l → a ∈ after_list (σ' t) → ∃ d, d ∈ l ∧ name (σ' d) = a) ∧
  (∀ t w, t ∈ l → ∃ b, available σ' (new_Engine σ' l) t w = Returned b) ∧
  (∀ routing ignore_missing_tasks fuel e,
     (∀ x, x ∈ routing → ∃ r, r ∈ l ∧ name (σ' r) = x) →
     orderByRoute σ' l routing ignore_missing_tasks fuel ≠ Thrown e).
Proof.
  intros Hret σ'. rewrite getTasks_outcome in Hret. cbn zeta in Hret. fold σ' in Hret.
  destruct (check_tasks σ' _ _) eqn:Hcheck; [discriminate|].
  injection Hret as <-.
  assert (Hknown : ∀ t a, t ∈ task_objects quests → a ∈ after_list (σ' t) →
                          ∃ d, d ∈ task_objects quests ∧ name (σ' d) = a).
  { intros t a Ht Ha. apply collect_names_spec.
    by eapply (proj1 (check_tasks_None _ _ _) Hcheck). }
  split; [exact Hknown|]. split.
  - intros t w Ht. unfold available.
    destruct (dependencies_complete_spec σ' (new_Engine σ' (task_objects quests))
                (name (σ' t)) (after_list (σ' t)) w) as (b & -> & _).
    + intros a Ha. destruct (Hknown t a Ht Ha) as (d & Hd & <-).
      by apply tasks_by_name_is_Some.
    + destruct b; [|by exists false].
      destruct (not_ready (σ' t) w); [by exists false|].
      destruct (completed (σ' t) w); by eexists.
  - intros routing ignore fuel e Hrouting Hrun. unfold orderByRoute in Hrun.
    destruct (route_from σ' ignore fuel 0 routing _) as [prf| |] eqn:Hroute;
      try discriminate.
    injection Hrun as <-. revert Hroute.
    apply (route_from_no_throw σ' (task_objects quests)); [apply initial_tracks|].
    right. split.
    + intros x Hx. destruct (Hrouting x Hx) as (r & Hr & <-).
      by apply registered_is_Some.
    + intros n r m Hr Hm. destruct (registered_name σ' _ _ _ Hr) as [Hin _].
      destruct (Hknown r m Hin Hm) as (d & Hd & <-). by apply registered_is_Some.
Qed.

Lemma getTasks_result_resolves_witness :
  (getTasks example_quests false example_store).2 = Returned [0; 1; 2]%nat ∧
  ∃ b, available (getTasks example_quests false example_store).1
         (new_Engine (getTasks example_quests false example_store).1 [0; 1; 2]%nat)
         1%nat tt = Returned b.
Proof.
  assert (H : (getTasks example_quests false example_store).2 = Returned [0; 1; 2]%nat)
    by reflexivity.
  split; [exact H|].
  apply (proj1 (proj2 (getTasks_result_resolves example_quests false example_store _ H))).
  set_solver.
Defined.

Lemma orderByRoute_throws_witness :
  orderByRoute route_store [0; 1; 2]%nat ["Q9/z"] false 4 =
    Thrown "Unknown routing task Q9/z" ∧
  ∃ x, "Unknown routing task Q9/z" = "Unknown routing task " +:+ x ∧
       (x ∈ ["Q9/z"] ∨ ∃ t, t ∈ [0; 1; 2]%nat ∧ x ∈ after_list (route_store t)).
Proof.
  assert (H : orderByRoute route_store [0; 1; 2]%nat ["Q9/z"] false 4 =
              Thrown "Unknown routing task Q9/z") by reflexivity.
  split; [exact H|].
  destruct (orderByRoute_throws route_store _ _ _ _ _ H) as (_ & x & He & _ & Hx).
  by exists x.
Defined.

Lemma orderByRoute_nothing_routed_witness :
  orderByRoute route_store [0; 1; 2]%nat ["Q9/z"] true 4 = Returned [0; 1; 2]%nat.
Proof.
  apply (orderByRoute_nothing_routed route_store [0; 1; 2]%nat ["Q9/z"] 3).
  intros e r ->%list_elem_of_singleton Hr.
  destruct r as [|[|r]]; discriminate.
Defined.

(** ** CombatStrategy: macro, action and the queries *)

Lemma update_eq {V} (f : Ref → V) r v : update f r v r = v.
Proof. unfold update. by rewrite decide_True. Qed.

Lemma update_ne {V} (f : Ref → V) r r' v : r' ≠ r → update f r v r' = f r'.
Proof. intros. unfold update. by rewrite decide_False. Qed.

Lemma map_set_new {K V} `{EqDecision K} (k : K) (v : V) (m : list (K * V)) :
  map_get k m = None → map_set k v m = m ++ [(k, v)].
Proof.
  intros Hg. unfold map_set, map_has. rewrite Hg.
  rewrite bool_decide_eq_false_2; [done|]. by intros [? ?].
Qed.

Lemma NoDup_snd_inj {A B} (l : list (A * B)) a a' b :
  NoDup (map snd l) → (a, b) ∈ l → (a', b) ∈ l → a = a'.
Proof.
  induction l as [|[a0 b0] l IH]; simpl; intros Hnd Ha Ha'.
  - by apply elem_of_nil in Ha.
  - apply NoDup_cons in Hnd as [Hb0 Hnd].
    assert (Hno : ∀ c, (c, b0) ∉ l).
    { intros c Hc. apply Hb0. apply list_elem_of_fmap. by exists (c, b0). }
    apply elem_of_cons in Ha as [Ha|Ha]; apply elem_of_cons in Ha' as [Ha'|Ha'].
    + congruence.
    + injection Ha as -> ->. by destruct (Hno a').
    + injection Ha' as -> ->. by destruct (Hno a).
    + by apply IH.
Qed.

(** One round of the loop of [macro]. *)
Lemma macro_for_spec {W Macro} (this : Ref) (x : DelayedMacro W Macro) prepend
    (h : Heap W Macro) monster :
  strategy_ok h this →
  let h' := macro_for this x prepend h monster in
  let mm := macro_maps h (macros (strategies h this)) in
  strategy_ok h' this ∧
  strategies h' = strategies h ∧
  action_maps h' = action_maps h ∧
  (next h ≤ next h')%nat ∧
  (∀ mr, mr ≠ macros (strategies h this) → macro_maps h' mr = macro_maps h mr) ∧
  (∀ r, (r < next h)%nat → r ∉ map snd mm → arrays h' r = arrays h r) ∧
  (∀ r, r ∈ map snd (macro_maps h' (macros (strategies h this))) →
        r ∈ map snd mm ∨ (next h ≤ r)%nat) ∧
  (∀ m, macros_of h' this m =
        if decide (m = monster)
        then Some (add_macros x prepend 1 (macros_list h this m))
        else macros_of h this m).
Proof.
  intros Hok h' mm. subst h'. unfold strategy_ok in Hok. cbv zeta in Hok. fold mm in Hok.
  destruct Hok as (Hkeys & Harrs & Halloc & Hdef & Hacts).
  unfold macro_for, map_has. cbv zeta. fold mm.
  destruct (map_get monster mm) as [r|] eqn:Hget.
  - rewrite bool_decide_eq_true_2 by by eexists.
    cbn [negb]. fold mm. rewrite Hget. unfold add_to_array.
    assert (Hr : r ∈ map snd mm).
    { apply list_elem_of_fmap. exists (monster, r). split; [done|].
      by apply map_get_elem. }
    split; [|split; [done|split; [done|split; [done|split; [done|split; [|split]]]]]].
    + done.
    + intros r' _ Hr'. simpl. apply update_ne. by intros ->.
    + intros r'. simpl. fold mm. by left.
    + intros m. unfold macros_of, macros_list, macros_of. simpl. fold mm.
      destruct (decide (m = monster)) as [->|Hne].
      * rewrite Hget. simpl. rewrite update_eq. unfold add_macros.
        by destruct prepend.
      * destruct (map_get m mm) as [r'|] eqn:Hget'; [|done]. simpl.
        rewrite update_ne; [done|]. intros ->.
        apply Hne. apply (map_get_elem _ _ _ Hkeys) in Hget, Hget'.
        by eapply (NoDup_snd_inj mm).
  - rewrite bool_decide_eq_false_2 by (by intros [? ?]).
    cbn [negb]. unfold new_array, fresh. cbn -[map_set map_get].
    fold mm. rewrite update_eq.
    rewrite map_get_set, decide_True by done.
    unfold add_to_array. cbn -[map_set map_get]. rewrite update_eq.
    rewrite (map_set_new _ _ _ Hget).
    assert (Hfresh : next h ∉ map snd mm).
    { intros Hin. apply Halloc in Hin. lia. }
    split; [|split; [done|split; [done|split; [lia|split; [|split; [|split]]]]]].
    + unfold strategy_ok. cbn -[map_set map_get]. fold mm. rewrite update_eq.
      rewrite !map_app. simpl.
      split; [|split; [|split; [|split]]].
      * apply NoDup_app. split; [done|]. split; [|apply NoDup_singleton].
        intros k Hk ->%list_elem_of_singleton. by apply map_get_None in Hget.
      * apply NoDup_app. split; [done|]. split; [|apply NoDup_singleton].
        by intros k Hk ->%list_elem_of_singleton.
      * intros r [Hr| ->%list_elem_of_singleton]%elem_of_app; [|lia].
        apply Halloc in Hr. lia.
      * intros d Hd. destruct (Hdef d Hd) as [Hlt Hnot]. split; [lia|].
        intros [?| ->%list_elem_of_singleton]%elem_of_app; [done|lia].
      * done.
    + intros mr Hmr. by apply update_ne.
    + intros r Hr _. rewrite !update_ne by lia. done.
    + intros r. rewrite update_eq, map_app. simpl.
      intros [?| ->%list_elem_of_singleton]%elem_of_app; [by left|right; lia].
    + intros m. unfold macros_of, macros_list, macros_of. cbn -[map_set map_get].
      fold mm. rewrite update_eq, map_get_app_None. simpl.
      destruct (decide (m = monster)) as [->|Hne].
      * rewrite Hget, decide_True by done. simpl. rewrite update_eq.
        unfold add_macros. by destruct prepend.
      * rewrite decide_False by done.
        destruct (map_get m mm) as [r'|] eqn:Hget'; [|done]. simpl.
        assert (r' ≠ next h) as Hr'.
        { intros ->. apply Hfresh.
          apply list_elem_of_fmap. exists (m, next h). split; [done|].
          by apply map_get_elem. }
        by rewrite !update_ne by done.
Qed.

Lemma times_cons m a ms :
  times m (a :: ms) = (if decide (a = m) then S (times m ms) else times m ms).
Proof. unfold times. rewrite filter_cons. by destruct (decide (a = m)). Qed.

Lemma times_zero m ms : times m ms = 0%nat ↔ m ∉ ms.
Proof.
  induction ms as [|a ms IH].
  - split; [|done]. intros _ H. by apply elem_of_nil in H.
  - rewrite times_cons, not_elem_of_cons. destruct (decide (a = m)) as [->|Hne].
    + split; [done|]. by intros [? _].
    + rewrite IH. split; [by split|by intros [_ ?]].
Qed.

Lemma add_macros_S {A} (x : A) prepend n l :
  add_macros x prepend n (add_macros x prepend 1 l) = add_macros x prepend (S n) l.
Proof.
  unfold add_macros. destruct prepend; simpl.
  - induction n as [|n IH]; simpl; [done|]. by rewrite IH.
  - by rewrite <- app_assoc.
Qed.

(** The whole loop of [macro]. *)
Lemma macro_loop_spec {W Macro} (this : Ref) (x : DelayedMacro W Macro) prepend
    (ms : list Monster) (h : Heap W Macro) :
  strategy_ok h this →
  let h' := fold_left (macro_for this x prepend) ms h in
  let mm := macro_maps h (macros (strategies h this)) in
  strategy_ok h' this ∧
  strategies h' = strategies h ∧
  action_maps h' = action_maps h ∧
  (next h ≤ next h')%nat ∧
  (∀ mr, mr ≠ macros (strategies h this) → macro_maps h' mr = macro_maps h mr) ∧
  (∀ r, (r < next h)%nat → r ∉ map snd mm → arrays h' r = arrays h r) ∧
  (∀ r, r ∈ map snd (macro_maps h' (macros (strategies h this))) →
        r ∈ map snd mm ∨ (next h ≤ r)%nat) ∧
  (∀ m, macros_of h' this m =
        match times m ms with
        | O => macros_of h this m
        | S n => Some (add_macros x prepend (S n) (macros_list h this m))
        end).
Proof.
  revert h. induction ms as [|a ms IH]; intros h Hok; cbn zeta.
  - simpl. do 6 (split; [done|]). split; [by left|done].
  - cbn [fold_left].
    destruct (macro_for_spec this x prepend h a Hok)
      as (Hok1 & Hs1 & Ha1 & Hn1 & Hm1 & Harr1 & Hnew1 & Hmac1).
    destruct (IH _ Hok1) as (Hok2 & Hs2 & Ha2 & Hn2 & Hm2 & Harr2 & Hnew2 & Hmac2).
    set (h1 := macro_for this x prepend h a) in *.
    rewrite Hs1 in *.
    split; [done|]. split; [congruence|]. split; [congruence|]. split; [lia|].
    split; [|split; [|split]].
    + intros mr Hmr. by rewrite Hm2, Hm1.
    + intros r Hr Hnot. rewrite Harr2, Harr1; try done; [lia|].
      intros [?|?]%Hnew1; [done|lia].
    + intros r [[?|?]%Hnew1|?]%Hnew2; [by left|right; lia|right; lia].
    + intros m. rewrite Hmac2, times_cons.
      unfold macros_list at 1. rewrite !Hmac1.
      destruct (decide (m = a)) as [->|Hne].
      * rewrite decide_True by done. simpl.
        destruct (times a ms); [done|]. by rewrite add_macros_S.
      * rewrite decide_False by done. done.
Qed.

Lemma macro_default_ok {W Macro} (this : Ref) (x : DelayedMacro W Macro)
    (prepend : bool) (h : Heap W Macro) :
  strategy_ok h this → strategy_ok (macro this x None prepend h) this.
Proof.
  intros (Hkeys & Harrs & Halloc & Hdef & Hacts). unfold macro.
  destruct (default_macro (strategies h this)) as [d|] eqn:Hd.
  - rewrite Hd. unfold strategy_ok, add_to_array. simpl. by rewrite Hd.
  - unfold new_array, fresh, add_to_array. simpl. rewrite !update_eq. simpl.
    rewrite !update_eq.
    unfold strategy_ok. simpl. rewrite update_eq. simpl.
    split; [done|]. split; [done|]. split; [|split; [|done]].
    + intros r Hr. apply Halloc in Hr. lia.
    + intros d' [= <-]. split; [lia|]. intros Hin. apply Halloc in Hin. lia.
Qed.

(** [macro(x, monsters, prepend)] puts [x] behind (or, with [prepend],
    before) the macros of every listed monster, once per listing, creating
    the list where there was none; [macro(x, undefined, prepend)] does the
    same with the default macros. Nothing else of the strategy changes. *)
Theorem macro_adds {W Macro} (this : Ref) (x : DelayedMacro W Macro)
    (prepend : bool) (h : Heap W Macro) :
  strategy_ok h this →
  (∀ ms, let h' := macro this x (Some ms) prepend h in
     strategy_ok h' this ∧
     (∀ m, m ∈ ms →
           macros_of h' this m =
           Some (add_macros x prepend (times m ms) (macros_list h this m))) ∧
     (∀ m, m ∉ ms → macros_of h' this m = macros_of h this m) ∧
     default_macros_of h' this = default_macros_of h this ∧
     (∀ m, currentStrategy this m h' = currentStrategy this m h) ∧
     starting_macro (strategies h' this) = starting_macro (strategies h this)) ∧
  (let h' := macro this x None prepend h in
     strategy_ok h' this ∧
     default_macros_of h' this =
       Some (add_macros x prepend 1 (default [] (default_macros_of h this))) ∧
     (∀ m, macros_of h' this m = macros_of h this m) ∧
     (∀ m, currentStrategy this m h' = currentStrategy this m h) ∧
     starting_macro (strategies h' this) = starting_macro (strategies h this)).
Proof.
  intros Hok. split.
  - intros ms h'. subst h'. unfold macro.
    destruct (macro_loop_spec this x prepend ms h Hok)
      as (Hok' & Hs & Ha & Hn & Hm & Harr & Hnew & Hmac).
    split; [done|]. split; [|split; [|split; [|split]]].
    + intros m Hm'. rewrite Hmac.
      destruct (times m ms) eqn:Ht; [|done]. by apply times_zero in Ht.
    + intros m Hm'. rewrite Hmac. by apply times_zero in Hm' as ->.
    + unfold default_macros_of. rewrite Hs.
      destruct (default_macro (strategies h this)) as [d|] eqn:Hd; [|done]. simpl.
      destruct Hok as (_ & _ & _ & Hdef & _). destruct (Hdef d Hd) as [Hlt Hnot].
      by rewrite Harr.
    + intros m. unfold currentStrategy. by rewrite Hs, Ha.
    + by rewrite Hs.
  - intros h'. subst h'. split; [by apply macro_default_ok|]. unfold macro.
    destruct Hok as (Hkeys & Harrs & Halloc & Hdef & Hacts).
    destruct (default_macro (strategies h this)) as [d|] eqn:Hd.
    + rewrite Hd. destruct (Hdef d eq_refl) as [Hlt Hnot].
      unfold add_to_array.
      split; [|split; [|split]].
      * unfold default_macros_of. simpl. rewrite Hd. simpl. rewrite update_eq.
        unfold add_macros. by destruct prepend.
      * intros m. unfold macros_of. simpl.
        destruct (map_get m _) as [r|] eqn:Hget; [|done]. simpl.
        rewrite update_ne; [done|]. intros ->. apply Hnot.
        apply list_elem_of_fmap. exists (m, d). split; [done|].
        by apply map_get_elem.
      * done.
      * done.
    + unfold new_array, fresh, add_to_array. simpl. rewrite !update_eq. simpl.
      rewrite !update_eq.
      assert (Hfresh : next h ∉ map snd (macro_maps h (macros (strategies h this)))).
      { intros Hin. apply Halloc in Hin. lia. }
      split; [|split; [|split]].
      * unfold default_macros_of. simpl. rewrite update_eq, Hd. simpl.
        rewrite update_eq. unfold add_macros. by destruct prepend.
      * intros m. unfold macros_of. simpl. rewrite update_eq. simpl.
        destruct (map_get m _) as [r|] eqn:Hget; [|done]. simpl.
        rewrite !update_ne; [done| |]; intros ->; apply Hfresh;
          (apply list_elem_of_fmap; exists (m, next h); split; [done|];
           by apply map_get_elem).
      * intros m. unfold currentStrategy. simpl. by rewrite update_eq.
      * done.
Qed.

Lemma map_set_fold_get {K V} `{EqDecision K} (v : V) (ks : list K) (m : list (K * V)) k :
  map_get k (fold_left (fun acc k' => map_set k' v acc) ks m) =
  if bool_decide (k ∈ ks) then Some v else map_get k m.
Proof.
  revert m. induction ks as [|k0 ks IH]; intros m.
  - rewrite bool_decide_eq_false_2; [done|]. apply not_elem_of_nil.
  - cbn [fold_left]. rewrite IH, map_get_set.
    destruct (decide (k0 = k)) as [->|Hne].
    + rewrite (bool_decide_eq_true_2 (k ∈ k :: ks)) by left. by case_bool_decide.
    + case_bool_decide as Hin.
      * rewrite bool_decide_eq_true_2; [done|]. by right.
      * rewrite bool_decide_eq_false_2; [done|].
        by intros [?|?]%elem_of_cons.
Qed.

Lemma map_set_fold_NoDup {K V} `{EqDecision K} (v : V) (ks : list K) (m : list (K * V)) :
  NoDup (map fst m) → NoDup (map fst (fold_left (fun acc k' => map_set k' v acc) ks m)).
Proof.
  revert m. induction ks as [|k0 ks IH]; intros m Hnd; simpl; [done|].
  apply IH. by apply map_set_NoDup.
Qed.

(** The loop of [action]: it writes to the Map [this.actions] only. *)
Lemma action_loop_spec {W Macro} (this : Ref) (a : string) (ms : list Monster)
    (h : Heap W Macro) :
  let h' := action this a (Some ms) h in
  strategies h' = strategies h ∧ arrays h' = arrays h ∧
  macro_maps h' = macro_maps h ∧ next h' = next h ∧
  ∀ r, action_maps h' r =
       if decide (r = actions (strategies h this))
       then fold_left (fun acc m => map_set m a acc) ms (action_maps h r)
       else action_maps h r.
Proof.
  unfold action. revert h. induction ms as [|m ms IH]; intros h; cbn zeta.
  - simpl. do 4 (split; [done|]). intros r. by case_decide.
  - cbn [fold_left].
    destruct (IH (set_action_map h (actions (strategies h this))
                    (map_set m a (action_maps h (actions (strategies h this))))))
      as (Hs & Harr & Hm & Hn & Hact).
    cbn zeta in *. simpl in Hs, Harr, Hm, Hn.
    do 4 (split; [done|]). intros r. rewrite Hact. simpl.
    destruct (decide (r = actions (strategies h this))) as [->|Hne].
    + by rewrite update_eq.
    + by rewrite update_ne.
Qed.

Lemma action_ok {W Macro} (this : Ref) (a : string) (ms : option (list Monster))
    (h : Heap W Macro) :
  strategy_ok h this → strategy_ok (action this a ms h) this.
Proof.
  destruct ms as [ms|].
  - destruct (action_loop_spec this a ms h) as (Hs & Harr & Hm & Hn & Hact).
    cbn zeta in *.
    unfold strategy_ok. rewrite Hs, Hm, Hn, Hact, decide_True by done.
    intros (? & ? & ? & ? & ?). do 4 (split; [done|]).
    by apply map_set_fold_NoDup.
  - unfold action, strategy_ok. simpl. by rewrite update_eq.
Qed.

(** [action(a, monsters)] makes [a] the action of every listed monster and
    of no other; [action(a)] makes [a] the general action, which
    [currentStrategy] gives for the monsters that have no action of their
    own. Macros are left alone. *)
Theorem action_sets {W Macro} (this : Ref) (a : string) (h : Heap W Macro) :
  (∀ ms, let h' := action this a (Some ms) h in
     (∀ m, currentStrategy this m h' =
           if bool_decide (m ∈ ms) then Some a else currentStrategy this m h) ∧
     (∀ m, m ∈ ms → m ∈ where_ this a h') ∧
     getDefaultAction this h' = getDefaultAction this h ∧
     (∀ m, macros_of h' this m = macros_of h this m) ∧
     default_macros_of h' this = default_macros_of h this ∧
     (strategy_ok h this → strategy_ok h' this)) ∧
  (let h' := action this a None h in
     getDefaultAction this h' = Some a ∧
     (∀ m, currentStrategy this m h' =
           match action_of h this m with Some b => Some b | None => Some a end) ∧
     (∀ b, where_ this b h' = where_ this b h) ∧
     (∀ m, macros_of h' this m = macros_of h this m) ∧
     default_macros_of h' this = default_macros_of h this ∧
     (strategy_ok h this → strategy_ok h' this)).
Proof.
  split.
  - intros ms h'. subst h'.
    destruct (action_loop_spec this a ms h) as (Hs & Harr & Hm & Hn & Hact).
    cbn zeta in *.
    assert (Hget : ∀ m, map_get m (action_maps (action this a (Some ms) h)
                                     (actions (strategies h this))) =
                        if bool_decide (m ∈ ms) then Some a
                        else map_get m (action_maps h (actions (strategies h this)))).
    { intros m. rewrite Hact, decide_True by done. apply map_set_fold_get. }
    split; [|split; [|split; [|split; [|split]]]].
    + intros m. unfold currentStrategy. rewrite Hs, Hget. by case_bool_decide.
    + intros m Hin. unfold where_. rewrite Hs. apply list_elem_of_filter.
      rewrite Hget, bool_decide_eq_true_2 by done. split; [done|].
      pose proof (Hget m) as Hm'. rewrite bool_decide_eq_true_2 in Hm' by done.
      destruct (decide (m ∈ map fst (action_maps (action this a (Some ms) h)
                                       (actions (strategies h this))))) as [|Hnot];
        [done|].
      apply map_get_None in Hnot. congruence.
    + unfold getDefaultAction. by rewrite Hs.
    + intros m. unfold macros_of. by rewrite Hs, Hm, Harr.
    + unfold default_macros_of. by rewrite Hs, Harr.
    + apply action_ok.
  - intros h'. subst h'. unfold action.
    split; [|split; [|split; [|split; [|split]]]].
    + unfold getDefaultAction. simpl. by rewrite update_eq.
    + intros m. unfold currentStrategy, action_of. simpl. rewrite update_eq. simpl.
      by destruct (map_get m _).
    + intros b. unfold where_. simpl. by rewrite update_eq.
    + intros m. unfold macros_of. simpl. by rewrite update_eq.
    + unfold default_macros_of. simpl. by rewrite update_eq.
    + apply (action_ok this a None).
Qed.

(** [where(a)] lists, once each, the monsters whose own action is [a];
    [can(a)] holds iff [a] is the general action or [where(a)] is not empty,
    so it holds whenever [currentStrategy] gives [a] for some monster. *)
Theorem can_where {W Macro} (this : Ref) (a : string) (h : Heap W Macro) :
  strategy_ok h this →
  (∀ m, m ∈ where_ this a h ↔ action_of h this m = Some a) ∧
  NoDup (where_ this a h) ∧
  (can this a h = true ↔ getDefaultAction this h = Some a ∨ where_ this a h ≠ []) ∧
  (∀ m, currentStrategy this m h = Some a → can this a h = true).
Proof.
  intros (_ & _ & _ & _ & Hkeys).
  set (am := action_maps h (actions (strategies h this))) in *.
  assert (Hwhere : ∀ m, m ∈ where_ this a h ↔ action_of h this m = Some a).
  { intros m. unfold where_, action_of. fold am. rewrite list_elem_of_filter.
    split; [by intros [? _]|]. intros Hget. split; [done|].
    destruct (decide (m ∈ map fst am)) as [|Hnot]; [done|].
    apply map_get_None in Hnot. congruence. }
  assert (Hvalues : a ∈ map snd am ↔ where_ this a h ≠ []).
  { split.
    - intros ([m b] & -> & Hin)%list_elem_of_fmap Hnil. simpl in *.
      apply (map_get_elem _ _ _ Hkeys) in Hin.
      assert (m ∈ where_ this b h) as Hm by by apply Hwhere.
      rewrite Hnil in Hm. by apply elem_of_nil in Hm.
    - intros Hne. assert (∃ m, m ∈ where_ this a h) as [m Hm].
      { clear Hwhere. destruct (where_ this a h) as [|m l]; [done|]. exists m. left. }
      apply Hwhere in Hm. unfold action_of in Hm. fold am in Hm.
      apply (map_get_elem _ _ _ Hkeys) in Hm.
      apply list_elem_of_fmap. by exists (m, a). }
  assert (Hcan : can this a h = true ↔
                 getDefaultAction this h = Some a ∨ where_ this a h ≠ []).
  { unfold can, getDefaultAction. cbv zeta. fold am. case_bool_decide as Hd.
    - split; [|done]. intros _. by left.
    - rewrite bool_decide_eq_true, Hvalues. split; [by right|].
      intros [?|?]; [congruence|done]. }
  split; [done|]. split; [|split; [done|]].
  - unfold where_. fold am. by apply NoDup_filter.
  - intros m. unfold currentStrategy. fold am. intros Hcur. apply Hcan.
    destruct (map_get m am) as [b|] eqn:Hget.
    + right. injection Hcur as ->. intros Hnil.
      assert (m ∈ where_ this a h) as Hm by by apply Hwhere.
      rewrite Hnil in Hm. by apply elem_of_nil in Hm.
    + by left.
Qed.

Lemma new_CombatStrategy_ok {W Macro} (h : Heap W Macro) :
  strategy_ok (new_CombatStrategy h).2 (new_CombatStrategy h).1 ∧
  (∀ m, macros_of (new_CombatStrategy h).2 (new_CombatStrategy h).1 m = None) ∧
  (∀ m, action_of (new_CombatStrategy h).2 (new_CombatStrategy h).1 m = None).
Proof.
  assert (Hs : strategies (new_CombatStrategy h).2 (new_CombatStrategy h).1 =
               {| starting_macro := None; default_macro := None; macros := S (next h);
                  default_action := None; actions := S (S (next h)) |}).
  { simpl. apply update_eq. }
  assert (Hm : macro_maps (new_CombatStrategy h).2 (S (next h)) = []).
  { simpl. apply update_eq. }
  assert (Ha : action_maps (new_CombatStrategy h).2 (S (S (next h))) = []).
  { simpl. apply update_eq. }
  unfold strategy_ok, macros_of, action_of. rewrite Hs. cbn [macros actions default_macro].
  rewrite Hm, Ha.
  split; [|done]. split; [apply NoDup_nil_2|]. split; [apply NoDup_nil_2|].
  split; [by intros r ?%elem_of_nil|]. split; [done|apply NoDup_nil_2].
Qed.

Lemma macro_adds_witness :
  let s := (new_CombatStrategy empty_heap).1 in
  let h := macro s (inl "attack") (Some [crate; crate]) false
             (new_CombatStrategy empty_heap).2 in
  macros_of h s crate = Some [inl "attack"; inl "attack"].
Proof.
  intros s h.
  destruct (macro_adds s (inl "attack") false (new_CombatStrategy empty_heap).2
              (proj1 (new_CombatStrategy_ok empty_heap))) as [Hms _].
  destruct (Hms [crate; crate]) as (_ & Hadd & _).
  subst h s. rewrite (Hadd crate) by left. reflexivity.
Defined.

Lemma can_where_witness :
  let s := (new_CombatStrategy empty_heap).1 in
  let h := action s "banish" (Some [crate])
             (@new_CombatStrategy unit string empty_heap).2 in
  strategy_ok h s ∧ (can s "banish" h = true ↔
                     getDefaultAction s h = Some "banish" ∨ where_ s "banish" h ≠ []).
Proof.
  intros s h.
  assert (Hok : strategy_ok h s).
  { apply action_ok, new_CombatStrategy_ok. }
  split; [exact Hok|]. apply (can_where s "banish" h Hok).
Defined.

(** ** CombatResources *)

Lemma getMacro_get {Macro} (lib : MacroLib Macro) resources action :
  getMacro lib resources action = resource_macro lib <$> map_get action resources.
Proof. unfold getMacro. by destruct (map_get action resources) as [[]|]. Qed.

(** A provided resource is the one [has], [getMacro] and [compile] see for
    its action, it replaces an earlier one in place, and it goes before
    the default macro of the action; the other actions keep what they had,
    and providing [undefined] changes nothing. *)
Theorem provide_getMacro {Macro} (lib : MacroLib Macro)
    (resources : list (string * ResourceDo Macro)) (action : string)
    (r : ResourceDo Macro) :
  let provided := provide action (Some r) resources in
  (∀ a, getMacro lib provided a =
        if decide (a = action) then Some (resource_macro lib r)
        else getMacro lib resources a) ∧
  (∀ a, has a provided = if decide (a = action) then true else has a resources) ∧
  (∀ a, has a resources = true ↔ is_Some (getMacro lib resources a)) ∧
  (∀ defaults target,
     resolve_action lib provided defaults action target = Some (resource_macro lib r)) ∧
  (has action resources = false → all provided = all resources ++ [r]) ∧
  (has action resources = true → length (all provided) = length (all resources)) ∧
  provide action None resources = resources.
Proof.
  intros provided. subst provided. unfold provide.
  assert (Hget : ∀ a, getMacro lib (map_set action r resources) a =
                      if decide (a = action) then Some (resource_macro lib r)
                      else getMacro lib resources a).
  { intros a. rewrite !getMacro_get, map_get_set.
    destruct (decide (action = a)) as [->|Hne].
    - by rewrite decide_True.
    - by rewrite decide_False by congruence. }
  split; [exact Hget|]. split; [|split; [|split; [|split; [|split]]]].
  - intros a. unfold has, map_has. rewrite map_get_set.
    destruct (decide (action = a)) as [->|Hne].
    + rewrite decide_True by done. apply bool_decide_eq_true_2. by eexists.
    + by rewrite decide_False by congruence.
  - intros a. unfold has, map_has. rewrite bool_decide_eq_true, getMacro_get.
    by rewrite fmap_is_Some.
  - intros defaults target. unfold resolve_action.
    by rewrite Hget, decide_True.
  - unfold has, all, map_set, map_has. intros ->. by rewrite map_app.
  - unfold has, all, map_set, map_has. intros ->.
    rewrite !length_map. clear Hget.
    induction resources as [|[k v] rs IH]; simpl; [done|].
    destruct (decide (k = action)); simpl; [done|]. by rewrite IH.
  - done.
Qed.

(** ** CombatStrategy: strategies that share nothing *)

Lemma call_touches_only {W Macro} (this : Ref) (c : Call W Macro) (h : Heap W Macro) :
  strategy_ok h this →
  touches_only h (call this c h) this ∧ strategy_ok (call this c h) this.
Proof.
  intros Hok. destruct c as [x [ms|] prepend|a [ms|]|x]; unfold call.
  - destruct (macro_loop_spec this x prepend ms h Hok)
      as (Hok' & Hs & Ha & Hn & Hm & Harr & Hnew & Hmac).
    unfold macro. split; [|done]. unfold touches_only, arrays_of. rewrite Hs.
    split; [done|]. split; [done|]. split; [done|]. split; [done|].
    split; [done|]. split; [by rewrite Ha|]. split.
    + intros r Hr Hnot. apply Harr; [done|]. intros Hin. apply Hnot.
      apply elem_of_app. by left.
    + intros r [[?|?]%Hnew|?]%elem_of_app.
      * left. apply elem_of_app. by left.
      * by right.
      * left. apply elem_of_app. by right.
  - split; [|by apply macro_default_ok].
    destruct Hok as (Hkeys & Harrs & Halloc & Hdef & Hacts).
    unfold macro, touches_only, arrays_of.
    destruct (default_macro (strategies h this)) as [d|] eqn:Hd.
    + rewrite Hd. unfold add_to_array. simpl. rewrite Hd.
      do 6 (split; [done|]). split; [|by left].
      intros r _ Hnot. apply update_ne. intros ->. apply Hnot.
      apply elem_of_app. right. left.
    + unfold new_array, fresh, add_to_array. simpl. rewrite !update_eq. simpl.
      rewrite !update_eq. simpl.
      split; [lia|]. split; [by intros s Hs; apply update_ne|].
      do 4 (split; [done|]). split.
      * intros r Hr _. by rewrite !update_ne by lia.
      * intros r [?| ->%list_elem_of_singleton]%elem_of_app; [left|right; lia].
        rewrite app_nil_r. done.
  - destruct (action_loop_spec this a ms h) as (Hs & Harr & Hm & Hn & Hact).
    cbn zeta in *. split.
    + unfold touches_only, arrays_of. rewrite Hs, Hm, Harr, Hn.
      do 5 (split; [done|]). split; [|split; [done|by left]].
      intros ar Har. by rewrite Hact, decide_False.
    + by apply action_ok.
  - split.
    + unfold action, touches_only, arrays_of. simpl. rewrite !update_eq. simpl.
      split; [done|]. split; [by intros s Hs; apply update_ne|].
      do 5 (split; [done|]). by left.
    + by apply (action_ok this a None).
  - split.
    + unfold startingMacro, touches_only, arrays_of. simpl. rewrite !update_eq. simpl.
      split; [done|]. split; [by intros s Hs; apply update_ne|].
      do 5 (split; [done|]). by left.
    + unfold startingMacro, strategy_ok. simpl. by rewrite update_eq.
Qed.

Lemma arrays_of_allocated {W Macro} (h : Heap W Macro) (s : Ref) r :
  strategy_ok h s → r ∈ arrays_of h s → (r < next h)%nat.
Proof.
  intros (_ & _ & Halloc & Hdef & _). unfold arrays_of.
  intros [Hr|Hr]%elem_of_app; [by apply Halloc|].
  destruct (default_macro (strategies h s)) as [d|] eqn:Hd.
  - apply list_elem_of_singleton in Hr as ->. by destruct (Hdef d eq_refl).
  - by apply elem_of_nil in Hr.
Qed.

(** What a call on [s1] leaves alone in a strategy [s2] that shares nothing
    with it. *)
Lemma touches_only_frame {W Macro} (h h' : Heap W Macro) (s1 s2 : Ref) :
  touches_only h h' s1 → strategy_ok h s2 → separate h s1 s2 →
  contents h' s2 = contents h s2 ∧ strategy_ok h' s2 ∧ separate h' s1 s2 ∧
  (allocated h s1 → allocated h' s1) ∧ (allocated h s2 → allocated h' s2).
Proof.
  intros (Hn & Hs & Hm1 & Ha1 & Hm & Ha & Harr & Hnew) Hok2 (Hne & Hmne & Hane & Hdisj).
  assert (Hs2 : strategies h' s2 = strategies h s2) by (apply Hs; congruence).
  assert (Hmm2 : macro_maps h' (macros (strategies h s2)) =
                 macro_maps h (macros (strategies h s2))) by (apply Hm; congruence).
  assert (Ham2 : action_maps h' (actions (strategies h s2)) =
                 action_maps h (actions (strategies h s2))) by (apply Ha; congruence).
  assert (Harr2 : ∀ r, r ∈ arrays_of h s2 → arrays h' r = arrays h r).
  { intros r Hr. apply Harr; [by eapply arrays_of_allocated|].
    intros Hr1. by apply (Hdisj r). }
  assert (Hof2 : arrays_of h' s2 = arrays_of h s2).
  { unfold arrays_of. by rewrite Hs2, Hmm2. }
  split; [|split; [|split; [|split]]].
  - unfold contents. rewrite Hs2, Hmm2, Ham2.
    assert (arrays h' <$> default_macro (strategies h s2) =
            arrays h <$> default_macro (strategies h s2)) as ->.
    { destruct (default_macro (strategies h s2)) as [d|] eqn:Hd; [|done]. simpl.
      f_equal. apply Harr2. unfold arrays_of. rewrite Hd. apply elem_of_app.
      right. left. }
    assert (map (fun e : Monster * Ref => (e.1, arrays h' e.2))
              (macro_maps h (macros (strategies h s2))) =
            map (fun e : Monster * Ref => (e.1, arrays h e.2))
              (macro_maps h (macros (strategies h s2)))) as ->; [|done].
    apply list_fmap_ext. intros i [m r] Hi. simpl. f_equal. apply Harr2.
    unfold arrays_of. apply elem_of_app. left. apply list_elem_of_fmap.
    exists (m, r). split; [done|]. by eapply list_elem_of_lookup_2.
  - destruct Hok2 as (Hkeys & Harrs & Halloc & Hdef & Hacts).
    unfold strategy_ok. rewrite Hs2, Hmm2, Ham2.
    split; [done|]. split; [done|]. split; [|split; [|done]].
    + intros r Hr. apply Halloc in Hr. lia.
    + intros d Hd. destruct (Hdef d Hd). split; [lia|done].
  - split; [done|]. rewrite Hs2, Hm1, Ha1, Hof2. split; [done|]. split; [done|].
    intros r [Hr|Hr]%Hnew; [by apply Hdisj|].
    intros Hr2. apply (arrays_of_allocated _ _ _ Hok2) in Hr2. lia.
  - unfold allocated. rewrite Hm1, Ha1. intros (? & ? & ?). repeat split; lia.
  - unfold allocated. rewrite Hs2. intros (? & ? & ?). repeat split; lia.
Qed.

(** The queries and [compile] read a strategy through its contents only. *)
Lemma contents_observed {W Macro} (h h' : Heap W Macro) (s s' : Ref) :
  contents h' s' = contents h s →
  (∀ m, macros_of h' s' m = macros_of h s m) ∧
  default_macros_of h' s' = default_macros_of h s ∧
  (∀ m, currentStrategy s' m h' = currentStrategy s m h) ∧
  (∀ a, can s' a h' = can s a h) ∧
  (∀ a, where_ s' a h' = where_ s a h) ∧
  (∀ (lib : MacroLib Macro) resources defaults location w,
     compile lib h' s' resources defaults location w =
     compile lib h s resources defaults location w).
Proof.
  unfold contents. intros [= Hstart Hdef Hmm Hda Ham].
  assert (Hget : ∀ (hh : Heap W Macro) (mm : list (Monster * Ref)) m,
            arrays hh <$> map_get m mm =
            map_get m (map (fun e : Monster * Ref => (e.1, arrays hh e.2)) mm)).
  { intros hh mm m. induction mm as [|[k r] mm IH]; simpl; [done|].
    by destruct (decide (k = m)). }
  assert (Hmacros : ∀ (lib : MacroLib Macro) (hh : Heap W Macro) ss w,
            monster_macros lib hh ss w =
            fold_left (fun c (e : Monster * list (DelayedMacro W Macro)) =>
                         compressed_add lib e.1
                           (step lib (new_Macro lib) (map (undelay w) e.2)) c)
              (map (fun e : Monster * Ref => (e.1, arrays hh e.2))
                 (macro_maps hh (macros (strategies hh ss)))) []).
  { intros lib hh ss w. unfold monster_macros, entry_macro.
    generalize (@nil (string * list Monster)).
    induction (macro_maps hh (macros (strategies hh ss))) as [|e l IH]; intros acc;
      simpl; [done|]. by rewrite IH. }
  split; [|split; [|split; [|split; [|split]]]].
  - intros m. unfold macros_of. by rewrite !Hget, Hmm.
  - done.
  - intros m. unfold currentStrategy. by rewrite Ham, Hda.
  - intros a. unfold can. by rewrite Ham, Hda.
  - intros a. unfold where_. by rewrite Ham.
  - intros lib resources defaults location w. unfold compile.
    rewrite !Hmacros, Hmm, Hstart, Hda. unfold monster_actions. rewrite Ham.
    assert (Hd : map (undelay w) <$> (arrays h' <$> default_macro (strategies h' s')) =
                 map (undelay w) <$> (arrays h <$> default_macro (strategies h s)))
      by by rewrite Hdef.
    destruct (default_macro (strategies h' s')), (default_macro (strategies h s));
      simpl in Hd; try discriminate; [injection Hd as ->|]; done.
Qed.

Lemma separate_sym {W Macro} (h : Heap W Macro) (s1 s2 : Ref) :
  separate h s1 s2 → separate h s2 s1.
Proof.
  intros (? & ? & ? & Hd). repeat split; try done. intros r Hr2 Hr1. by apply (Hd r).
Qed.

(** Calls of [macro], [action] and [startingMacro] on a strategy change
    nothing in a strategy that shares no object with it: its contents, and so
    what its queries and [compile] give, stay as they were, and the two
    strategies still share nothing afterwards. *)
Theorem separate_strategies_independent {W Macro} (s1 s2 : Ref)
    (cs : list (Call W Macro)) (h : Heap W Macro) :
  strategy_ok h s1 → strategy_ok h s2 → separate h s1 s2 →
  let h' := fold_left (fun h c => call s1 c h) cs h in
  strategy_ok h' s1 ∧ strategy_ok h' s2 ∧ separate h' s1 s2 ∧ separate h' s2 s1 ∧
  contents h' s2 = contents h s2 ∧
  (∀ m, macros_of h' s2 m = macros_of h s2 m) ∧
  default_macros_of h' s2 = default_macros_of h s2 ∧
  (∀ m, currentStrategy s2 m h' = currentStrategy s2 m h) ∧
  (∀ a, can s2 a h' = can s2 a h) ∧
  (∀ a, where_ s2 a h' = where_ s2 a h) ∧
  (∀ (lib : MacroLib Macro) resources defaults location w,
     compile lib h' s2 resources defaults location w =
     compile lib h s2 resources defaults location w).
Proof.
  intros Hok1 Hok2 Hsep h'. subst h'.
  assert (Hinv : strategy_ok (fold_left (fun h c => call s1 c h) cs h) s1 ∧
                 strategy_ok (fold_left (fun h c => call s1 c h) cs h) s2 ∧
                 separate (fold_left (fun h c => call s1 c h) cs h) s1 s2 ∧
                 contents (fold_left (fun h c => call s1 c h) cs h) s2 = contents h s2).
  { induction cs as [|c cs IH] using rev_ind; [done|].
    rewrite fold_left_app. cbn [fold_left].
    destruct IH as (IH1 & IH2 & IHsep & IHc).
    destruct (call_touches_only s1 c _ IH1) as [Htouch Hok1'].
    destruct (touches_only_frame _ _ s1 s2 Htouch IH2 IHsep) as (Hc & Hok2' & Hsep' & _).
    split; [done|]. split; [done|]. split; [done|]. by rewrite Hc. }
  destruct Hinv as (H1 & H2 & H3 & H4).
  split; [done|]. split; [done|]. split; [done|]. split; [by apply separate_sym|].
  split; [done|]. by apply contents_observed.
Qed.

(** [new CombatStrategy()] gives an empty strategy that shares nothing with
    the strategies already there, and leaves those as they are. *)
Theorem new_CombatStrategy_separate {W Macro} (h : Heap W Macro) (s1 : Ref) :
  strategy_ok h s1 → allocated h s1 →
  let s2 := (new_CombatStrategy h).1 in
  let h' := (new_CombatStrategy h).2 in
  separate h' s1 s2 ∧ strategy_ok h' s1 ∧ strategy_ok h' s2 ∧
  allocated h' s1 ∧ allocated h' s2 ∧
  contents h' s1 = contents h s1 ∧
  contents h' s2 = (None, None, [], None, []).
Proof.
  intros Hok1 (Hs1 & Hm1 & Ha1) s2 h'.
  assert (Hs : strategies h' s2 =
               {| starting_macro := None; default_macro := None; macros := S (next h);
                  default_action := None; actions := S (S (next h)) |}).
  { simpl. apply update_eq. }
  assert (Hm : macro_maps h' (S (next h)) = []) by (simpl; apply update_eq).
  assert (Ha : action_maps h' (S (S (next h))) = []) by (simpl; apply update_eq).
  assert (Hs' : strategies h' s1 = strategies h s1).
  { simpl. apply update_ne. lia. }
  assert (Hm' : macro_maps h' (macros (strategies h s1)) =
                macro_maps h (macros (strategies h s1))).
  { simpl. apply update_ne. lia. }
  assert (Ha' : action_maps h' (actions (strategies h s1)) =
                action_maps h (actions (strategies h s1))).
  { simpl. apply update_ne. lia. }
  assert (Harr : arrays h' = arrays h) by done.
  assert (Hn : next h' = S (S (S (next h)))) by done.
  assert (Hof2 : arrays_of h' s2 = []).
  { unfold arrays_of. rewrite Hs. cbn [macros default_macro]. by rewrite Hm. }
  split; [|split; [|split; [|split; [|split; [|split]]]]].
  - split; [subst s2; simpl; lia|]. rewrite Hs', Hs. cbn [macros actions].
    split; [lia|]. split; [lia|]. intros r _. rewrite Hof2. apply not_elem_of_nil.
  - destruct Hok1 as (Hkeys & Harrs & Halloc & Hdef & Hacts).
    unfold strategy_ok. rewrite Hs', Hm', Ha', Hn.
    split; [done|]. split; [done|]. split; [|split; [|done]].
    + intros r Hr. apply Halloc in Hr. lia.
    + intros d Hd. destruct (Hdef d Hd). split; [lia|done].
  - apply new_CombatStrategy_ok.
  - unfold allocated. rewrite Hs', Hn. repeat split; lia.
  - unfold allocated. rewrite Hs, Hn. subst s2. simpl. repeat split; lia.
  - unfold contents. by rewrite Hs', Hm', Ha', Harr.
  - unfold contents. rewrite Hs. cbn [macros actions default_macro starting_macro
                                       default_action]. by rewrite Hm, Ha.
Qed.

Lemma separate_strategies_independent_witness :
  let s1 := (@new_CombatStrategy unit string empty_heap).1 in
  let s2 := (new_CombatStrategy (new_CombatStrategy empty_heap).2).1 in
  let h := (new_CombatStrategy (new_CombatStrategy empty_heap).2).2 in
  macros_of (fold_left (fun h c => call s1 c h)
               [CallMacro (inl "attack") (Some [crate]) false; CallAction "banish" None] h)
    s2 crate = None.
Proof.
  intros s1 s2 h.
  assert (Hok1 : strategy_ok h s1).
  { unfold strategy_ok. vm_compute.
    repeat split; try apply NoDup_nil_2; try done; by intros ? ?%elem_of_nil. }
  assert (Hok2 : strategy_ok h s2).
  { unfold strategy_ok. vm_compute.
    repeat split; try apply NoDup_nil_2; try done; by intros ? ?%elem_of_nil. }
  assert (Hsep : separate h s1 s2).
  { unfold separate. vm_compute. repeat split; try done; by intros ? ?%elem_of_nil. }
  destruct (separate_strategies_independent s1 s2
              [CallMacro (inl "attack") (Some [crate]) false; CallAction "banish" None]
              h Hok1 Hok2 Hsep) as (_ & _ & _ & _ & _ & Hmacros & _).
  rewrite Hmacros. reflexivity.
Defined.

Lemma new_CombatStrategy_separate_witness :
  let s1 := (@new_CombatStrategy unit string empty_heap).1 in
  let h := (@new_CombatStrategy unit string empty_heap).2 in
  separate (new_CombatStrategy h).2 s1 (new_CombatStrategy h).1.
Proof.
  intros s1 h.
  apply (new_CombatStrategy_separate h s1).
  - apply new_CombatStrategy_ok.
  - unfold allocated. vm_compute. repeat split; lia.
Defined.

(** ** CombatStrategy.clone: what the copy holds *)

Lemma map_replace_same {K V} `{EqDecision K} (k : K) (v : V) (m : list (K * V)) :
  map_get k m = Some v → map_replace k v m = m.
Proof.
  induction m as [|[k0 v0] m IH]; simpl; [done|].
  destruct (decide (k0 = k)) as [->|Hne].
  - by intros [= ->].
  - intros Hg. by rewrite IH.
Qed.

Lemma map_set_same {K V} `{EqDecision K} (k : K) (v : V) (m : list (K * V)) :
  map_get k m = Some v → map_set k v m = m.
Proof.
  intros Hg. unfold map_set, map_has. rewrite Hg.
  rewrite bool_decide_eq_true_2 by by eexists. by apply map_replace_same.
Qed.

Lemma map_set_middle {K V} `{EqDecision K} (k : K) (v v0 : V) (p q : list (K * V)) :
  k ∉ map fst p → map_set k v (p ++ (k, v0) :: q) = p ++ (k, v) :: q.
Proof.
  intros Hk. unfold map_set, map_has.
  rewrite bool_decide_eq_true_2.
  - induction p as [|[k1 v1] p IH]; simpl.
    + by rewrite decide_True.
    + simpl in Hk. apply not_elem_of_cons in Hk as [Hne Hk].
      rewrite decide_False by done. by rewrite IH.
  - rewrite map_get_app_None.
    apply map_get_None in Hk. rewrite Hk. simpl. rewrite decide_True by done.
    by eexists.
Qed.

Lemma copied_keys n l : map fst (copied n l) = map fst l.
Proof.
  unfold copied. revert n. induction l as [|e l IH]; intros n; [done|].
  rewrite imap_cons. simpl. f_equal.
  rewrite <- (IH (S n)). f_equal. apply imap_ext. intros i x _. simpl. f_equal. lia.
Qed.

Lemma copied_snoc n l e : copied n (l ++ [e]) = copied n l ++ [(e.1, (n + length l)%nat)].
Proof.
  unfold copied. rewrite imap_app. simpl. by rewrite Nat.add_0_r.
Qed.

Lemma copied_lookup n l i e :
  l !! i = Some e → copied n l !! i = Some (e.1, (n + i)%nat).
Proof. intros Hi. unfold copied. by rewrite list_lookup_imap, Hi. Qed.

Lemma copied_values n l r : r ∈ map snd (copied n l) → (n ≤ r < n + length l)%nat.
Proof.
  intros ([m r'] & -> & Hin)%list_elem_of_fmap. simpl.
  apply list_elem_of_lookup in Hin as [i Hi].
  unfold copied in Hi. rewrite list_lookup_imap in Hi.
  destruct (l !! i) as [e|] eqn:He; [|done]. simpl in Hi. injection Hi as _ <-.
  apply lookup_lt_Some in He. lia.
Qed.

(** The loop of [clone] over [this.macros]: it runs over the entries [l]
    of the Map while it rewrites this very Map. *)
Lemma copy_macro_entries {W Macro} (result : Ref) (done todo : list (Monster * Ref))
    (h : Heap W Macro) (n : Ref) :
  let m := macros (strategies h result) in
  NoDup (map fst (done ++ todo)) →
  macro_maps h m = copied n done ++ todo →
  next h = (n + length done)%nat →
  (∀ r, r ∈ map snd todo → (r < n)%nat) →
  let h' := fold_left (copy_macro_entry result) todo h in
  strategies h' = strategies h ∧
  action_maps h' = action_maps h ∧
  next h' = (n + length (done ++ todo))%nat ∧
  (∀ mr, mr ≠ m → macro_maps h' mr = macro_maps h mr) ∧
  macro_maps h' m = copied n (done ++ todo) ∧
  (∀ r, (r < next h)%nat → arrays h' r = arrays h r) ∧
  (∀ i e, todo !! i = Some e →
          arrays h' (n + length done + i)%nat = arrays h e.2).
Proof.
  intros m. subst m. revert done h.
  induction todo as [|[k r0] todo IH]; intros done h Hnd Hmap Hnext Hold; cbn zeta.
  - simpl. rewrite !app_nil_r in *. repeat split; try done.
  - cbn [fold_left].
    set (h1 := copy_macro_entry result h (k, r0)).
    assert (Hs1 : strategies h1 = strategies h) by done.
    assert (Ha1 : action_maps h1 = action_maps h) by done.
    assert (Hn1 : next h1 = S (next h)) by done.
    assert (Harr1 : ∀ r, arrays h1 r = if decide (r = next h) then arrays h r0
                                        else arrays h r).
    { intros r. unfold h1, copy_macro_entry, new_array, fresh. simpl.
      unfold update. by destruct (decide (r = next h)). }
    assert (Hmm1 : ∀ mr, macro_maps h1 mr =
                         if decide (mr = macros (strategies h result))
                         then copied n (done ++ [(k, r0)]) ++ todo
                         else macro_maps h mr).
    { intros mr. unfold h1, copy_macro_entry, new_array, fresh.
      cbn -[map_set]. unfold update at 1.
      destruct (decide (mr = macros (strategies h result))) as [->|]; [|done].
      rewrite Hmap, copied_snoc, <- app_assoc. simpl. rewrite Hnext.
      apply map_set_middle. rewrite copied_keys.
      rewrite map_app in Hnd. simpl in Hnd.
      apply NoDup_app in Hnd as (_ & Hdisj & _).
      intros Hin. apply (Hdisj k Hin). left. }
    destruct (IH (done ++ [(k, r0)]) h1) as (Hs & Ha & Hn & Hm & Hmm & Harr & Hnew).
    + by rewrite <- app_assoc.
    + rewrite Hs1, Hmm1, decide_True by done. done.
    + rewrite Hn1, Hnext, length_app. simpl. lia.
    + intros r Hr. apply Hold. simpl. by right.
    + cbn zeta in *. rewrite Hs1 in *. rewrite <- app_assoc in Hn, Hmm. simpl in Hn, Hmm.
      split; [congruence|]. split; [congruence|]. split; [done|].
      split; [|split; [done|split]].
      * intros mr Hmr. rewrite Hm by done. by rewrite Hmm1, decide_False.
      * intros r Hr. rewrite Harr by lia. rewrite Harr1, decide_False by lia. done.
      * intros i e Hi. destruct i as [|i]; simpl in Hi.
        -- injection Hi as <-. simpl. rewrite Nat.add_0_r, <- Hnext.
           rewrite Harr by lia. by rewrite Harr1, decide_True.
        -- rewrite length_app in Hnew. cbn [length] in Hnew.
           replace (n + length done + S i)%nat with (n + (length done + 1) + i)%nat by lia.
           rewrite (Hnew i e Hi). rewrite Harr1, decide_False; [done|].
           assert (e.2 ∈ map snd todo) as Hin.
           { apply list_elem_of_fmap. exists e. split; [done|].
             by eapply list_elem_of_lookup_2. }
           assert (e.2 < n)%nat by (apply Hold; simpl; by right). lia.
Qed.

Lemma copied_values_seq n l : map snd (copied n l) = seq n (length l).
Proof.
  unfold copied. revert n. induction l as [|e l IH]; intros n; [done|].
  rewrite imap_cons. simpl. rewrite Nat.add_0_r. f_equal.
  rewrite <- (IH (S n)). f_equal. apply imap_ext. intros i x _. simpl. f_equal. lia.
Qed.

(** The loop of [clone] over [this.actions] sets every entry to the value
    it has. *)
Lemma copy_action_entries {W Macro} (result : Ref) (l : list (Monster * string))
    (h : Heap W Macro) :
  let a := actions (strategies h result) in
  (∀ e, e ∈ l → map_get e.1 (action_maps h a) = Some e.2) →
  let h' := fold_left (copy_action_entry result) l h in
  strategies h' = strategies h ∧ arrays h' = arrays h ∧
  macro_maps h' = macro_maps h ∧ next h' = next h ∧
  ∀ r, action_maps h' r = action_maps h r.
Proof.
  intros a. subst a. revert h. induction l as [|e l IH]; intros h Hl; cbn zeta; [done|].
  cbn [fold_left].
  set (h1 := copy_action_entry result h e).
  assert (Ha1 : ∀ r, action_maps h1 r = action_maps h r).
  { intros r. unfold h1, copy_action_entry. cbn -[map_set]. unfold update.
    destruct (decide (r = actions (strategies h result))) as [->|]; [|done].
    apply map_set_same, Hl. left. }
  destruct (IH h1) as (Hs & Harr & Hm & Hn & Ha).
  - intros e' He'. change (strategies h1) with (strategies h). rewrite Ha1.
    apply Hl. by right.
  - cbn zeta in *. do 4 (split; [done|]). intros r. by rewrite Ha, Ha1.
Qed.

(** The state of the heap when [clone] has copied the default macros and
    is about to run its two loops. *)
Lemma clone_before_loops {W Macro} (this : Ref) (h : Heap W Macro) :
  (this < next h)%nat →
  let result := next h in
  let h3 := copy_default_macro result
              (set_strategy (fresh h).2 result (strategies (fresh h).2 this)) in
  let s := strategies h this in
  strategies h3 this = s ∧
  macro_maps h3 = macro_maps h ∧ action_maps h3 = action_maps h ∧
  (next h < next h3 ≤ S (S (next h)))%nat ∧
  (∀ r, (r < next h)%nat → arrays h3 r = arrays h r) ∧
  starting_macro (strategies h3 result) = starting_macro s ∧
  macros (strategies h3 result) = macros s ∧
  default_action (strategies h3 result) = default_action s ∧
  actions (strategies h3 result) = actions s ∧
  match default_macro s with
  | Some d => default_macro (strategies h3 result) = Some (S (next h)) ∧
              arrays h3 (S (next h)) = arrays h d ∧ next h3 = S (S (next h))
  | None => default_macro (strategies h3 result) = None
  end.
Proof.
  intros Hthis result h3 s. subst h3. unfold copy_default_macro.
  cbn [fresh snd next strategies set_strategy]. rewrite update_eq. fold s.
  destruct (default_macro s) as [d|] eqn:Hd.
  - unfold new_array, fresh. cbn. rewrite !update_eq. cbn.
    rewrite !update_ne by (unfold result; lia). fold s.
    split; [done|]. split; [done|]. split; [done|]. split; [lia|].
    split; [|done]. intros r Hr. apply update_ne. lia.
  - cbn. rewrite ?update_eq. rewrite update_ne by (unfold result; lia). fold s.
    rewrite ?Hd. split; [done|]. split; [done|]. split; [done|].
    split; [lia|]. done.
Qed.

(** [clone] returns a new object whose fields hold the contents of the
    original, and leaves the contents of the original as they were, so that
    the original still compiles to the macro it compiled to. The array of
    default macros of the copy is a new object; the two Maps are the
    original's own. (The copy is the plain object [{ ...this }]: it has the
    fields of a strategy and none of its methods, and nothing is said here of
    a method called on it.) *)
Theorem clone_same_contents {W Macro} (this : Ref) (h : Heap W Macro) :
  strategy_ok h this → (this < next h)%nat →
  let c := (clone this h).1 in
  let h' := (clone this h).2 in
  c ≠ this ∧
  contents h' c = contents h this ∧
  contents h' this = contents h this ∧
  (∀ (lib : MacroLib Macro) resources defaults location w,
     compile lib h' this resources defaults location w =
     compile lib h this resources defaults location w) ∧
  strategy_ok h' this ∧ strategy_ok h' c ∧
  (∀ d d', default_macro (strategies h' c) = Some d →
           default_macro (strategies h' this) = Some d' → d ≠ d') ∧
  macros (strategies h' c) = macros (strategies h' this) ∧
  actions (strategies h' c) = actions (strategies h' this).
Proof.
  intros Hok Hthis.
  set (result := next h).
  set (h3 := copy_default_macro result
               (set_strategy (fresh h).2 result (strategies (fresh h).2 this))).
  set (h4 := fold_left (copy_macro_entry result)
               (macro_maps h3 (macros (strategies h3 this))) h3).
  set (h5 := fold_left (copy_action_entry result)
               (action_maps h4 (actions (strategies h4 this))) h4).
  assert (Hclone : clone this h = (result, h5)) by reflexivity.
  rewrite Hclone. cbn [fst snd].
  destruct (clone_before_loops this h Hthis)
    as (Hs3 & Hm3 & Ha3 & Hn3 & Harr3 & Hst & Hmac & Hda & Hact & Hdef3).
  fold result h3 in Hs3, Hm3, Ha3, Hn3, Harr3, Hst, Hmac, Hda, Hact, Hdef3.
  cbn zeta in *. fold result h3 in Hs3, Hm3, Ha3, Hn3, Harr3, Hst, Hmac, Hda, Hact, Hdef3.
  set (s := strategies h this) in *.
  set (mm := macro_maps h (macros s)) in *.
  destruct Hok as (Hkeys & Harrs & Halloc & Hdef & Hacts).
  fold s in Hkeys, Harrs, Halloc, Hdef, Hacts. fold mm in Hkeys, Harrs, Halloc, Hdef.
  (* the loop over the macros *)
  destruct (copy_macro_entries result [] mm h3 (next h3))
    as (Hs4 & Ha4 & Hn4 & Hm4 & Hmm4 & Harr4 & Hnew4).
  { done. }
  { by rewrite Hmac, Hm3. }
  { simpl. lia. }
  { intros r Hr. apply Halloc in Hr. lia. }
  cbn zeta in Hs4, Ha4, Hn4, Hm4, Hmm4, Harr4, Hnew4.
  rewrite Hmac in Hm4, Hmm4. simpl in Hn4, Hmm4, Hnew4.
  assert (Hh4 : fold_left (copy_macro_entry result) mm h3 = h4).
  { unfold h4. by rewrite Hs3, Hm3. }
  rewrite Hh4 in Hs4, Ha4, Hn4, Hm4, Hmm4, Harr4, Hnew4.
  (* the loop over the actions *)
  destruct (copy_action_entries result
              (action_maps h4 (actions (strategies h4 this))) h4)
    as (Hs5 & Harr5 & Hm5 & Hn5 & Ha5).
  { rewrite Hs4, Hact, Hs3, Ha4, Ha3. intros [m a] He.
    by apply map_get_elem. }
  cbn zeta in Hs5, Harr5, Hm5, Hn5, Ha5. fold h5 in Hs5, Harr5, Hm5, Hn5, Ha5.
  (* the final heap *)
  assert (Hthis5 : strategies h5 this = s) by by rewrite Hs5, Hs4.
  assert (Hmm5 : macro_maps h5 (macros s) = copied (next h3) mm) by by rewrite Hm5.
  assert (Ham5 : action_maps h5 (actions s) = action_maps h (actions s))
    by by rewrite Ha5, Ha4, Ha3.
  assert (Hold5 : ∀ r, (r < next h)%nat → arrays h5 r = arrays h r).
  { intros r Hr. rewrite Harr5, Harr4 by lia. by apply Harr3. }
  assert (Hcopies : map (fun e : Monster * Ref => (e.1, arrays h5 e.2))
                      (copied (next h3) mm) =
                    map (fun e : Monster * Ref => (e.1, arrays h e.2)) mm).
  { apply list_eq. intros i. rewrite !list_lookup_fmap.
    destruct (mm !! i) as [e|] eqn:He.
    - rewrite (copied_lookup _ _ _ _ He). simpl. f_equal. f_equal.
      replace (next h3 + i)%nat with (next h3 + 0 + i)%nat by lia.
      rewrite Harr5, (Hnew4 i e He).
      apply Harr3, Halloc. apply list_elem_of_fmap. exists e. split; [done|].
      by eapply list_elem_of_lookup_2.
    - unfold copied. by rewrite list_lookup_imap, He. }
  assert (Hvalues : ∀ r, r ∈ map snd (copied (next h3) mm) →
                         (next h3 ≤ r < next h5)%nat).
  { intros r Hr%copied_values. rewrite Hn5, Hn4. lia. }
  assert (Hc_contents : contents h5 result = contents h this).
  { unfold contents. rewrite Hs5, Hs4, Hst, Hmac, Hda, Hact, Hmm5, Ham5, Hcopies.
    fold s. fold mm.
    destruct (default_macro s) as [d|] eqn:Hd.
    - destruct Hdef3 as (-> & Hcopy & Hn3'). simpl.
      rewrite Harr5, Harr4 by lia. by rewrite Hcopy.
    - by rewrite Hdef3. }
  assert (Hthis_contents : contents h5 this = contents h this).
  { unfold contents. rewrite Hthis5. fold s. rewrite Hmm5, Ham5, Hcopies. fold mm.
    destruct (default_macro s) as [d|] eqn:Hd; [|done]. simpl.
    rewrite Hold5; [done|]. by destruct (Hdef d eq_refl). }
  split; [unfold result; lia|]. split; [done|]. split; [done|].
  split; [by apply contents_observed|].
  split; [|split; [|split; [|split]]].
  - unfold strategy_ok. rewrite Hthis5, Hmm5, Ham5.
    split; [by rewrite copied_keys|]. split; [rewrite copied_values_seq; apply NoDup_seq|].
    split; [intros r Hr%Hvalues; lia|]. split; [|done].
    intros d Hd. destruct (Hdef d Hd) as [Hlt _]. split; [lia|].
    intros Hin%Hvalues. lia.
  - unfold strategy_ok. rewrite Hs5, Hs4, Hmac, Hact, Hmm5, Ham5.
    split; [by rewrite copied_keys|]. split; [rewrite copied_values_seq; apply NoDup_seq|].
    split; [intros r Hr%Hvalues; lia|]. split; [|done].
    intros d Hd. destruct (default_macro s) as [d0|] eqn:Hd0.
    + destruct Hdef3 as (Hd3 & _ & Hn3'). rewrite Hd3 in Hd. injection Hd as <-.
      split; [lia|]. intros Hin%Hvalues. lia.
    + by rewrite Hdef3 in Hd.
  - intros d d' Hd Hd'. rewrite Hthis5 in Hd'. rewrite Hs5, Hs4 in Hd.
    rewrite Hd' in Hdef3. destruct Hdef3 as (Hd3 & _). rewrite Hd3 in Hd.
    injection Hd as <-. destruct (Hdef d' Hd'). lia.
  - by rewrite Hthis5, Hs5, Hs4, Hmac.
  - by rewrite Hthis5, Hs5, Hs4, Hact.
Qed.

Lemma clone_same_contents_witness :
  let s := (@new_CombatStrategy unit string empty_heap).1 in
  let h := macro s (inl "attack") None false (new_CombatStrategy empty_heap).2 in
  contents (clone s h).2 (clone s h).1 = contents h s.
Proof.
  intros s h.
  apply (clone_same_contents s h).
  - apply macro_default_ok, new_CombatStrategy_ok.
  - vm_compute. lia.
Defined.

(** ** Engine.acquireItems *)




(** ** Engine.checkLimits: which limit stops a task first *)

Lemma checkLimits_first {W} (h : Host W) (t : Task W) (e : Engine) (w : W) l k :
  limit t = Some l →
  turns l = None ∨ (∃ f, do_ t = inr f) →
  attempts e !! name t = Some (Num k) → 1 ≤ k →
  match first_limit (name t) l with
  | Some (K, msg) =>
      (k < K → checkLimits h t e w = Returned tt) ∧
      (k = K → checkLimits h t e w = Thrown msg)
  | None => checkLimits h t e w = Returned tt
  end.
Proof.
  intros Hl Hturns Hcount Hk. unfold checkLimits, js_get_number.
  rewrite Hl, Hcount.
  assert (Hrest : match do_ t with
                  | inl location =>
                      match over (turns l) (Num (turnsSpent h location w)) with
                      | Some n => Thrown (turns_exceeded (name t) n l)
                      | None => Returned tt
                      end
                  | inr _ => Returned tt
                  end = Returned tt).
  { destruct Hturns as [-> | [f ->]]; [|done]. by destruct (do_ t). }
  rewrite Hrest. clear Hrest.
  unfold first_limit, reached_at, over, js_ge.
  destruct (tries l) as [n|], (soft l) as [m|]; simpl;
    repeat match goal with
           | |- context [?a =? ?b] => destruct (Z.eqb_spec a b); simpl
           | |- context [?a <=? ?b] => destruct (Z.leb_spec a b); simpl
           end;
    try done; try (split; intros; try done; lia).
Qed.

Lemma first_limit_positive task l K msg : first_limit task l = Some (K, msg) → 1 ≤ K.
Proof.
  unfold first_limit, reached_at.
  destruct (tries l) as [n|], (soft l) as [m|]; simpl;
    repeat match goal with
           | |- context [?a =? ?b] => destruct (Z.eqb_spec a b); simpl
           | |- context [?a <=? ?b] => destruct (Z.leb_spec a b); simpl
           end;
    try done; intros [= <- _]; lia.
Qed.

(** A task that never completes, run again and again: [first_limit] gives
    the call of [execute] that throws and its message; all calls before it
    return, each counted as one attempt. Without a limit on the attempts
    every call returns. *)
Theorem execute_first_limit {W} (h : Host W) fuel (σ : Store W) task e0 w0
    (l : Limit) :
  limit (σ task) = Some l →
  turns l = None ∨ (∃ f, do_ (σ task) = inr f) →
  name (σ task) ∉ object_prototype_keys →
  attempts e0 !! name (σ task) = None →
  (∀ w, completed (σ task) w = false) →
  (∀ w, ∃ w', perform h fuel (σ task) w = Returned w') →
  match first_limit (name (σ task)) l with
  | Some (K, msg) =>
      (∀ k, (k < Z.to_nat K)%nat →
         ∃ e w, execute_times h fuel σ task k e0 w0 = (e, Returned w) ∧
                attempts e !! name (σ task) = counted k) ∧
      (∃ e, execute_times h fuel σ task (Z.to_nat K) e0 w0 = (e, Thrown msg) ∧
            attempts e !! name (σ task) = Some (Num K))
  | None =>
      ∀ k, ∃ e w, execute_times h fuel σ task k e0 w0 = (e, Returned w) ∧
                  attempts e !! name (σ task) = counted k
  end.
Proof.
  intros Hl Hturns Hkey Hfresh Hnever Hsteps.
  assert (Hstep : ∀ k e w,
            execute_times h fuel σ task k e0 w0 = (e, Returned w) →
            attempts e !! name (σ task) = counted k →
            ∃ e' w', attempts e' !! name (σ task) = Some (Num (Z.of_nat (S k))) ∧
                     execute_times h fuel σ task (S k) e0 w0 =
                     match checkLimits h (σ task) e' w' with
                     | Returned _ => (e', Returned w')
                     | Thrown m => (e', Thrown m)
                     | OutOfFuel => (e', OutOfFuel)
                     end).
  { intros k e w Hrun Hcount. cbn [execute_times]. rewrite Hrun. unfold execute.
    destruct (Hsteps w) as [w' ->]. rewrite Hnever. cbn [negb].
    exists (markAttempt (σ task) e), w'. split; [|done].
    by apply (markAttempt_counted (σ task) e k Hkey). }
  destruct (first_limit (name (σ task)) l) as [[K msg]|] eqn:Hfirst.
  - pose proof (first_limit_positive _ _ _ _ Hfirst) as HK.
    assert (Hbefore : ∀ k, (k < Z.to_nat K)%nat →
              ∃ e w, execute_times h fuel σ task k e0 w0 = (e, Returned w) ∧
                     attempts e !! name (σ task) = counted k).
    { induction k as [|k IH]; intros Hk; [by exists e0, w0|].
      destruct IH as (e & w & Hrun & Hcount); [lia|].
      destruct (Hstep k e w Hrun Hcount) as (e' & w' & Hcount' & ->).
      pose proof (checkLimits_first h (σ task) e' w' l _ Hl Hturns Hcount'
                    ltac:(lia)) as Hcheck.
      rewrite Hfirst in Hcheck. destruct Hcheck as [Hlt _]. rewrite Hlt by lia.
      by exists e', w'. }
    split; [done|].
    destruct (Z.to_nat K) as [|k] eqn:HKk; [lia|].
    destruct (Hbefore k) as (e & w & Hrun & Hcount); [lia|].
    destruct (Hstep k e w Hrun Hcount) as (e' & w' & Hcount' & ->).
    pose proof (checkLimits_first h (σ task) e' w' l _ Hl Hturns Hcount'
                  ltac:(lia)) as Hcheck.
    rewrite Hfirst in Hcheck. destruct Hcheck as [_ Heq]. rewrite Heq by lia.
    exists e'. split; [done|]. rewrite Hcount'. do 2 f_equal. lia.
  - induction k as [|k IH]; [by exists e0, w0|].
    destruct IH as (e & w & Hrun & Hcount).
    destruct (Hstep k e w Hrun Hcount) as (e' & w' & Hcount' & ->).
    pose proof (checkLimits_first h (σ task) e' w' l _ Hl Hturns Hcount'
                  ltac:(lia)) as Hcheck.
    rewrite Hfirst in Hcheck. rewrite Hcheck.
    by exists e', w'.
Qed.

Lemma execute_first_limit_witness :
  let σ := fun _ : Ref =>
    {| name := "Q/t"; after := None; ready := None; completed := fun _ : unit => false;
       prepare := None; do_ := inr (fun w => Returned w); post := None;
       acquire := None; choices := [];
       limit := Some {| tries := Some 5; turns := None; soft := Some 2;
                        message := Some "Unlucky." |};
       outfit := None; combat := None |} in
  ∃ e, execute_times idle_host 0 σ 0%nat 2 (new_Engine σ [0%nat]) tt =
         (e, Thrown "Task Q/t did not complete within 2 attempts. Please check what went wrong (you may just be unlucky). Unlucky.") ∧
       attempts e !! "Q/t" = Some (Num 2).
Proof.
  intros σ.
  pose proof (execute_first_limit idle_host 0 σ 0%nat (new_Engine σ [0%nat]) tt
                {| tries := Some 5; turns := None; soft := Some 2;
                   message := Some "Unlucky." |}) as H.
  cbv zeta in H.
  destruct H as [_ H]; try done.
  - by left.
  - apply namespaced_not_inherited. reflexivity.
  - intros []. by exists tt.
Defined.

(** ** CommandParser: the methods *)

Lemma yields_ret {A} (a : A) i (Q : A → nat → Prop) E : Q a i → yields (ret a) i Q E.
Proof. done. Qed.

Lemma yields_throw {A} e i (Q : A → nat → Prop) (E : string → Prop) :
  E e → yields (throw e) i Q E.
Proof. done. Qed.

Lemma yields_bind {A B} (m : Parser A) (k : A → Parser B) i Q E :
  yields m i (fun a j => yields (k a) j Q E) E → yields (bind m k) i Q E.
Proof.
  unfold yields, bind. destruct (m i) as [[a j]| |]; done.
Qed.

Lemma yields_weaken {A} (m : Parser A) i (Q Q' : A → nat → Prop) (E E' : string → Prop) :
  yields m i Q E → (∀ a j, Q a j → Q' a j) → (∀ e, E e → E' e) → yields m i Q' E'.
Proof.
  unfold yields. destruct (m i) as [[a j]| |]; eauto.
Qed.

Lemma yields_get_index i (Q : nat → nat → Prop) E : Q i i → yields get_index i Q E.
Proof. done. Qed.

Lemma yields_set_index j i (Q : unit → nat → Prop) E : Q tt j → yields (set_index j) i Q E.
Proof. done. Qed.

Lemma length_chars s : length (list_ascii_of_string s) = String.length s.
Proof. induction s as [|c s IH]; simpl; [done|]. by rewrite IH. Qed.

Lemma charAt_lt s i : (i < String.length s)%nat ↔ is_Some (charAt s i).
Proof. unfold charAt. rewrite lookup_lt_is_Some. by rewrite length_chars. Qed.

Lemma indexOf_Some s c from j :
  indexOf s c from = Some j ↔
  (from ≤ j)%nat ∧ charAt s j = Some c ∧
  ∀ k, (from ≤ k < j)%nat → charAt s k ≠ Some c.
Proof.
  unfold indexOf, charAt. split.
  - intros ([k x] & Hfind & ->)%fmap_Some. simpl.
    apply list_find_Some in Hfind as (Hk & -> & Hbefore).
    rewrite lookup_drop in Hk. split; [lia|]. split; [done|].
    intros k' Hk' Hc. apply (Hbefore (k' - from)%nat c); [|lia|done].
    rewrite lookup_drop. by replace (from + (k' - from))%nat with k' by lia.
  - intros (Hle & Hj & Hbefore). apply fmap_Some.
    exists ((j - from)%nat, c). split; [|simpl; lia].
    apply list_find_Some. rewrite lookup_drop.
    replace (from + (j - from))%nat with j by lia. split; [done|]. split; [done|].
    intros k y Hk Hlt ->. rewrite lookup_drop in Hk.
    apply (Hbefore (from + k)%nat); [lia|done].
Qed.

Lemma indexOf_None s c from :
  indexOf s c from = None ↔ ∀ k, (from ≤ k)%nat → charAt s k ≠ Some c.
Proof.
  unfold indexOf, charAt. rewrite fmap_None, list_find_None, Forall_forall. split.
  - intros Hall k Hk Hc. apply (Hall c); [|done].
    apply list_elem_of_lookup. exists (k - from)%nat. rewrite lookup_drop.
    by replace (from + (k - from))%nat with k by lia.
  - intros Hall x [k Hk]%list_elem_of_lookup ->. rewrite lookup_drop in Hk.
    by apply (Hall (from + k)%nat); [lia|].
Qed.

Lemma first_at_unique s cs i j j' : first_at s cs i j → first_at s cs i j' → j = j'.
Proof.
  intros (Hj & Hnone & Hsome) (Hj' & Hnone' & Hsome').
  destruct (Nat.lt_trichotomy j j') as [Hlt|[->|Hlt]]; [|done|].
  - destruct Hsome as (c & Hc & Hin); [lia|]. destruct (Hnone' j c); [lia|done|done].
  - destruct Hsome' as (c & Hc & Hin); [lia|]. destruct (Hnone j' c); [lia|done|done].
Qed.

Lemma findNext_first this cs i :
  (i ≤ String.length (command this))%nat →
  ∃ j, findNext this cs i = Returned (j, i) ∧ first_at (command this) cs i j.
Proof.
  intros Hi. unfold findNext, bind, get_index, ret. eexists. split; [done|].
  set (s := command this) in *.
  assert (Hgen : ∀ done r, first_at s done i r →
            first_at s (done ++ cs) i
              (fold_left
                 (fun result value =>
                    match indexOf s value i with
                    | Some index => if (index <? result)%nat then index else result
                    | None => result
                    end) cs r)).
  { intros done r. revert done r. induction cs as [|c cs IH]; intros done r Hr.
    - by rewrite app_nil_r.
    - cbn [fold_left]. replace (done ++ c :: cs) with ((done ++ [c]) ++ cs)
        by by rewrite <- app_assoc.
      apply IH. destruct Hr as (Hr & Hnone & Hsome).
      destruct (indexOf s c i) as [j|] eqn:Hidx.
      + apply indexOf_Some in Hidx as (Hij & Hcj & Hbefore).
        assert (j < String.length s)%nat by (apply charAt_lt; by eexists).
        destruct (Nat.ltb_spec j r) as [Hlt|Hge].
        * split; [lia|]. split.
          -- intros k x Hk Hx [Hin| ->%list_elem_of_singleton]%elem_of_app.
             ++ apply (Hnone k x); [lia|done|done].
             ++ by apply (Hbefore k).
          -- intros _. exists c. split; [done|]. apply elem_of_app. right. left.
        * split; [lia|]. split.
          -- intros k x Hk Hx [Hin| ->%list_elem_of_singleton]%elem_of_app.
             ++ by apply (Hnone k x).
             ++ apply (Hbefore k); [lia|done].
          -- intros Hlt. destruct (Hsome Hlt) as (x & Hx & Hin). exists x.
             split; [done|]. apply elem_of_app. by left.
      + split; [lia|]. split.
        * intros k x Hk Hx [Hin| ->%list_elem_of_singleton]%elem_of_app.
          -- by apply (Hnone k x).
          -- pose proof (proj1 (indexOf_None s c i) Hidx k). apply H; [lia|done].
        * intros Hlt. destruct (Hsome Hlt) as (x & Hx & Hin). exists x.
          split; [done|]. apply elem_of_app. by left. }
  apply (Hgen [] (String.length s)).
  split; [lia|]. split; [intros; apply not_elem_of_nil|lia].
Qed.

Lemma yields_finished this i (Q : bool → nat → Prop) E :
  Q (bool_decide (String.length (command this) ≤ i)%nat) i → yields (finished this) i Q E.
Proof. done. Qed.

Lemma yields_peek this i (Q : option ascii → nat → Prop) E :
  Q (charAt (command this) i) i → yields (peek this) i Q E.
Proof.
  unfold yields, peek, bind, get_index. case_bool_decide as Hlen; [|done].
  destruct (charAt (command this) i) as [c|] eqn:Hc; [|done].
  assert (i < String.length (command this))%nat; [|lia].
  apply charAt_lt. by eexists.
Qed.

Lemma yields_consume this allowed i (Q : unit → nat → Prop) (E : string → Prop) :
  ((String.length (command this) ≤ i)%nat →
   E ("Expected " +:+ join "," (map char_string allowed))) →
  (∀ c, charAt (command this) i = Some c →
        Q tt (if bool_decide (c ∈ allowed) then S i else i)) →
  yields (consume this allowed) i Q E.
Proof.
  intros Hfin Hsome. unfold consume. apply yields_bind, yields_finished.
  case_bool_decide as Hlen; [by apply yields_throw, Hfin|].
  apply yields_bind, yields_peek.
  destruct (charAt (command this) i) as [c|] eqn:Hc.
  - specialize (Hsome c eq_refl). case_bool_decide; [|by apply yields_ret].
    by apply yields_bind, yields_get_index, yields_set_index.
  - exfalso. apply Hlen. destruct (decide (i < String.length (command this))%nat) as [Hlt|];
      [|lia]. apply charAt_lt in Hlt as [? ?]. congruence.
Qed.

Lemma yields_findNext this cs i (Q : nat → nat → Prop) E :
  (i ≤ String.length (command this))%nat →
  (∀ j, first_at (command this) cs i j → Q j i) →
  yields (findNext this cs) i Q E.
Proof.
  intros Hi HQ. destruct (findNext_first this cs i Hi) as (j & Heq & Hfirst).
  unfold yields. rewrite Heq. by apply HQ.
Qed.

Lemma yields_parseKey this i (Q : string → nat → Prop) (E : string → Prop) :
  (i ≤ String.length (command this))%nat →
  (∀ j, first_at (command this) ["="%char; " "%char] i j →
        let key := substring (command this) i j in
        (key ∉ keys this → key ∉ flags this → E (unknown_key key)) ∧
        (key ∈ keys this ∨ key ∈ flags this → Q key j)) →
  yields (parseKey this) i Q E.
Proof.
  intros Hi HQ. unfold parseKey. apply yields_bind, yields_findNext; [done|].
  intros j Hj. apply yields_bind, yields_get_index, yields_bind, yields_set_index.
  destruct (HQ j Hj) as [Hunknown Hknown]. cbn zeta in *.
  case_bool_decide as Hk; case_bool_decide as Hf; simpl.
  - apply yields_ret, Hknown. by left.
  - apply yields_ret, Hknown. by left.
  - apply yields_ret, Hknown. by right.
  - by apply yields_throw, Hunknown.
Qed.

Lemma quote_not_space q : q ∈ [single_quote; double_quote] → q ≠ " "%char.
Proof.
  intros [->|[->|[]%elem_of_nil]%elem_of_cons]%elem_of_cons; discriminate.
Qed.

Lemma yields_parseValue this i (Q : string → nat → Prop) (E : string → Prop) :
  (i ≤ String.length (command this))%nat →
  ((∀ q, charAt (command this) i = Some q → q ∉ [single_quote; double_quote]) →
   ∀ j, first_at (command this) [" "%char] i j → Q (substring (command this) i j) j) →
  (∀ q j, charAt (command this) i = Some q → q ∈ [single_quote; double_quote] →
          first_at (command this) [q] (S i) j →
          (j = String.length (command this) →
           E (no_closing q (substring (command this) (S i) j))) ∧
          ((j < String.length (command this))%nat →
           Q (substring (command this) (S i) j) (S j))) →
  yields (parseValue this) i Q E.
Proof.
  intros Hi Hplain Hquoted. unfold parseValue. apply yields_bind, yields_peek.
  assert (Hunquoted :
            (∀ q, charAt (command this) i = Some q → q ∉ [single_quote; double_quote]) →
            yields
              (let* valueEnd := findNext this [" "%char] in
               let* i0 := get_index in
               if negb (bool_decide (" "%char = " "%char)) &&
                  bool_decide (valueEnd = String.length (command this))
               then throw (no_closing " " (substring (command this) i0 valueEnd))
               else
                 let* _ := set_index valueEnd in
                 let* _ := if negb (bool_decide (" "%char = " "%char))
                           then consume this [" "%char] else ret tt in
                 ret (substring (command this) i0 valueEnd)) i Q E).
  { intros Hnot. apply yields_bind, yields_findNext; [done|]. intros j Hj.
    apply yields_bind, yields_get_index. simpl.
    apply yields_bind, yields_set_index, yields_bind, (yields_ret (A:=unit)), yields_ret.
    by apply Hplain. }
  destruct (charAt (command this) i) as [q|] eqn:Hq.
  - destruct (decide (q ∈ [single_quote; double_quote])) as [Hquote|Hquote].
    + rewrite (bool_decide_eq_true_2 _ Hquote).
      apply yields_bind, yields_bind, yields_consume.
      { intros Hlen. assert (i < String.length (command this))%nat; [|lia].
        apply charAt_lt. by eexists. }
      intros c Hc. rewrite Hq in Hc. injection Hc as <-.
      rewrite (bool_decide_eq_true_2 (q ∈ [q])) by left.
      assert (i < String.length (command this))%nat
        by (apply charAt_lt; by eexists).
      apply (yields_ret (A:=ascii)), yields_bind, yields_findNext; [lia|]. intros j Hj.
      destruct (Hquoted q j eq_refl Hquote Hj) as [Hopen Hclosed].
      apply yields_bind, yields_get_index.
      rewrite (bool_decide_eq_false_2 (q = " "%char)) by by apply quote_not_space.
      cbn [negb andb].
      destruct (decide (j = String.length (command this))) as [Hend|Hend].
      * rewrite (bool_decide_eq_true_2 _ Hend). by apply yields_throw, Hopen.
      * rewrite (bool_decide_eq_false_2 _ Hend).
        destruct Hj as (Hj & Hnone & Hsome).
        destruct Hsome as (c & Hc & ->%list_elem_of_singleton); [lia|].
        apply yields_bind, yields_set_index, yields_bind, yields_consume; [lia|].
        intros c' Hc'. rewrite Hc in Hc'. injection Hc' as <-.
        rewrite (bool_decide_eq_true_2 (q ∈ [q])) by left.
        apply yields_ret. apply Hclosed. lia.
    + rewrite (bool_decide_eq_false_2 _ Hquote).
      apply yields_bind, (yields_ret (A:=ascii)). apply Hunquoted.
      intros q' [= <-]. done.
  - apply yields_bind, (yields_ret (A:=ascii)). apply Hunquoted. intros q' [=].
Qed.

(** ** CommandParser: one round of the loop *)

Lemma parse_round_yields this (result : list (string * string)) i :
  (i < String.length (command this))%nat →
  yields (parse_round this result) i
    (fun result' j =>
       (i < j ≤ String.length (command this))%nat ∧
       ∃ k v, map_get k result = None ∧ result' = result ++ [(k, v)] ∧
              parsed_entry this k v)
    (parse_error this).
Proof.
  intros Hi. unfold parse_round. apply yields_bind, yields_peek.
  assert (Hrest : ∀ neg i1, (i ≤ i1 ≤ String.length (command this))%nat →
    yields
      (let* key := parseKey this in
       if map_has key result then throw (duplicate_key key)
       else if bool_decide (key ∈ flags this) then
         let result0 := map_set key (if neg : bool then "false" else "true") result in
         let* c0 := peek this in
         if bool_decide (c0 = Some "="%char) then throw (flag_assigned key)
         else
           let* f := finished this in
           let* _ := if negb f then consume this [" "%char] else ret tt in
           ret result0
       else
         let* _ := consume this ["="%char; " "%char] in
         let* value := parseValue this in
         let* f := finished this in
         let* _ := if negb f then consume this [" "%char] else ret tt in
         ret (map_set key value result)) i1
      (fun result' j =>
         (i < j ≤ String.length (command this))%nat ∧
         ∃ k v, map_get k result = None ∧ result' = result ++ [(k, v)] ∧
                parsed_entry this k v)
      (parse_error this)).
  { intros neg i1 Hi1. apply yields_bind, yields_parseKey; [lia|].
    intros j Hj key. split.
    { intros Hk Hf. right. left. by exists key. }
    intros Hknown. destruct Hj as (Hj & Hnone & Hsome).
    unfold map_has. destruct (map_get key result) as [old|] eqn:Hget.
    { rewrite bool_decide_eq_true_2 by by eexists.
      apply yields_throw. right. right. left. by exists key. }
    rewrite bool_decide_eq_false_2 by (by intros [? ?]).
    rewrite (map_set_new _ _ _ Hget).
    destruct (decide (key ∈ flags this)) as [Hflag|Hflag].
    - rewrite (bool_decide_eq_true_2 _ Hflag). apply yields_bind, yields_peek.
      destruct (decide (charAt (command this) j = Some "="%char)) as [Heq|Hne].
      { rewrite (bool_decide_eq_true_2 _ Heq). apply yields_throw.
        right. right. right. left. by exists key. }
      rewrite (bool_decide_eq_false_2 _ Hne).
      apply yields_bind, yields_finished.
      assert (Hentry : ∃ k v, map_get k result = None ∧
                map_set key (if neg then "false" else "true") result =
                result ++ [(k, v)] ∧ parsed_entry this k v).
      { exists key, (if neg then "false" else "true").
        split; [done|]. split; [by apply map_set_new|]. left. split; [done|].
        destruct neg; auto. }
      destruct (decide (String.length (command this) ≤ j)%nat) as [Hend|Hend].
      + rewrite (bool_decide_eq_true_2 _ Hend). cbn [negb].
        apply yields_bind, (yields_ret (A:=unit)), yields_ret.
        split; [lia|]. by rewrite <- (map_set_new _ _ _ Hget).
      + rewrite (bool_decide_eq_false_2 _ Hend). cbn [negb].
        apply yields_bind, yields_consume; [lia|]. intros c Hc.
        apply yields_ret. split; [|by rewrite <- (map_set_new _ _ _ Hget)].
        destruct Hsome as (c' & Hc' & Hin); [lia|]. rewrite Hc in Hc'.
        injection Hc' as <-.
        assert (c = " "%char) as ->.
        { apply elem_of_cons in Hin as [->|Hin]; [congruence|].
          by apply list_elem_of_singleton in Hin. }
        rewrite bool_decide_eq_true_2 by left. lia.
    - rewrite (bool_decide_eq_false_2 _ Hflag).
      assert (Hkey : parsed_entry this key = fun v => parsed_entry this key v) by done.
      destruct Hknown as [Hkey'|]; [|done].
      apply yields_bind, yields_consume; [by left|].
      intros c Hc.
      assert (j < String.length (command this))%nat
        by (apply charAt_lt; by eexists).
      destruct (Hsome ltac:(done)) as (c' & Hc' & Hin). rewrite Hc in Hc'.
      injection Hc' as <-. rewrite (bool_decide_eq_true_2 _ Hin).
      assert (Hfinal : ∀ value j2, (S j ≤ j2 ≤ String.length (command this))%nat →
                yields
                  (let* f := finished this in
                   let* _ := if negb f then consume this [" "%char] else ret tt in
                   ret (map_set key value result)) j2
                  (fun result' j3 =>
                     (i < j3 ≤ String.length (command this))%nat ∧
                     ∃ k v, map_get k result = None ∧ result' = result ++ [(k, v)] ∧
                            parsed_entry this k v)
                  (parse_error this)).
      { intros value j2 Hj2. apply yields_bind, yields_finished.
        assert (Hentry : ∃ k v, map_get k result = None ∧
                  map_set key value result = result ++ [(k, v)] ∧
                  parsed_entry this k v).
        { exists key, value. split; [done|]. split; [by apply map_set_new|].
          by right. }
        destruct (decide (String.length (command this) ≤ j2)%nat) as [Hend|Hend].
        - rewrite (bool_decide_eq_true_2 _ Hend). cbn [negb].
          apply yields_bind, (yields_ret (A:=unit)), yields_ret. split; [lia|done].
        - rewrite (bool_decide_eq_false_2 _ Hend). cbn [negb].
          apply yields_bind, yields_consume; [lia|]. intros c2 Hc2.
          apply yields_ret. split; [|done]. case_bool_decide; lia. }
      apply yields_bind, yields_parseValue; [lia| |].
      + intros _ j2 (Hj2 & _ & _). apply Hfinal. lia.
      + intros q j2 Hq Hquote (Hj2 & _ & _). split.
        * intros _. right. right. right. right. by exists q, (substring (command this) (S (S j)) j2).
        * intros Hlt. apply Hfinal. lia. }
  destruct (decide (charAt (command this) i = Some "!"%char)) as [Hbang|Hbang].
  - rewrite (bool_decide_eq_true_2 _ Hbang).
    apply yields_bind, yields_bind, yields_consume; [lia|].
    intros c Hc. rewrite Hbang in Hc. injection Hc as <-.
    rewrite (bool_decide_eq_true_2 ("!"%char ∈ ["!"%char])) by left.
    apply (yields_ret (A:=bool)). apply (Hrest true). lia.
  - rewrite (bool_decide_eq_false_2 _ Hbang).
    apply yields_bind, (yields_ret (A:=bool)). apply (Hrest false). lia.
Qed.

(** ** CommandParser.parse *)

Lemma parse_loop_outcome this fuel (result : list (string * string)) i :
  (i ≤ String.length (command this))%nat →
  NoDup (map fst result) →
  (∀ k v, (k, v) ∈ result → parsed_entry this k v) →
  match parse_loop this fuel result i with
  | Returned (result', j) =>
      NoDup (map fst result') ∧ (∀ k v, (k, v) ∈ result' → parsed_entry this k v) ∧
      result `prefix_of` result'
  | Thrown e => parse_error this e
  | OutOfFuel => (fuel < String.length (command this) - i)%nat
  end.
Proof.
  revert result i. induction fuel as [|fuel IH]; intros result i Hi Hnd Hall.
  - simpl. unfold bind, finished, get_index, ret. simpl.
    case_bool_decide; [done|lia].
  - cbn [parse_loop]. unfold bind at 1. unfold finished, bind, get_index, ret.
    case_bool_decide as Hfin; [done|].
    pose proof (parse_round_yields this result i ltac:(lia)) as Hround.
    unfold yields in Hround. unfold bind.
    destruct (parse_round this result i) as [[result1 i1]| |]; [|done|done].
    destruct Hround as (Hi1 & k & v & Hget & -> & Hentry).
    specialize (IH (result ++ [(k, v)]) i1).
    destruct (parse_loop this fuel (result ++ [(k, v)]) i1) as [[result' j]| |].
    + destruct IH as (Hnd' & Hall' & Hpre); [lia| | |].
      * rewrite map_app. apply NoDup_app. split; [done|]. split; [|apply NoDup_singleton].
        intros x Hx ->%list_elem_of_singleton. by apply map_get_None in Hget.
      * intros k' v' [Hin|[= -> ->]%list_elem_of_singleton]%elem_of_app; [by apply Hall|done].
      * split; [done|]. split; [done|]. etrans; [|exact Hpre]. by apply prefix_app_r.
    + apply IH; [lia| |].
      * rewrite map_app. apply NoDup_app. split; [done|]. split; [|apply NoDup_singleton].
        intros x Hx ->%list_elem_of_singleton. by apply map_get_None in Hget.
      * intros k' v' [Hin|[= -> ->]%list_elem_of_singleton]%elem_of_app; [by apply Hall|done].
    + assert (fuel < String.length (command this) - i1)%nat; [|lia].
      apply IH; [lia| |].
      * rewrite map_app. apply NoDup_app. split; [done|]. split; [|apply NoDup_singleton].
        intros x Hx ->%list_elem_of_singleton. by apply map_get_None in Hget.
      * intros k' v' [Hin|[= -> ->]%list_elem_of_singleton]%elem_of_app; [by apply Hall|done].
Qed.

Lemma parse_loop_more_fuel this fuel fuel' (result : list (string * string)) i :
  (fuel ≤ fuel')%nat →
  parse_loop this fuel result i ≠ OutOfFuel →
  parse_loop this fuel' result i = parse_loop this fuel result i.
Proof.
  revert fuel' result i. induction fuel as [|fuel IH]; intros fuel' result i Hle Hrun.
  - destruct fuel' as [|fuel']; [done|].
    cbn [parse_loop] in *. unfold bind in *.
    destruct (finished this i) as [[[] i0]| |]; done.
  - destruct fuel' as [|fuel']; [lia|].
    cbn [parse_loop] in *. unfold bind in *.
    destruct (finished this i) as [[[] i0]| |]; try done.
    destruct (parse_round this result i0) as [[result1 i1]| |]; try done.
    apply IH; [lia|done].
Qed.

(** [parse] ends after at most as many rounds as the command has
    characters: with that much fuel it returns or throws, and more fuel
    changes nothing. *)
Theorem parse_terminates (this : CommandParser) (fuel : nat) :
  (String.length (command this) ≤ fuel)%nat →
  parse this fuel ≠ OutOfFuel ∧
  parse this fuel = parse this (String.length (command this)).
Proof.
  intros Hfuel.
  assert (Hloop : ∀ n, (String.length (command this) ≤ n)%nat →
                       parse_loop this n [] 0%nat ≠ OutOfFuel).
  { intros n Hn Hout.
    pose proof (parse_loop_outcome this n [] 0%nat ltac:(lia) (NoDup_nil_2)) as Hyields.
    rewrite Hout in Hyields. assert (n < String.length (command this) - 0)%nat; [|lia].
    apply Hyields. by intros k v ?%elem_of_nil. }
  split.
  - unfold parse. specialize (Hloop fuel Hfuel).
    by destruct (parse_loop this fuel [] 0%nat) as [[r j]| |].
  - unfold parse.
    by rewrite (parse_loop_more_fuel this (String.length (command this)) fuel)
      by (try done; by apply Hloop).
Qed.

(** What [parse] returns is a Map from keys to texts, each key once, a
    flag with [true] or [false]; the messages it throws are the five of
    [parse_error] ([consume] never throws for a space or an exclamation
    mark). *)
Theorem parse_outcomes (this : CommandParser) (fuel : nat) :
  (∀ result, parse this fuel = Returned result →
     NoDup (map fst result) ∧
     ∀ k v, (k, v) ∈ result →
            (k ∈ flags this ∧ (v = "true" ∨ v = "false")) ∨
            (k ∈ keys this ∧ (k ∉ flags this))) ∧
  (∀ e, parse this fuel = Thrown e → parse_error this e).
Proof.
  pose proof (parse_loop_outcome this fuel [] 0%nat ltac:(lia) (NoDup_nil_2)) as Hyields.
  unfold parse. destruct (parse_loop this fuel [] 0%nat) as [[r j]| |].
  - destruct Hyields as (Hnd & Hall & _); [by intros k v ?%elem_of_nil|].
    split; [|done]. by intros result [= <-].
  - split; [done|]. intros e' [= <-]. apply Hyields. by intros k v ?%elem_of_nil.
  - done.
Qed.

(** ** CommandParser.parse on a well-formed command line *)

Lemma chars_app a b :
  list_ascii_of_string (a +:+ b) = list_ascii_of_string a ++ list_ascii_of_string b.
Proof.
  induction a as [|c a IH]; [done|].
  change (c :: list_ascii_of_string (a +:+ b) =
          c :: list_ascii_of_string a ++ list_ascii_of_string b).
  by rewrite IH.
Qed.

Lemma charAt_middle s pre c rest :
  list_ascii_of_string s = pre ++ c :: rest → charAt s (length pre) = Some c.
Proof. intros Hs. unfold charAt. rewrite Hs. by apply list_lookup_middle. Qed.

Lemma charAt_word s pre word rest k c :
  list_ascii_of_string s = pre ++ word ++ rest →
  (length pre ≤ k < length pre + length word)%nat →
  charAt s k = Some c → c ∈ word.
Proof.
  intros Hs Hk. unfold charAt. rewrite Hs.
  rewrite lookup_app_r by lia. rewrite lookup_app_l by lia.
  intros Hc. by eapply list_elem_of_lookup_2.
Qed.

Lemma length_of_chars s pre rest :
  list_ascii_of_string s = pre ++ rest → String.length s = (length pre + length rest)%nat.
Proof. intros Hs. by rewrite <- length_chars, Hs, length_app. Qed.

(** The end of a word that is followed by one of the characters sought. *)
Lemma first_at_word s cs pre word c rest j :
  list_ascii_of_string s = pre ++ word ++ c :: rest →
  (∀ x, x ∈ cs → x ∉ word) → c ∈ cs →
  first_at s cs (length pre) j → j = (length pre + length word)%nat.
Proof.
  intros Hs Hfree Hc Hj. apply (first_at_unique s cs (length pre)); [done|].
  pose proof (length_of_chars s _ _ Hs) as Hlen.
  rewrite length_app in Hlen. simpl in Hlen.
  split; [lia|]. split.
  - intros k x Hk Hx Hin. apply (Hfree x Hin). by eapply charAt_word.
  - intros _. exists c. split; [|done].
    rewrite app_assoc in Hs. apply charAt_middle in Hs.
    by rewrite length_app in Hs.
Qed.

(** The end of a word that ends the command. *)
Lemma first_at_end s cs pre word j :
  list_ascii_of_string s = pre ++ word →
  (∀ x, x ∈ cs → x ∉ word) →
  first_at s cs (length pre) j → j = String.length s.
Proof.
  intros Hs Hfree Hj. apply (first_at_unique s cs (length pre)); [done|].
  pose proof (length_of_chars s _ _ Hs) as Hlen.
  split; [lia|]. split; [|lia].
  intros k x Hk Hx Hin. apply (Hfree x Hin).
  apply (charAt_word s pre word [] k x); [by rewrite app_nil_r|lia|done].
Qed.

Lemma substring_word s pre word rest :
  list_ascii_of_string s = pre ++ word ++ rest →
  substring s (length pre) (length pre + length word) = string_of_list_ascii word.
Proof.
  intros Hs. unfold substring. rewrite Hs.
  replace (Nat.min (length pre) (length pre + length word)) with (length pre) by lia.
  replace (Nat.max (length pre) (length pre + length word) - length pre)%nat
    with (length word) by lia.
  rewrite drop_app_length, take_app_length. done.
Qed.

Lemma yields_exact {A} (m : Parser A) i (a : A) (j : nat) :
  yields m i (fun a' j' => a' = a ∧ j' = j) (fun _ => False) → m i = Returned (a, j).
Proof.
  unfold yields. destruct (m i) as [[a' j']| |]; try done. by intros [-> ->].
Qed.

Lemma string_of_chars s : string_of_list_ascii (list_ascii_of_string s) = s.
Proof. apply string_of_list_ascii_of_string. Qed.

(** The key of a word, read by [parseKey] from the start of the word. *)
Lemma parseKey_word this pre key rest (Q : string → nat → Prop) E :
  list_ascii_of_string (command this) = pre ++ list_ascii_of_string key ++ rest →
  free_of "="%char key → free_of " "%char key →
  (rest = [] ∨ ∃ c rest', rest = c :: rest' ∧ c ∈ ["="%char; " "%char]) →
  key ∈ keys this ∨ key ∈ flags this →
  Q key (length pre + String.length key)%nat →
  yields (parseKey this) (length pre) Q E.
Proof.
  intros Hs Heq Hsp Hrest Hknown HQ.
  pose proof (length_of_chars _ _ _ Hs) as Hlen. rewrite length_app, length_chars in Hlen.
  apply yields_parseKey; [lia|]. intros j Hj.
  assert (Hfree : ∀ x, x ∈ ["="%char; " "%char] → x ∉ list_ascii_of_string key).
  { intros x [->|[->|[]%elem_of_nil]%elem_of_cons]%elem_of_cons; done. }
  assert (j = (length pre + String.length key)%nat) as ->.
  { rewrite <- length_chars. destruct Hrest as [->|(c' & rest' & -> & Hc)].
    - rewrite app_nil_r in Hs. rewrite (first_at_end _ _ _ _ _ Hs Hfree Hj).
      by rewrite <- length_chars, Hs, length_app.
    - by apply (first_at_word _ _ _ _ _ _ _ Hs Hfree Hc). }
  cbn zeta. rewrite <- (length_chars key), (substring_word _ _ _ _ Hs), string_of_chars.
  split; [|by rewrite length_chars]. intros Hk Hf. by destruct Hknown.
Qed.

(** The end of a round: the space behind the word is skipped. *)
Lemma round_end this (result : list (string * string)) pre rest :
  list_ascii_of_string (command this) = pre ++ rest → follows rest →
  yields
    (let* f := finished this in
     let* _ := if negb f then consume this [" "%char] else ret tt in
     ret result) (length pre)
    (fun a j => a = result ∧ j = (length pre + gap rest)%nat) (fun _ => False).
Proof.
  intros Hs Hrest. pose proof (length_of_chars _ _ _ Hs) as Hlen.
  apply yields_bind, yields_finished. destruct Hrest as [->|(rest' & ->)].
  - rewrite bool_decide_eq_true_2 by (simpl in Hlen; lia). cbn [negb].
    apply yields_bind, (yields_ret (A:=unit)), yields_ret. simpl. split; [done|lia].
  - rewrite bool_decide_eq_false_2 by (simpl in Hlen; lia). cbn [negb].
    apply yields_bind, yields_consume; [simpl in Hlen; lia|].
    intros c Hc. rewrite (charAt_middle _ _ _ _ Hs) in Hc. injection Hc as <-.
    rewrite bool_decide_eq_true_2 by left. apply yields_ret. simpl. split; [done|lia].
Qed.

(** The start of a round on a word that is not a negated flag: no
    exclamation mark is consumed. *)
Lemma round_start this pre (word_chars : list ascii) (k : bool → Parser (list (string * string)))
    Q E :
  list_ascii_of_string (command this) = pre ++ word_chars →
  word_chars !! 0%nat ≠ Some "!"%char →
  yields (k false) (length pre) Q E →
  yields
    (let* c := peek this in
     let* parsing_negative_flag :=
       if bool_decide (c = Some "!"%char)
       then let* _ := consume this ["!"%char] in ret true
       else ret false in
     k parsing_negative_flag) (length pre) Q E.
Proof.
  intros Hs Hfirst Hk. apply yields_bind, yields_peek.
  rewrite bool_decide_eq_false_2.
  - by apply yields_bind, (yields_ret (A:=bool)).
  - unfold charAt. rewrite Hs, lookup_app_r by lia. by rewrite Nat.sub_diag.
Qed.

(** One round on a well-formed word gives the entry of the word and
    stops behind the word and the space that follows it. *)
Lemma parse_round_word this (result : list (string * string)) pre word rest :
  well_formed this word → map_get (entry word).1 result = None →
  list_ascii_of_string (command this) = pre ++ list_ascii_of_string (render word) ++ rest →
  follows rest →
  parse_round this result (length pre) =
  Returned (result ++ [entry word],
            (length pre + String.length (render word) + gap rest)%nat).
Proof.
  intros (Heq & Hsp & Hword) Hget Hs Hrest. apply yields_exact.
  assert (Hrest' : rest = [] ∨ ∃ c rest', rest = c :: rest' ∧ c ∈ ["="%char; " "%char]).
  { destruct Hrest as [->|(rest' & ->)]; [by left|right]. eexists _, _. split; [done|].
    right. left. }
  destruct word as [key negated|key sep value|key sep quote value];
    cbn [entry fst render] in *.
  - (* a flag *)
    destruct Hword as (Hflag & Hne & Hbang).
    assert (Hkey : ∀ pre',
      list_ascii_of_string (command this) = pre' ++ list_ascii_of_string key ++ rest →
      ∀ neg,
      yields
        (let* key0 := parseKey this in
         if map_has key0 result then throw (duplicate_key key0)
         else if bool_decide (key0 ∈ flags this) then
           let result0 := map_set key0 (if neg : bool then "false" else "true") result in
           let* c0 := peek this in
           if bool_decide (c0 = Some "="%char) then throw (flag_assigned key0)
           else
             let* f := finished this in
             let* _ := if negb f then consume this [" "%char] else ret tt in
             ret result0
         else
           let* _ := consume this ["="%char; " "%char] in
           let* value := parseValue this in
           let* f := finished this in
           let* _ := if negb f then consume this [" "%char] else ret tt in
           ret (map_set key0 value result)) (length pre')
        (fun a j => a = result ++ [(key, if neg then "false" else "true")] ∧
                    j = (length pre' + String.length key + gap rest)%nat)
        (fun _ => False)).
    { intros pre' Hs' neg.
      apply yields_bind, (parseKey_word this pre' key rest); auto.
      unfold map_has. rewrite Hget.
      rewrite bool_decide_eq_false_2 by (by intros [? ?]).
      rewrite (bool_decide_eq_true_2 _ Hflag). cbn zeta.
      rewrite (map_set_new _ _ _ Hget).
      rewrite app_assoc in Hs'.
      assert (Hlen : length (pre' ++ list_ascii_of_string key) =
                     (length pre' + String.length key)%nat)
        by by rewrite length_app, length_chars.
      rewrite <- Hlen.
      apply yields_bind, yields_peek. rewrite bool_decide_eq_false_2.
      - apply (round_end this _ _ rest Hs' Hrest).
      - destruct Hrest as [->|(rest' & ->)].
        + unfold charAt. rewrite Hs', app_nil_r. by rewrite lookup_ge_None_2.
        + by rewrite (charAt_middle _ _ _ _ Hs'). }
    destruct negated.
    + (* [!key] *)
      assert (Hs2 : list_ascii_of_string (command this) =
                    pre ++ "!"%char :: (list_ascii_of_string key ++ rest)) by exact Hs.
      clear Hs. rename Hs2 into Hs.
      unfold parse_round. apply yields_bind, yields_peek.
      rewrite (charAt_middle _ _ _ _ Hs).
      rewrite bool_decide_eq_true_2 by done.
      apply yields_bind, yields_bind, yields_consume.
      { pose proof (length_of_chars _ _ _ Hs) as Hlen. simpl in Hlen. lia. }
      intros c Hc. rewrite (charAt_middle _ _ _ _ Hs) in Hc. injection Hc as <-.
      rewrite bool_decide_eq_true_2 by left. apply (yields_ret (A:=bool)).
      replace (S (length pre)) with (length (pre ++ ["!"%char]))
        by (rewrite length_app; simpl; lia).
      assert (Hs' : list_ascii_of_string (command this) =
                    (pre ++ ["!"%char]) ++ list_ascii_of_string key ++ rest)
        by by rewrite <- app_assoc.
      eapply yields_weaken; [apply (Hkey (pre ++ ["!"%char]) Hs' true)| |done].
      * intros a j [-> ->]. split; [done|].
        rewrite length_app.
        change (String.length ("!" +:+ key)) with (S (String.length key)).
        simpl. lia.
    + change (list_ascii_of_string ("" +:+ key)) with (list_ascii_of_string key) in Hs.
      unfold parse_round.
      apply (round_start this pre (list_ascii_of_string key ++ rest)); [done| |].
      * destruct key as [|x key]; [done|]. simpl. intros [= ->].
        by apply Hbang.
      * apply (Hkey pre Hs false).
  - (* a key with a plain value *)
    destruct Hword as (Hkey & Hnoflag & Hbang & Hsepin & Hvalue & Hnoquote).
    assert (Hs1 : list_ascii_of_string (command this) =
                  pre ++ list_ascii_of_string key ++
                  sep :: (list_ascii_of_string value ++ rest)).
    { rewrite Hs, chars_app, <- app_assoc. done. }
    set (pre2 := pre ++ list_ascii_of_string key ++ [sep]).
    assert (Hs2 : list_ascii_of_string (command this) =
                  pre2 ++ list_ascii_of_string value ++ rest).
    { unfold pre2. rewrite Hs1, <- !app_assoc. done. }
    assert (Hpre2 : length pre2 = S (length pre + String.length key)).
    { unfold pre2. rewrite !length_app, length_chars. simpl. lia. }
    assert (Hlen : String.length (key +:+ char_string sep +:+ value) =
                   (String.length key + S (String.length value))%nat).
    { rewrite <- !length_chars, chars_app, length_app. done. }
    unfold parse_round.
    apply (round_start this pre (list_ascii_of_string key ++
                                 sep :: (list_ascii_of_string value ++ rest))); [done| |].
    { destruct key as [|x key]; simpl.
      - intros [= ->]. apply elem_of_cons in Hsepin as [?|Hin]; [done|].
        by apply list_elem_of_singleton in Hin.
      - intros [= ->]. by apply Hbang. }
    apply yields_bind, (parseKey_word this pre key _ _ _ Hs1); auto.
    { right. by eexists _, _. }
    unfold map_has. rewrite Hget.
    rewrite bool_decide_eq_false_2 by (by intros [? ?]).
    rewrite (bool_decide_eq_false_2 _ Hnoflag).
    apply yields_bind, yields_consume.
    { pose proof (length_of_chars _ _ _ Hs2). lia. }
    intros c Hc.
    assert (charAt (command this) (length pre + String.length key) = Some sep) as Hsep.
    { rewrite <- length_chars, <- length_app.
      apply (charAt_middle _ _ _ (list_ascii_of_string value ++ rest)).
      by rewrite <- app_assoc. }
    rewrite Hsep in Hc. injection Hc as <-.
    rewrite (bool_decide_eq_true_2 _ Hsepin). rewrite <- Hpre2.
    apply yields_bind, yields_parseValue.
    { pose proof (length_of_chars _ _ _ Hs2). lia. }
    + intros _ j Hj.
      assert (j = (length pre2 + length (list_ascii_of_string value))%nat) as ->.
      { assert (Hfree : ∀ x, x ∈ [" "%char] → x ∉ list_ascii_of_string value).
        { by intros x ->%list_elem_of_singleton. }
        destruct Hrest as [->|(rest' & ->)].
        - rewrite app_nil_r in Hs2. rewrite (first_at_end _ _ _ _ _ Hs2 Hfree Hj).
          by rewrite <- length_chars, Hs2, length_app.
        - apply (first_at_word _ _ _ _ _ _ _ Hs2 Hfree); [left|done]. }
      rewrite (substring_word _ _ _ _ Hs2), string_of_chars.
      rewrite <- length_app. rewrite app_assoc in Hs2.
      eapply yields_weaken; [apply (round_end this _ _ rest Hs2 Hrest)| |done].
      intros a j [-> ->]. rewrite (map_set_new _ _ _ Hget). split; [done|].
      rewrite length_app, Hpre2, Hlen, length_chars. lia.
    + intros q j Hq Hquote _. exfalso.
      unfold charAt in Hq. rewrite Hs2, lookup_app_r, Nat.sub_diag in Hq by lia.
      destruct value as [|x value]; simpl in Hq.
      * destruct Hrest as [->|(rest' & ->)]; [done|]. injection Hq as <-.
        by apply quote_not_space in Hquote.
      * injection Hq as <-. by apply (Hnoquote x).
  - (* a key with a quoted value *)
    destruct Hword as (Hkey & Hnoflag & Hbang & Hsepin & Hquote & Hvalue).
    assert (Hs1 : list_ascii_of_string (command this) =
                  pre ++ list_ascii_of_string key ++
                  sep :: (quote :: list_ascii_of_string value ++ quote :: rest)).
    { rewrite Hs, chars_app, <- app_assoc.
      change (list_ascii_of_string
                (char_string sep +:+ char_string quote +:+ value +:+ char_string quote))
        with (sep :: quote :: list_ascii_of_string (value +:+ char_string quote)).
      rewrite chars_app. simpl. by rewrite <- app_assoc. }
    set (pre2 := pre ++ list_ascii_of_string key ++ [sep]).
    assert (Hs2 : list_ascii_of_string (command this) =
                  pre2 ++ quote :: (list_ascii_of_string value ++ quote :: rest)).
    { unfold pre2. rewrite Hs1, <- !app_assoc. done. }
    set (pre3 := pre2 ++ [quote]).
    assert (Hs3 : list_ascii_of_string (command this) =
                  pre3 ++ list_ascii_of_string value ++ quote :: rest).
    { unfold pre3. rewrite Hs2, <- !app_assoc. done. }
    assert (Hpre2 : length pre2 = S (length pre + String.length key)).
    { unfold pre2. rewrite !length_app, length_chars. simpl. lia. }
    assert (Hpre3 : length pre3 = S (length pre2)).
    { unfold pre3. rewrite length_app. simpl. lia. }
    assert (Hlen : String.length
                     (key +:+ char_string sep +:+ char_string quote +:+ value +:+
                      char_string quote) =
                   (String.length key + S (S (S (String.length value))))%nat).
    { rewrite <- !length_chars, chars_app, length_app.
      change (list_ascii_of_string
                (char_string sep +:+ char_string quote +:+ value +:+ char_string quote))
        with (sep :: quote :: list_ascii_of_string (value +:+ char_string quote)).
      rewrite chars_app. simpl. rewrite length_app. simpl. lia. }
    unfold parse_round.
    apply (round_start this pre (list_ascii_of_string key ++
             sep :: (quote :: list_ascii_of_string value ++ quote :: rest))); [done| |].
    { destruct key as [|x key]; simpl.
      - intros [= ->]. apply elem_of_cons in Hsepin as [?|Hin]; [done|].
        by apply list_elem_of_singleton in Hin.
      - intros [= ->]. by apply Hbang. }
    apply yields_bind, (parseKey_word this pre key _ _ _ Hs1); auto.
    { right. by eexists _, _. }
    unfold map_has. rewrite Hget.
    rewrite bool_decide_eq_false_2 by (by intros [? ?]).
    rewrite (bool_decide_eq_false_2 _ Hnoflag).
    apply yields_bind, yields_consume.
    { pose proof (length_of_chars _ _ _ Hs2). lia. }
    intros c Hc.
    assert (charAt (command this) (length pre + String.length key) = Some sep) as Hsep.
    { rewrite <- length_chars, <- length_app.
      apply (charAt_middle _ _ _
               (quote :: list_ascii_of_string value ++ quote :: rest)).
      by rewrite <- app_assoc. }
    rewrite Hsep in Hc. injection Hc as <-.
    rewrite (bool_decide_eq_true_2 _ Hsepin). rewrite <- Hpre2.
    apply yields_bind, yields_parseValue.
    { pose proof (length_of_chars _ _ _ Hs2). lia. }
    + intros Hnot. exfalso. apply (Hnot quote); [|done].
      exact (charAt_middle _ pre2 quote _ Hs2).
    + intros q j Hq _ Hj.
      rewrite (charAt_middle _ pre2 quote _ Hs2) in Hq. injection Hq as <-.
      rewrite <- Hpre3 in Hj |- *.
      assert (j = (length pre3 + length (list_ascii_of_string value))%nat) as ->.
      { apply (first_at_word _ [quote] pre3 (list_ascii_of_string value) quote rest j Hs3);
          [|left|done].
        by intros x ->%list_elem_of_singleton. }
      pose proof (length_of_chars _ _ _ Hs3) as Hl3.
      rewrite length_app in Hl3. simpl in Hl3.
      split; [lia|]. intros _.
      rewrite (substring_word _ _ _ _ Hs3), string_of_chars.
      assert (Hs4 : list_ascii_of_string (command this) =
                    (pre3 ++ list_ascii_of_string value ++ [quote]) ++ rest).
      { rewrite Hs3, <- !app_assoc. done. }
      replace (S (length pre3 + length (list_ascii_of_string value)))
        with (length (pre3 ++ list_ascii_of_string value ++ [quote]))
        by (rewrite !length_app; simpl; lia).
      eapply yields_weaken; [apply (round_end this _ _ rest Hs4 Hrest)| |done].
      intros a j [-> ->]. rewrite (map_set_new _ _ _ Hget). split; [done|].
      rewrite !length_app, Hpre3, Hpre2, Hlen, length_chars. simpl. lia.
Qed.

Lemma render_nonempty this word : well_formed this word → render word ≠ "".
Proof.
  intros (_ & _ & Hword). destruct word as [key []|key sep value|key sep quote value];
    cbn [render]; try done.
  - destruct Hword as (_ & Hne & _). by destruct key.
  - by destruct key.
  - by destruct key.
Qed.

Lemma parse_loop_finished this fuel (result : list (string * string)) i :
  (String.length (command this) ≤ i)%nat →
  parse_loop this fuel result i = Returned (result, i).
Proof.
  intros Hi. destruct fuel; cbn [parse_loop];
    cbv beta iota delta [bind finished get_index ret];
    by rewrite bool_decide_eq_true_2.
Qed.

Lemma parse_loop_round this fuel (result : list (string * string)) i :
  (i < String.length (command this))%nat →
  parse_loop this (S fuel) result i =
  match parse_round this result i with
  | Returned (result', j) => parse_loop this fuel result' j
  | Thrown e => Thrown e
  | OutOfFuel => OutOfFuel
  end.
Proof.
  intros Hi. cbn [parse_loop]. unfold bind at 1.
  assert (finished this i = Returned (false, i)) as ->.
  { cbv beta iota delta [bind finished get_index ret].
    by rewrite bool_decide_eq_false_2 by lia. }
  done.
Qed.

Lemma parse_loop_words this words :
  Forall (well_formed this) words →
  ∀ pre (result : list (string * string)) fuel,
    NoDup (map fst result ++ map (fun w => (entry w).1) words) →
    list_ascii_of_string (command this) =
      pre ++ list_ascii_of_string (join " " (map render words)) →
    (length words ≤ fuel)%nat →
    parse_loop this fuel result (length pre) =
    Returned (result ++ map entry words, String.length (command this)).
Proof.
  induction 1 as [|word words Hword Hwords IH]; intros pre result fuel Hnd Hs Hfuel.
  - simpl in Hs. rewrite app_nil_r in Hs.
    assert (String.length (command this) = length pre) as Hlen
      by by rewrite <- length_chars, Hs.
    rewrite parse_loop_finished by lia. by rewrite app_nil_r, Hlen.
  - destruct fuel as [|fuel]; [simpl in Hfuel; lia|].
    set (rest := match words with
                 | [] => []
                 | _ => " "%char :: list_ascii_of_string (join " " (map render words))
                 end).
    assert (Hs' : list_ascii_of_string (command this) =
                  pre ++ list_ascii_of_string (render word) ++ rest).
    { rewrite Hs. f_equal. unfold rest. destruct words as [|w ws].
      - simpl. by rewrite app_nil_r.
      - change (join " " (map render (word :: w :: ws)))
          with (render word +:+ " " +:+ join " " (map render (w :: ws))).
        by rewrite chars_app. }
    assert (Hfollows : follows rest).
    { unfold rest. destruct words; [by left|right; by eexists]. }
    assert (Hget : map_get (entry word).1 result = None).
    { apply map_get_None. intros Hin. apply NoDup_app in Hnd as (_ & Hdisj & _).
      apply (Hdisj _ Hin). left. }
    pose proof (length_of_chars _ _ _ Hs') as Hlen.
    rewrite length_app, length_chars in Hlen.
    assert (render word ≠ "") as Hne by by eapply render_nonempty.
    assert (0 < String.length (render word))%nat by (destruct (render word); simpl; [done|lia]).
    rewrite parse_loop_round by lia.
    rewrite (parse_round_word this result pre word rest Hword Hget Hs' Hfollows).
    assert (Hnd' : NoDup (map fst (result ++ [entry word]) ++
                          map (fun w => (entry w).1) words)).
    { rewrite map_app, <- app_assoc. exact Hnd. }
    destruct words as [|w ws].
    + specialize (IH (pre ++ list_ascii_of_string (render word)) (result ++ [entry word])
                     fuel Hnd').
      rewrite length_app, length_chars in IH. unfold rest. cbn [gap].
      rewrite Nat.add_0_r, IH; [by rewrite <- app_assoc| |simpl; lia].
      unfold rest in Hs'. rewrite Hs'. simpl. by rewrite !app_nil_r.
    + specialize (IH (pre ++ list_ascii_of_string (render word) ++ [" "%char])
                     (result ++ [entry word]) fuel Hnd').
      rewrite !length_app, length_chars in IH. unfold rest. cbn [gap length] in *.
      rewrite Nat.add_assoc in IH.
      rewrite IH; [by rewrite <- app_assoc| |simpl in Hfuel; lia].
      unfold rest in Hs'. rewrite Hs', <- !app_assoc. done.
Qed.

(** A command line made of well-formed words with different keys, one
    space between two words, is parsed into the entries of its words, in
    their order; as many rounds as there are words suffice. *)
Theorem parse_well_formed (this : CommandParser) (words : list Word) (fuel : nat) :
  command this = join " " (map render words) →
  Forall (well_formed this) words →
  NoDup (map (fun w => (entry w).1) words) →
  (length words ≤ fuel)%nat →
  parse this fuel = Returned (map entry words).
Proof.
  intros Hcommand Hwords Hnd Hfuel. unfold parse.
  pose proof (parse_loop_words this words Hwords [] [] fuel Hnd) as Hloop.
  cbn [length app] in Hloop. rewrite Hloop; [done| |done].
  by rewrite Hcommand.
Qed.

Lemma parse_well_formed_witness :
  parse {| command := "a=1 b='x y' !f g c=";
           keys := {[ "a"; "b"; "c" ]}; flags := {[ "f"; "g" ]} |} 5 =
  Returned [("a", "1"); ("b", "x y"); ("f", "false"); ("g", "true"); ("c", "")].
Proof.
  apply (parse_well_formed _
           [WPlain "a" "=" "1"; WQuoted "b" "=" single_quote "x y"; WFlag "f" true;
            WFlag "g" false; WPlain "c" "=" ""]).
  - reflexivity.
  - repeat apply Forall_cons_2; try apply Forall_nil_2;
      unfold well_formed, free_of; cbn [entry fst];
      repeat split; try discriminate;
      try (refine (bool_decide_unpack _ _); vm_compute; exact I);
      intros q [= <-]; refine (bool_decide_unpack _ _); vm_compute; exact I.
  - refine (bool_decide_unpack _ _). vm_compute. exact I.
  - simpl. lia.
Defined.

Lemma parse_terminates_witness :
  parse {| command := "a=1 a=2"; keys := {[ "a" ]}; flags := ∅ |} 7 ≠ OutOfFuel.
Proof.
  apply (parse_terminates {| command := "a=1 a=2"; keys := {[ "a" ]}; flags := ∅ |} 7).
  simpl. lia.
Defined.

(** ** Args: create, fill and parse *)

Lemma parseAndValidate_outcome arg source text :
  match parseAndValidate arg source text with
  | Returned v => accepts arg text v
  | Thrown e => rejects arg source text e
  | OutOfFuel => False
  end.
Proof.
  unfold parseAndValidate, accepts, rejects.
  destruct (parser arg text) as [v|] eqn:Hp; [|by left].
  destruct (spec_options (arg_spec arg)) as [options|] eqn:Ho; [|done].
  destruct (decide (v ∈ map fst options)) as [Hin|Hout].
  - rewrite (bool_decide_eq_true_2 _ Hin). simpl. split; [done|]. by intros ? [= <-].
  - rewrite (bool_decide_eq_false_2 _ Hout). simpl. right. by exists v, options.
Qed.

Lemma set_property_get_same k v (res : list (string * option Value)) :
  k ≠ "__proto__" → map_get k (set_property k v res) = Some v.
Proof.
  intros Hk. unfold set_property. rewrite (bool_decide_eq_false_2 _ Hk).
  rewrite map_get_set. by rewrite decide_True.
Qed.

Lemma set_property_get_other k k' v (res : list (string * option Value)) :
  k' ≠ k → map_get k (set_property k' v res) = map_get k res.
Proof.
  intros Hk. unfold set_property. case_bool_decide; [done|].
  rewrite map_get_set. by rewrite decide_False.
Qed.

(** A loop that assigns to the property of each entry what [g] gives for
    it, and leaves the property alone where [g] gives nothing. *)
Lemma assign_loop (body : string * Arg → list (string * option Value) →
                          Outcome (list (string * option Value)))
    (g : string * Arg → option (option Value)) l res res' :
  (∀ kv r r', kv ∈ l → body kv r = Returned r' →
     r' = match g kv with Some ov => set_property kv.1 ov r | None => r end) →
  NoDup (map fst l) →
  for_each body l res = Returned res' →
  ∀ k,
    (∀ arg, (k, arg) ∈ l → k ≠ "__proto__" →
       map_get k res' = match g (k, arg) with Some ov => Some ov | None => map_get k res end) ∧
    (k ∉ map fst l → map_get k res' = map_get k res).
Proof.
  revert res. induction l as [|[k0 a0] l IH]; intros res Hbody Hnd Hrun k.
  - simpl in Hrun. injection Hrun as <-. split; [|done]. by intros arg ?%elem_of_nil.
  - simpl in Hrun. destruct (body (k0, a0) res) as [r1| |] eqn:Hb; [|done|done].
    apply Hbody in Hb; [|left]. simpl in Hb.
    cbn [map fst] in Hnd. apply NoDup_cons in Hnd as [Hk0 Hnd].
    destruct (IH r1 (fun kv r r' Hin => Hbody kv r r' (list_elem_of_further _ _ _ Hin))
                Hnd Hrun k) as [IHin IHout].
    assert (Hother : k0 ≠ k → map_get k r1 = map_get k res).
    { intros Hne. rewrite Hb. destruct (g (k0, a0)); [|done].
      by apply set_property_get_other. }
    split.
    + intros arg Hin Hproto. apply elem_of_cons in Hin as [[= -> ->]|Hin].
      * rewrite IHout by done. rewrite Hb. destruct (g (k0, a0)); [|done].
        by apply set_property_get_same.
      * assert (k0 ≠ k) as Hne.
        { intros ->. apply Hk0. apply list_elem_of_fmap. by exists (k, arg). }
        rewrite (IHin arg Hin Hproto). by rewrite Hother.
    + intros Hout. cbn [map fst] in Hout. apply not_elem_of_cons in Hout as [Hne Hout].
      rewrite IHout by done. by apply Hother.
Qed.

Lemma for_each_fold {A S : Type} (f : S → A → S) (l : list A) (s : S) :
  for_each (fun x s => Returned (f s x)) l s = Returned (fold_left f l s).
Proof. revert s. induction l as [|x l IH]; intros s; simpl; [done|apply IH]. Qed.

Lemma fill_defaults_get l k arg :
  NoDup (map fst l) → (k, arg) ∈ l → k ≠ "__proto__" →
  map_get k (fill_defaults l) = Some (spec_default (arg_spec arg)).
Proof.
  intros Hnd Hin Hk. unfold fill_defaults.
  pose proof (for_each_fold
    (fun res (kv : string * Arg) => set_property kv.1 (spec_default (arg_spec kv.2)) res)
    l []) as Hrun.
  apply (assign_loop _ (fun kv => Some (spec_default (arg_spec kv.2)))) with (k := k) in Hrun;
    [|by intros kv r r' _ [= <-]|done].
  destruct Hrun as [Hget _]. by rewrite (Hget arg Hin Hk).
Qed.

Lemma check_reserved_outcome args :
  (check_reserved args = Returned tt ∧ Forall (fun kv => ¬ reserved kv) args) ∨
  (check_reserved args = Thrown help_reserved ∧ Exists reserved args).
Proof.
  unfold check_reserved. induction args as [|kv args IH]; [by left|].
  cbn [for_each]. destruct (decide (kv.1 = "help")) as [H1|H1].
  { rewrite (bool_decide_eq_true_2 _ H1). simpl. right. split; [done|].
    apply Exists_cons_hd. by left. }
  rewrite (bool_decide_eq_false_2 _ H1).
  destruct (decide (spec_key (arg_spec kv.2) = Some "help")) as [H2|H2].
  { rewrite (bool_decide_eq_true_2 _ H2). simpl. right. split; [done|].
    apply Exists_cons_hd. by right. }
  rewrite (bool_decide_eq_false_2 _ H2). simpl.
  destruct IH as [[Hrun Hall]|[Hrun Hex]].
  - left. split; [done|]. apply Forall_cons_2; [|done]. by intros [?|?].
  - right. split; [done|]. by apply Exists_cons_tl.
Qed.

Lemma with_help_NoDup args :
  NoDup (map fst args) → Forall (fun kv => ¬ reserved kv) args →
  NoDup (map fst (with_help args)).
Proof.
  intros Hnd Hall. unfold with_help. rewrite map_app. apply NoDup_app.
  split; [done|]. split; [|apply NoDup_singleton].
  intros k Hk Hhelp. apply list_elem_of_singleton in Hhelp. simpl in Hhelp. subst k.
  apply list_elem_of_fmap in Hk as (kv & Hkv & Hin).
  rewrite Forall_forall in Hall. apply (Hall kv Hin). by left.
Qed.

(** The body of the settings loop. *)
Lemma read_setting_outcome get_setting scriptName (kv : string * Arg)
    (res : list (string * option Value)) :
  match read_setting get_setting scriptName kv res with
  | Returned res' =>
      match from_setting get_setting scriptName kv.1 kv.2 with
      | Some text => ∃ v, accepts kv.2 text v ∧ res' = set_property kv.1 (Some v) res
      | None => res' = res
      end
  | Thrown e =>
      ∃ text, from_setting get_setting scriptName kv.1 kv.2 = Some text ∧
              rejects kv.2 ("Setting " +:+ setting_of scriptName kv.1 kv.2) text e
  | OutOfFuel => False
  end.
Proof.
  unfold read_setting, from_setting. cbv zeta.
  case_bool_decide; [done|]. case_bool_decide; [done|].
  pose proof (parseAndValidate_outcome kv.2
                ("Setting " +:+ setting_of scriptName kv.1 kv.2)
                (get_setting (setting_of scriptName kv.1 kv.2))) as Hp.
  destruct (parseAndValidate _ _ _) as [v|e|]; [|by eexists|done].
  by exists v.
Qed.

(** The body of the command line loop. *)
Lemma read_argument_outcome (parsed : list (string * string)) (kv : string * Arg)
    (res : list (string * option Value)) :
  match read_argument parsed kv res with
  | Returned res' =>
      match map_get (key_of kv.1 kv.2) parsed with
      | Some text => ∃ v, accepts kv.2 text v ∧ res' = set_property kv.1 (Some v) res
      | None => res' = res
      end
  | Thrown e =>
      ∃ text, map_get (key_of kv.1 kv.2) parsed = Some text ∧
              rejects kv.2 ("Argument " +:+ key_of kv.1 kv.2) text e
  | OutOfFuel => False
  end.
Proof.
  unfold read_argument. cbv zeta.
  destruct (map_get (key_of kv.1 kv.2) parsed) as [text|]; [|done].
  pose proof (parseAndValidate_outcome kv.2 ("Argument " +:+ key_of kv.1 kv.2) text) as Hp.
  destruct (parseAndValidate _ _ _) as [v|e|]; [|by eexists|done].
  by exists v.
Qed.

(** What a returning loop has read and assigned. *)
Lemma read_loop (body : string * Arg → list (string * option Value) →
                        Outcome (list (string * option Value)))
    (text_of : string * Arg → option string) l res res' :
  (∀ kv r, kv ∈ l →
     match body kv r with
     | Returned r' =>
         match text_of kv with
         | Some text => ∃ v, accepts kv.2 text v ∧ r' = set_property kv.1 (Some v) r
         | None => r' = r
         end
     | _ => True
     end) →
  NoDup (map fst l) →
  for_each body l res = Returned res' →
  ∀ k arg, (k, arg) ∈ l →
    (∀ text, text_of (k, arg) = Some text → ∃ v, accepts arg text v) ∧
    (k ≠ "__proto__" →
     map_get k res' = match text_of (k, arg) with
                      | Some text => Some (parser arg text)
                      | None => map_get k res
                      end).
Proof.
  intros Hbody Hnd Hrun k arg Hin.
  assert (Hacc : ∀ text, text_of (k, arg) = Some text → ∃ v, accepts arg text v).
  { clear Hnd. revert res Hrun. induction l as [|kv l IH]; intros res Hrun.
    { by apply elem_of_nil in Hin. }
    simpl in Hrun. pose proof (Hbody kv res ltac:(left)) as Hstep.
    destruct (body kv res) as [r1| |]; [|done|done].
    apply elem_of_cons in Hin as [<-|Hin].
    - intros text Htext. rewrite Htext in Hstep. destruct Hstep as (v & Hv & _).
      by exists v.
    - apply (IH (fun kv r Hkv => Hbody kv r (list_elem_of_further _ _ _ Hkv)) Hin r1 Hrun). }
  split; [done|]. intros Hproto.
  pose (g := fun kv : string * Arg =>
               match text_of kv with
               | Some text => Some (parser kv.2 text)
               | None => None
               end).
  destruct (assign_loop body g l res res') with (k := k) as [Hget _]; [|done|done|].
  - intros kv r r' Hkv Hb. specialize (Hbody kv r Hkv). rewrite Hb in Hbody.
    unfold g. destruct (text_of kv) as [text|]; [|done].
    destruct Hbody as (v & [Hv _] & ->). by rewrite Hv.
  - rewrite (Hget arg Hin Hproto). unfold g. simpl. by destruct (text_of (k, arg)).
Qed.

Lemma command_line_outcome spec command :
  match command_line spec command with
  | Returned parsed => True
  | Thrown e =>
      ∃ c, command = Some c ∧ c ≠ "" ∧
           parse_error {| command := c; keys := fill_keys spec; flags := fill_flags spec |} e
  | OutOfFuel => False
  end.
Proof.
  unfold command_line. destruct command as [c|]; [|done].
  case_bool_decide as Hc; [done|].
  set (this := {| command := c; keys := fill_keys spec; flags := fill_flags spec |}).
  pose proof (parse_loop_outcome this (String.length c) [] 0%nat ltac:(lia) (NoDup_nil_2))
    as Hloop.
  unfold parse. destruct (parse_loop this (String.length c) [] 0%nat) as [[r j]|e|].
  - done.
  - exists c. split; [done|]. split; [done|]. apply Hloop. by intros k v ?%elem_of_nil.
  - simpl in Hloop. assert (String.length c < String.length c - 0)%nat; [|lia].
    apply Hloop. by intros k v ?%elem_of_nil.
Qed.

(** [Args.fill] in terms of [command_line]. *)
Lemma Args_fill_command_line args command :
  Args_fill args command =
  match command_line (args_spec args) command with
  | Returned parsed =>
      match command with
      | None => Returned args
      | Some c =>
          if bool_decide (c = "") then Returned args
          else
            match fill_parsed parsed (args_spec args) (args_values args) with
            | Returned res =>
                Returned {| args_spec := args_spec args; args_script := args_script args;
                            args_scriptHelp := args_scriptHelp args; args_values := res |}
            | Thrown e => Thrown e
            | OutOfFuel => OutOfFuel
            end
      end
  | Thrown e => Thrown e
  | OutOfFuel => OutOfFuel
  end.
Proof.
  unfold Args_fill, command_line. destruct command as [c|]; [|done].
  case_bool_decide; [done|]. by destruct (parse _ _).
Qed.

(** What a returning [Args.parse] has done. *)
Lemma Args_parse_returned get_setting scriptName scriptHelp spec command obj :
  NoDup (map fst spec) →
  Args_parse get_setting scriptName scriptHelp spec command = Returned obj →
  Forall (fun kv => ¬ reserved kv) spec ∧
  args_spec obj = with_help spec ∧
  ∃ parsed,
    command_line (with_help spec) command = Returned parsed ∧
    ∀ k arg, (k, arg) ∈ with_help spec →
      (∀ text, from_setting get_setting scriptName k arg = Some text →
               ∃ v, accepts arg text v) ∧
      (∀ text, map_get (key_of k arg) parsed = Some text → ∃ v, accepts arg text v) ∧
      (k ≠ "__proto__" →
       map_get k (args_values obj) =
       Some match map_get (key_of k arg) parsed with
            | Some text => parser arg text
            | None =>
                match from_setting get_setting scriptName k arg with
                | Some text => parser arg text
                | None => spec_default (arg_spec arg)
                end
            end).
Proof.
  intros Hnd. unfold Args_parse, Args_create.
  destruct (check_reserved_outcome spec) as [[-> Hall]|[-> _]]; [|done].
  pose proof (with_help_NoDup spec Hnd Hall) as Hnd'.
  destruct (fill_settings _ _ _ _) as [res1| |] eqn:Hsettings; [|done|done].
  rewrite Args_fill_command_line. cbn [args_spec args_values args_script args_scriptHelp].
  assert (Hset := read_loop (read_setting get_setting scriptName)
                (fun kv => from_setting get_setting scriptName kv.1 kv.2)
                (with_help spec) (fill_defaults (with_help spec)) res1).
  cbv beta in Hset.
  specialize (Hset ltac:(intros kv r _;
                         pose proof (read_setting_outcome get_setting scriptName kv r);
                         by destruct (read_setting _ _ _ _)) Hnd' Hsettings).
  destruct (command_line (with_help spec) command) as [parsed| |] eqn:Hcl; [|done|done].
  assert (Hdefault : ∀ k arg, (k, arg) ∈ with_help spec → k ≠ "__proto__" →
            map_get k res1 = Some match from_setting get_setting scriptName k arg with
                                  | Some text => parser arg text
                                  | None => spec_default (arg_spec arg)
                                  end).
  { intros k arg Hin Hk. destruct (Hset k arg Hin) as [_ Hget]. rewrite (Hget Hk). simpl.
    destruct (from_setting _ _ _ _); [done|]. by apply fill_defaults_get. }
  assert (Hnone : ∀ res2, res2 = res1 → parsed = [] →
            Returned {| args_spec := with_help spec; args_script := scriptName;
                        args_scriptHelp := scriptHelp; args_values := res2 |} = Returned obj →
            Forall (fun kv => ¬ reserved kv) spec ∧ args_spec obj = with_help spec ∧
            ∃ parsed0, Returned parsed = Returned parsed0 ∧
              ∀ k arg, (k, arg) ∈ with_help spec →
                (∀ text, from_setting get_setting scriptName k arg = Some text →
                         ∃ v, accepts arg text v) ∧
                (∀ text, map_get (key_of k arg) parsed0 = Some text → ∃ v, accepts arg text v) ∧
                (k ≠ "__proto__" →
                 map_get k (args_values obj) =
                 Some match map_get (key_of k arg) parsed0 with
                      | Some text => parser arg text
                      | None =>
                          match from_setting get_setting scriptName k arg with
                          | Some text => parser arg text
                          | None => spec_default (arg_spec arg)
                          end
                      end)).
  { intros res2 -> -> [= <-]. split; [done|]. split; [done|]. exists []. split; [done|].
    intros k arg Hin. destruct (Hset k arg Hin) as [Hacc _].
    split; [done|]. split; [done|]. simpl. by apply Hdefault. }
  destruct command as [c|]; [|apply (Hnone res1); [done|by injection Hcl]].
  unfold command_line in Hcl.
  destruct (decide (c = "")) as [Hc|Hc].
  { rewrite (bool_decide_eq_true_2 _ Hc) in Hcl |- *. apply (Hnone res1); [done|by injection Hcl]. }
  rewrite (bool_decide_eq_false_2 _ Hc).
  destruct (fill_parsed parsed (with_help spec) res1) as [res2| |] eqn:Hparsed; [|done|done].
  intros [= <-]. cbn [args_spec args_values].
  split; [done|]. split; [done|]. exists parsed. split; [done|].
  assert (Hcmd := read_loop (read_argument parsed)
                (fun kv => map_get (key_of kv.1 kv.2) parsed) (with_help spec) res1 res2).
  cbv beta in Hcmd.
  specialize (Hcmd ltac:(intros kv r _;
                         pose proof (read_argument_outcome parsed kv r);
                         by destruct (read_argument _ _ _)) Hnd' Hparsed).
  intros k arg Hin. destruct (Hset k arg Hin) as [Hacc _].
  destruct (Hcmd k arg Hin) as [Hacc' Hget]. simpl in Hacc', Hget.
  split; [done|]. split; [done|]. intros Hk. rewrite (Hget Hk).
  destruct (map_get (key_of k arg) parsed); [done|]. by apply Hdefault.
Qed.

Lemma Args_custom_returned spec parser0 name arg :
  Args_custom spec parser0 name = Returned arg →
  arg_spec arg = spec ∧
  ∀ d options, spec_default spec = Some d → spec_options spec = Some options →
               d ∈ map fst options.
Proof.
  unfold Args_custom. destruct (spec_default spec) as [d|], (spec_options spec) as [options|];
    try (intros [= <-]; by split).
  destruct (decide (d ∈ map fst options)) as [Hin|Hout].
  - rewrite (bool_decide_eq_true_2 _ Hin). simpl. intros [= <-]. split; [done|].
    by intros ? ? [= <-] [= <-].
  - by rewrite (bool_decide_eq_false_2 _ Hout).
Qed.

(** When [Args.parse] returns, each argument holds what the command
    line gives for its key, else what its setting holds, else its default
    (or [undefined]); and every text that the settings or the command line
    give has been parsed and checked against the options, also a setting
    that the command line overrides. *)
Theorem Args_parse_precedence get_setting scriptName scriptHelp spec command obj :
  NoDup (map fst spec) →
  Args_parse get_setting scriptName scriptHelp spec command = Returned obj →
  ∃ parsed,
    command_line (with_help spec) command = Returned parsed ∧
    ∀ k arg, (k, arg) ∈ with_help spec →
      (∀ text, from_setting get_setting scriptName k arg = Some text →
               ∃ v, accepts arg text v) ∧
      (∀ text, map_get (key_of k arg) parsed = Some text → ∃ v, accepts arg text v) ∧
      (k ≠ "__proto__" →
       map_get k (args_values obj) =
       Some match map_get (key_of k arg) parsed with
            | Some text => parser arg text
            | None =>
                match from_setting get_setting scriptName k arg with
                | Some text => parser arg text
                | None => spec_default (arg_spec arg)
                end
            end).
Proof.
  intros Hnd Hrun.
  by destruct (Args_parse_returned _ _ _ _ _ _ Hnd Hrun) as (_ & _ & Hparsed).
Qed.

(** For arguments made by [Args.custom], an argument with options
    never holds a value outside its options after [Args.parse]: it holds
    one of them, or [undefined] when it has no default. *)
Theorem Args_parse_options get_setting scriptName scriptHelp spec command obj :
  NoDup (map fst spec) →
  (∀ k arg, (k, arg) ∈ spec → ∃ spec0 parser0 name, Args_custom spec0 parser0 name = Returned arg) →
  Args_parse get_setting scriptName scriptHelp spec command = Returned obj →
  ∀ k arg options,
    (k, arg) ∈ spec → k ≠ "__proto__" → spec_options (arg_spec arg) = Some options →
    (∃ v, map_get k (args_values obj) = Some (Some v) ∧ v ∈ map fst options) ∨
    (map_get k (args_values obj) = Some None ∧ spec_default (arg_spec arg) = None).
Proof.
  intros Hnd Hcustom Hrun k arg options Hin Hk Hoptions.
  destruct (Args_parse_returned _ _ _ _ _ _ Hnd Hrun) as (_ & _ & parsed & _ & Hall).
  destruct (Hall k arg) as (Hset & Hcmd & Hget).
  { unfold with_help. apply elem_of_app. by left. }
  rewrite (Hget Hk).
  destruct (map_get (key_of k arg) parsed) as [text|].
  { destruct (Hcmd text eq_refl) as (v & Hv & Hopt). left. exists v.
    rewrite Hv. split; [done|]. by apply Hopt. }
  destruct (from_setting get_setting scriptName k arg) as [text|].
  { destruct (Hset text eq_refl) as (v & Hv & Hopt). left. exists v.
    rewrite Hv. split; [done|]. by apply Hopt. }
  destruct (spec_default (arg_spec arg)) as [d|] eqn:Hd; [|by right].
  left. exists d. split; [done|].
  destruct (Hcustom k arg Hin) as (spec0 & parser0 & name & Hmade).
  apply Args_custom_returned in Hmade as [Hspec Hdefault]. subst spec0.
  by apply Hdefault.
Qed.

(** [Args.parse] always ends. It throws [help is a reserved argument
    name] whenever an argument is named [help] or has the key [help],
    whatever else it is given; any other message it throws comes from a
    setting that its argument rejects, from the command line parser, or
    from a command line value that its argument rejects. *)
Theorem Args_parse_outcomes get_setting scriptName scriptHelp spec command :
  Args_parse get_setting scriptName scriptHelp spec command ≠ OutOfFuel ∧
  (Exists reserved spec →
   Args_parse get_setting scriptName scriptHelp spec command = Thrown help_reserved) ∧
  ∀ e, Args_parse get_setting scriptName scriptHelp spec command = Thrown e →
    (e = help_reserved ∧ Exists reserved spec) ∨
    (∃ k arg text, (k, arg) ∈ with_help spec ∧
       from_setting get_setting scriptName k arg = Some text ∧
       rejects arg ("Setting " +:+ setting_of scriptName k arg) text e) ∨
    (∃ c, command = Some c ∧ c ≠ "" ∧
       parse_error {| command := c; keys := fill_keys (with_help spec);
                      flags := fill_flags (with_help spec) |} e) ∨
    (∃ parsed k arg text,
       command_line (with_help spec) command = Returned parsed ∧
       (k, arg) ∈ with_help spec ∧ map_get (key_of k arg) parsed = Some text ∧
       rejects arg ("Argument " +:+ key_of k arg) text e).
Proof.
  unfold Args_parse, Args_create.
  destruct (check_reserved_outcome spec) as [[-> Hall]|[-> Hex]].
  2:{ split; [done|]. split; [done|]. intros e [= <-]. by left. }
  assert (Hno : ¬ Exists reserved spec).
  { intros Hex. apply Exists_exists in Hex as (kv & Hin & Hres).
    rewrite Forall_forall in Hall. by apply (Hall kv Hin). }
  unfold fill_settings.
  destruct (for_each (read_setting get_setting scriptName) (with_help spec)
              (fill_defaults (with_help spec))) as [res1|e1|] eqn:Hsettings.
  - rewrite Args_fill_command_line. cbn [args_spec args_values args_script args_scriptHelp].
    pose proof (command_line_outcome (with_help spec) command) as Hcl.
    destruct (command_line (with_help spec) command) as [parsed|e2|] eqn:Hparse; [| |done].
    + destruct command as [c|]; [|by split; [|split]].
      case_bool_decide; [by split; [|split]|]. unfold fill_parsed.
      destruct (for_each (read_argument parsed) (with_help spec) res1)
        as [res2|e3|] eqn:Hparsed.
      * by split; [|split].
      * split; [done|]. split; [done|]. intros e [= <-]. right. right. right.
        apply (for_each_thrown _ (fun _ => True)) in Hparsed as ([k arg] & r & Hin & _ & Hb);
          [|done|done].
        pose proof (read_argument_outcome parsed (k, arg) r) as Hstep.
        rewrite Hb in Hstep. destruct Hstep as (text & Htext & Hrej).
        by exists parsed, k, arg, text.
      * exfalso. revert Hparsed.
        apply (for_each_fuel _ (fun _ => True) (fun _ => True)); [by apply Forall_true|done|].
        intros kv r _ _. pose proof (read_argument_outcome parsed kv r).
        by destruct (read_argument parsed kv r).
    + split; [done|]. split; [done|]. intros e [= <-]. right. right. by left.
  - split; [done|]. split; [done|]. intros e [= <-]. right. left.
    apply (for_each_thrown _ (fun _ => True)) in Hsettings as ([k arg] & r & Hin & _ & Hb);
      [|done|done].
    pose proof (read_setting_outcome get_setting scriptName (k, arg) r) as Hstep.
    rewrite Hb in Hstep. destruct Hstep as (text & Htext & Hrej).
    by exists k, arg, text.
  - exfalso. revert Hsettings.
    apply (for_each_fuel _ (fun _ => True) (fun _ => True)); [by apply Forall_true|done|].
    intros kv r _ _. pose proof (read_setting_outcome get_setting scriptName kv r).
    by destruct (read_setting get_setting scriptName kv r).
Qed.

Lemma Args_parse_precedence_witness :
  ∃ parsed,
    command_line (with_help example_args) (Some "simulate") = Returned parsed ∧
    ∀ k arg, (k, arg) ∈ with_help example_args →
      (∀ text, from_setting example_settings "script" k arg = Some text →
               ∃ v, accepts arg text v) ∧
      (∀ text, map_get (key_of k arg) parsed = Some text → ∃ v, accepts arg text v) ∧
      (k ≠ "__proto__" →
       map_get k [("mode", Some (VString "fast")); ("sim", Some (VBool true)); ("help", None)] =
       Some match map_get (key_of k arg) parsed with
            | Some text => parser arg text
            | None =>
                match from_setting example_settings "script" k arg with
                | Some text => parser arg text
                | None => spec_default (arg_spec arg)
                end
            end).
Proof.
  apply (Args_parse_precedence example_settings "script" "An example." example_args
           (Some "simulate")
           {| args_spec := with_help example_args; args_script := "script";
              args_scriptHelp := "An example.";
              args_values := [("mode", Some (VString "fast")); ("sim", Some (VBool true));
                              ("help", None)] |}).
  - refine (bool_decide_unpack _ _). vm_compute. exact I.
  - vm_compute. reflexivity.
Defined.

Lemma Args_parse_options_witness :
  (∃ v, map_get "mode" [("mode", Some (VString "slow")); ("sim", Some (VBool false));
                        ("help", None)] = Some (Some v) ∧
        v ∈ map fst [(VString "fast", None); (VString "slow", Some "the default")]) ∨
  (map_get "mode" [("mode", Some (VString "slow")); ("sim", Some (VBool false));
                   ("help", None)] = Some None ∧
   spec_default (arg_spec mode_arg) = None).
Proof.
  refine (Args_parse_options example_settings "script" "An example." example_args
           (Some "mode=slow !simulate")
           {| args_spec := with_help example_args; args_script := "script";
              args_scriptHelp := "An example.";
              args_values := [("mode", Some (VString "slow")); ("sim", Some (VBool false));
                              ("help", None)] |}
           _ _ _ "mode" mode_arg
           [(VString "fast", None); (VString "slow", Some "the default")] _ _ _).
  - refine (bool_decide_unpack _ _). vm_compute. exact I.
  - intros k arg Hin. apply elem_of_cons in Hin as [[= -> ->]|Hin].
    { exists (arg_spec mode_arg), (parser mode_arg), "TEXT". vm_compute. reflexivity. }
    apply elem_of_cons in Hin as [[= -> ->]|Hin].
    { exists (arg_spec sim_arg), (parser sim_arg), "FLAG". reflexivity. }
    by apply elem_of_nil in Hin.
  - vm_compute. reflexivity.
  - left.
  - discriminate.
  - reflexivity.
Defined.
